(** * Graph and routing heuristics of [labs/]: a shallow embedding

    The four scripts [coloracao.py], [dom.py], [max_cut.py] and
    [vizinho_mais_proximo.py] are embedded as Rocq functions.  Python
    dictionaries and sets become [gmap] and [gset] where only their contents
    matter and lists where the iteration order is observable; exceptions are
    results of an error type; [while] loops run on fuel and are proved to
    return. *)

From Stdlib Require Import ZArith String Ascii Floats.
From stdpp Require Import base list gmap sets strings sorting.

Open Scope Z_scope.

#[local] Set Warnings "-clear-no-such-hyp".

(** ** Results of fallible code *)

Inductive exn : Set :=
| ValueError | IndexError | KeyError | OverflowError | TypeError | NetworkXError.

Inductive res (A : Type) : Type :=
| Ret (a : A)
| Raise (e : exn)
| OutOfFuel.
Arguments Ret {A} a.
Arguments Raise {A} e.
Arguments OutOfFuel {A}.

#[global] Instance res_ret : MRet res := @Ret.
#[global] Instance res_bind : MBind res := λ A B f m,
  match m with
  | Ret a => f a
  | Raise e => Raise e
  | OutOfFuel => OutOfFuel
  end.

Definition of_option {A} (e : exn) (o : option A) : res A :=
  match o with Some a => Ret a | None => Raise e end.

(** ** The Python built-ins the scripts use *)

Module Py.

(** [str.isspace] on the ASCII range: tab, LF, VT, FF, CR, FS, GS, RS, US and
    the space. *)
Definition is_space (c : ascii) : bool :=
  let n := Z.of_N (N_of_ascii c) in
  ((9 <=? n) && (n <=? 13)) || ((28 <=? n) && (n <=? 32)).

Fixpoint lstrip (s : list ascii) : list ascii :=
  match s with
  | c :: s' => if is_space c then lstrip s' else s
  | [] => []
  end.

Definition strip_chars (s : list ascii) : list ascii :=
  rev (lstrip (rev (lstrip s))).

(** [s.strip()] *)
Definition strip (s : string) : string :=
  string_of_list_ascii (strip_chars (list_ascii_of_string s)).

(** [s.split()]: the maximal runs of non-space characters.  [cur] holds the
    run being read, last character first. *)
Fixpoint split_chars (cur : list ascii) (s : list ascii) : list string :=
  match s with
  | [] => match cur with [] => [] | _ => [string_of_list_ascii (rev cur)] end
  | c :: s' =>
      if is_space c then
        match cur with
        | [] => split_chars [] s'
        | _ => string_of_list_ascii (rev cur) :: split_chars [] s'
        end
      else split_chars (c :: cur) s'
  end.

Definition split (s : string) : list string :=
  split_chars [] (list_ascii_of_string s).

(** [s.startswith(p)] *)
Definition startswith (s p : string) : bool := String.prefix p s.

(** [s.upper()] on the ASCII letters. *)
Definition upper_char (c : ascii) : ascii :=
  let n := N_of_ascii c in
  if ((97 <=? n) && (n <=? 122))%N then ascii_of_N (n - 32) else c.

Definition upper (s : string) : string :=
  string_of_list_ascii (map upper_char (list_ascii_of_string s)).

Definition digit (c : ascii) : option Z :=
  let n := Z.of_N (N_of_ascii c) in
  if (48 <=? n) && (n <=? 57) then Some (n - 48) else None.

(** The digits of a decimal literal; a single underscore may separate two
    digits.  [after_digit] tells whether the previous character was a
    digit. *)
Fixpoint int_digits (acc : Z) (after_digit : bool) (s : list ascii) : option Z :=
  match s with
  | [] => if after_digit then Some acc else None
  | c :: s' =>
      match digit c with
      | Some d => int_digits (10 * acc + d) true s'
      | None =>
          if Ascii.eqb c "_" && after_digit then int_digits acc false s'
          else None
      end
  end.

(** [int(s)] for a string: surrounding whitespace, an optional sign, decimal
    digits. *)
Definition int (s : string) : res Z :=
  of_option ValueError
    match strip_chars (list_ascii_of_string s) with
    | "-"%char :: ds => Z.opp <$> int_digits 0 false ds
    | "+"%char :: ds => int_digits 0 false ds
    | ds => int_digits 0 false ds
    end.

(** [range(a, b)] *)
Definition range (a b : Z) : list Z := seqZ a (b - a).

(** [sorted(xs)] on integers. *)
Definition sorted (xs : list Z) : list Z := merge_sort Z.le xs.

(** [sorted(xs, key=..., reverse=True)], on the list of (key, element)
    pairs: descending keys, and elements of equal key stay in the order they
    had (the sort is stable, also when reversed). *)
Fixpoint insert_desc {A} (x : Z * A) (l : list (Z * A)) : list (Z * A) :=
  match l with
  | [] => [x]
  | y :: l' => if x.1 <? y.1 then y :: insert_desc x l' else x :: l
  end.

Definition sorted_desc {A} (l : list (Z * A)) : list (Z * A) :=
  foldr insert_desc [] l.

(** [any(p(x) for x in xs)]: stops at the first hit, so later elements are
    not evaluated. *)
Fixpoint any {A} (p : A → res bool) (xs : list A) : res bool :=
  match xs with
  | [] => Ret false
  | x :: xs' => b ← p x; if b : bool then Ret true else any p xs'
  end.

(** [sum(1 for x in xs if p(x))] *)
Fixpoint count {A} (p : A → res bool) (xs : list A) : res Z :=
  match xs with
  | [] => Ret 0
  | x :: xs' => b ← p x; n ← count p xs'; Ret ((if b : bool then 1 else 0) + n)
  end.

(** [[x for x in xs if p(x)]] *)
Fixpoint select {A} (p : A → res bool) (xs : list A) : res (list A) :=
  match xs with
  | [] => Ret []
  | x :: xs' => b ← p x; r ← select p xs'; Ret (if b : bool then x :: r else r)
  end.

(** [[f(x) for x in xs]] *)
Fixpoint comprehension {A B} (f : A → res B) (xs : list A) : res (list B) :=
  match xs with
  | [] => Ret []
  | x :: xs' => y ← f x; r ← comprehension f xs'; Ret (y :: r)
  end.

(** [for x in xs: s = body(s, x)] *)
Fixpoint for_each {A S} (body : S → A → res S) (xs : list A) (s : S) : res S :=
  match xs with
  | [] => Ret s
  | x :: xs' => s' ← body s x; for_each body xs' s'
  end.

(** [d.get(k)] on a dictionary whose key order is observed, given as the
    list of its items in insertion order. *)
Fixpoint get {V} (d : list (Z * V)) (k : Z) : option V :=
  match d with
  | [] => None
  | (k', v) :: d' => if decide (k' = k) then Some v else get d' k
  end.

(** [c in s] for a string [c] of one character. *)
Definition contem (c : ascii) (s : string) : bool :=
  existsb (Ascii.eqb c) (list_ascii_of_string s).

End Py.

(** ** The part of [networkx.Graph] the scripts use

    A graph is its adjacency dictionary [_adj]: one entry per node, in the
    order the nodes were added, holding the node's neighbours in the order
    they were added.  ([_node] has the same keys in the same order and no
    data, so it is not kept apart.) *)

Module nx.

Definition Graph : Type := list (Z * list Z).

(** [nx.Graph()] *)
Definition empty : Graph := [].

(** [G.nodes()] *)
Definition nodes (G : Graph) : list Z := G.*1.

(** [G._adj.get(v)] *)
Definition adj (G : Graph) (v : Z) : option (list Z) := Py.get G v.

(** [G.neighbors(v)] *)
Definition neighbors (G : Graph) (v : Z) : res (list Z) :=
  of_option NetworkXError (adj G v).

(** [G.degree(v)]: a self-loop counts twice. *)
Definition degree (G : Graph) (v : Z) : res Z :=
  l ← of_option KeyError (adj G v);
  Ret (Z.of_nat (length l) + (if decide (v ∈ l) then 1 else 0)).

(** [G.add_node(n)] *)
Definition add_node (n : Z) (G : Graph) : Graph :=
  if decide (n ∈ nodes G) then G else G ++ [(n, [])].

(** [G.add_nodes_from(ns)] *)
Definition add_nodes_from (ns : list Z) (G : Graph) : Graph :=
  foldl (λ G n, add_node n G) G ns.

(** [d[k] = {}] on an inner adjacency dictionary: a key already there keeps
    its place. *)
Definition set_key (k : Z) (l : list Z) : list Z :=
  if decide (k ∈ l) then l else l ++ [k].

(** [G._adj[u][v] = {}] *)
Definition link (u v : Z) (G : Graph) : Graph :=
  (λ p : Z * list Z, if decide (p.1 = u) then (p.1, set_key v p.2) else p) <$> G.

(** [G.add_edge(u, v)] *)
Definition add_edge (u v : Z) (G : Graph) : Graph :=
  link v u (link u v (add_node v (add_node u G))).

(** [G.edges()]: every edge once, from the endpoint that comes first in the
    node order; [seen] holds the nodes already left behind. *)
Fixpoint edges_from (seen : gset Z) (G : Graph) : list (Z * Z) :=
  match G with
  | [] => []
  | (n, l) :: G' =>
      ((λ nbr, (n, nbr)) <$> filter (λ nbr, nbr ∉ seen) l)
        ++ edges_from ({[n]} ∪ seen) G'
  end.

Definition edges (G : Graph) : list (Z * Z) := edges_from ∅ G.

(** [v in G[u]] *)
Definition adjacent (G : Graph) (u v : Z) : Prop :=
  ∃ l, adj G u = Some l ∧ v ∈ l.

(** What every [networkx.Graph] satisfies. *)
Record wf (G : Graph) : Prop := {
  wf_nodes : NoDup (nodes G);
  wf_nbrs : ∀ v l, adj G v = Some l → NoDup l;
  wf_sym : ∀ u v, adjacent G u v → adjacent G v u;
}.

End nx.

(** ** The edge-list loaders

    The three scripts read the same format with the same loop; they differ in
    how the [p] line is taken apart.  A file is given as the list of its
    lines. *)

Module Loader.

(** [parts = linha.split(); n_vertices = int(parts[2])] *)
Definition linha_p_parts (linha : string) (G : nx.Graph) : res nx.Graph :=
  let parts := Py.split linha in
  t ← of_option IndexError (parts !! 2%nat);
  n_vertices ← Py.int t;
  Ret (nx.add_nodes_from (Py.range 1 (n_vertices + 1)) G).

(** [_, _, n, _ = linha.split()] *)
Definition linha_p_unpack (linha : string) (G : nx.Graph) : res nx.Graph :=
  match Py.split linha with
  | [_; _; n; _] => n' ← Py.int n; Ret (nx.add_nodes_from (Py.range 1 (n' + 1)) G)
  | _ => Raise ValueError
  end.

(** [_, u, v = linha.split(); G.add_edge(int(u), int(v))] *)
Definition linha_e (linha : string) (G : nx.Graph) : res nx.Graph :=
  match Py.split linha with
  | [_; u; v] => u' ← Py.int u; v' ← Py.int v; Ret (nx.add_edge u' v' G)
  | _ => Raise ValueError
  end.

(** The body of the loop over the lines. *)
Definition processar_linha (linha_p : string → nx.Graph → res nx.Graph)
    (G : nx.Graph) (linha : string) : res nx.Graph :=
  let linha := Py.strip linha in
  if Py.startswith linha "c" then Ret G
  else if Py.startswith linha "p" then linha_p linha G
  else if Py.startswith linha "e" then linha_e linha G
  else Ret G.

Definition carregar (linha_p : string → nx.Graph → res nx.Graph)
    (linhas : list string) : res nx.Graph :=
  Py.for_each (processar_linha linha_p) linhas nx.empty.

End Loader.

(** ** The command line

    [coloracao.py] and [max_cut.py] look a file up under [labs/] when its
    path has neither a backslash (character 92) nor a slash; [dom.py] takes
    the path as it is.  Opening and reading the file is left to [abrir],
    which gives the lines of the file, or the exception raised when it cannot
    be opened. *)

Definition localizar (arquivo : string) : string :=
  if negb (Py.contem "092" arquivo) && negb (Py.contem "/" arquivo)
  then ("labs/" ++ arquivo)%string else arquivo.

(** ** [coloracao.py] *)

Module Coloracao.

Definition carregar_grafo : list string → res nx.Graph :=
  Loader.carregar Loader.linha_p_parts.

(** [sorted(G.nodes(), key=lambda v: G.degree(v), reverse=True)] *)
Definition vertices_ordenados (G : nx.Graph) : res (list Z) :=
  keyed ← Py.comprehension (λ v, d ← nx.degree G v; Ret (d, v)) (nx.nodes G);
  Ret (Py.sorted_desc keyed).*2.

(** [cor[v]] *)
Definition cor_de (cor : gmap Z Z) (v : Z) : res Z :=
  of_option KeyError (cor !! v).

(** [{v: 0 for v in G.nodes()}] *)
Definition cor_inicial (G : nx.Graph) : gmap Z Z :=
  foldl (λ cor v, <[v := 0]> cor) ∅ (nx.nodes G).

(** The [for v in nao_coloridos[1:]] loop of one pass. *)
Definition tentar (G : nx.Graph) (cor_atual : Z) (cor : gmap Z Z) (v : Z)
    : res (gmap Z Z) :=
  nb ← nx.neighbors G v;
  conflito ← Py.any (λ u, c ← cor_de cor u; Ret (c =? cor_atual)) nb;
  Ret (if conflito : bool then cor else <[v := cor_atual]> cor).

(** The [while True] loop. *)
Fixpoint passes (fuel : nat) (G : nx.Graph) (vertices_ordenados : list Z)
    (cor_atual : Z) (cor : gmap Z Z) : res (gmap Z Z) :=
  match fuel with
  | O => OutOfFuel
  | S fuel' =>
      nao_coloridos ←
        Py.select (λ v, c ← cor_de cor v; Ret (c =? 0)) vertices_ordenados;
      match nao_coloridos with
      | [] => Ret cor
      | v0 :: resto =>
          cor' ← Py.for_each (tentar G cor_atual) resto (<[v0 := cor_atual]> cor);
          passes fuel' G vertices_ordenados (cor_atual + 1) cor'
      end
  end.

(** Every pass colours a vertex, so one pass per node and a last one that
    finds nothing left are enough. *)
Definition welsh_powell (G : nx.Graph) : res (gmap Z Z) :=
  ord ← vertices_ordenados G;
  passes (S (length (nx.nodes G))) G ord 1 (cor_inicial G).

(** [len(set(cores.values()))] *)
Definition num_cores (cores : gmap Z Z) : nat :=
  size (list_to_set (map_to_list cores).*2 : gset Z).

(** What a run prints: the usage line (and status 1), or the number of
    colours and a line [v: cores[v]] for every [v in sorted(cores)]. *)
Inductive saida : Type :=
| Uso
| Relatorio (num_cores : nat) (linhas : list (Z * Z)).

Section Principal.

Variable abrir : string → res (list string).

(** The [__main__] block on [sys.argv]. *)
Definition principal (argv : list string) : res saida :=
  match argv with
  | _ :: arquivo :: _ =>
      linhas ← abrir (localizar arquivo);
      G ← carregar_grafo linhas;
      cores ← welsh_powell G;
      linhas ← Py.comprehension (λ v, c ← cor_de cores v; Ret (v, c))
                 (Py.sorted (elements (dom cores)));
      Ret (Relatorio (num_cores cores) linhas)
  | _ => Ret Uso
  end.

End Principal.

End Coloracao.

(** ** [dom.py] *)

Module Dom.

Definition carregar_grafo : list string → res nx.Graph :=
  Loader.carregar Loader.linha_p_parts.

(** [not dominado[u]] *)
Definition nao_dominado (dominado : gmap Z bool) (u : Z) : res bool :=
  d ← of_option KeyError (dominado !! u); Ret (negb d).

(** The body of the [for v in sorted(C)] scan. *)
Definition avaliar (G : nx.Graph) (dominado : gmap Z bool)
    (melhor : option Z * Z) (v : Z) : res (option Z * Z) :=
  let '(melhor_v, melhor_qtd) := melhor in
  nb ← nx.neighbors G v;
  viz_nao_dom ← Py.count (nao_dominado dominado) nb;
  Ret (if melhor_qtd <? viz_nao_dom then (Some v, viz_nao_dom)
       else (melhor_v, melhor_qtd)).

(** The scan: the candidate with the most undominated neighbours, the first
    such one in ascending order. *)
Definition escolher (G : nx.Graph) (dominado : gmap Z bool) (C : gset Z)
    : res (option Z * Z) :=
  Py.for_each (avaliar G dominado) (Py.sorted (elements C)) (None, -1).

(** [dominado[v] = True; for u in G.neighbors(v): dominado[u] = True] *)
Definition marcar (dominado : gmap Z bool) (v : Z) (nb : list Z) : gmap Z bool :=
  foldl (λ d u, <[u := true]> d) (<[v := true]> dominado) nb.

(** The [while C] loop. *)
Fixpoint laco (fuel : nat) (G : nx.Graph) (C S : gset Z) (dominado : gmap Z bool)
    : res (gset Z) :=
  if decide (C = ∅) then Ret S
  else match fuel with
  | O => OutOfFuel
  | S fuel' =>
      '(melhor_v, _) ← escolher G dominado C;
      v ← of_option KeyError melhor_v;
      nd ← nao_dominado dominado v;
      precisa_inserir ←
        (if nd : bool then Ret true
         else nb ← nx.neighbors G v; Py.any (nao_dominado dominado) nb);
      '(S', dominado') ←
        (if precisa_inserir : bool then
           nb ← nx.neighbors G v; Ret ({[v]} ∪ S, marcar dominado v nb)
         else Ret (S, dominado));
      laco fuel' G (C ∖ {[v]}) S' dominado'
  end.

(** [{v: False for v in G.nodes()}] *)
Definition dominado_inicial (G : nx.Graph) : gmap Z bool :=
  foldl (λ d v, <[v := false]> d) ∅ (nx.nodes G).

(** Each turn removes a candidate from [C]. *)
Definition conjunto_dominante_aproximado (G : nx.Graph) : res (list Z) :=
  let C : gset Z := list_to_set (nx.nodes G) in
  S ← laco (size C) G C ∅ (dominado_inicial G);
  Ret (Py.sorted (elements S)).

(** What a run prints: the usage line (and status 1), or [len(S)] and the
    members of [S]. *)
Inductive saida : Type :=
| Uso
| Dominante (tamanho : nat) (S : list Z).

Section Principal.

Variable abrir : string → res (list string).

(** The [__main__] block on [sys.argv]. *)
Definition principal (argv : list string) : res saida :=
  match argv with
  | _ :: arquivo :: _ =>
      linhas ← abrir arquivo;
      G ← carregar_grafo linhas;
      S ← conjunto_dominante_aproximado G;
      Ret (Dominante (length S) S)
  | _ => Ret Uso
  end.

End Principal.

End Dom.

(** ** [max_cut.py] *)

Module MaxCut.

Definition carregar_grafo : list string → res nx.Graph :=
  Loader.carregar Loader.linha_p_unpack.

(** [sum(1 for u in G.neighbors(v) if u in X)] *)
Definition ganho (G : nx.Graph) (v : Z) (X : gset Z) : res Z :=
  nb ← nx.neighbors G v;
  Py.count (λ u, Ret (bool_decide (u ∈ X))) nb.

(** The body of the loop over the vertices. *)
Definition colocar (G : nx.Graph) (AB : gset Z * gset Z) (v : Z)
    : res (gset Z * gset Z) :=
  let '(A, B) := AB in
  ganho_A ← ganho G v B;
  ganho_B ← ganho G v A;
  Ret (if ganho_B <? ganho_A then ({[v]} ∪ A, B)
       else if ganho_A <? ganho_B then (A, {[v]} ∪ B)
       else if bool_decide (size A ≤ size B)%nat then ({[v]} ∪ A, B)
       else (A, {[v]} ∪ B)).

Definition sahni_gonzalez_maxcut (G : nx.Graph) : res (gset Z * gset Z) :=
  Py.for_each (colocar G) (Py.sorted (nx.nodes G)) (∅, ∅).

Definition cruza (A B : gset Z) (e : Z * Z) : Prop :=
  (e.1 ∈ A ∧ e.2 ∈ B) ∨ (e.1 ∈ B ∧ e.2 ∈ A).

#[global] Instance cruza_dec A B e : Decision (cruza A B e).
Proof. unfold cruza. apply _. Defined.

Definition tamanho_corte (G : nx.Graph) (A B : gset Z) : Z :=
  Z.of_nat (length (filter (cruza A B) (nx.edges G))).

(** What a run prints: the usage line (and status 1), or the size of the
    cut and, for each of the two sets, its size and its members in ascending
    order. *)
Inductive saida : Type :=
| Uso
| Corte (corte : Z) (tamanho_A : nat) (A : list Z) (tamanho_B : nat) (B : list Z).

Section Principal.

Variable abrir : string → res (list string).

(** The [__main__] block on [sys.argv]. *)
Definition principal (argv : list string) : res saida :=
  match argv with
  | _ :: arquivo :: _ =>
      linhas ← abrir (localizar arquivo);
      G ← carregar_grafo linhas;
      '(A, B) ← sahni_gonzalez_maxcut G;
      let corte := tamanho_corte G A B in
      Ret (Corte corte (size A) (Py.sorted (elements A))
             (size B) (Py.sorted (elements B)))
  | _ => Ret Uso
  end.

End Principal.

End MaxCut.

(** ** [vizinho_mais_proximo.py]

    Python floats are IEEE binary64 numbers, [PrimFloat.float] here, with the
    same [+], [-] and [<].  Two library functions are not arithmetic of that
    kind and are left open: [math.hypot] and [float] on a string. *)

Module Tsp.

(** [int(x)] on a float: the integer part, towards zero. *)
Definition int_of_float (x : float) : res Z :=
  match Prim2SF x with
  | S754_zero _ => Ret 0
  | S754_infinity _ => Raise OverflowError
  | S754_nan => Raise ValueError
  | S754_finite s m e =>
      let a := if 0 <=? e then Z.pos m * 2 ^ e else Z.pos m / 2 ^ (- e) in
      Ret (if s : bool then - a else a)
  end.

(** [float(k)] on an integer: the nearest float, ties to even. *)
Definition float_of_int (k : Z) : res float :=
  let f := SF2Prim (binary_normalize prec emax k 0 false) in
  if is_infinity f then Raise OverflowError else Ret f.

(** [float(int(d + 0.5))] *)
Definition arredondar (d : float) : res float :=
  k ← int_of_float (d + 0.5)%float; float_of_int k.

Record Args := {
  file : list string;
  start : option Z;
  try_all : bool;
  round : bool;
}.

Inductive mensagem : Set :=
| SemCoordenadas
| VerticeInicialAusente (s : Z).

(** What a run leaves behind: the cost and the tour printed (status 0), or a
    message on the error stream and [sys.exit(1)]. *)
Inductive saida : Set :=
| Impresso (custo : float) (tour : list Z)
| Saiu (msg : mensagem).

Section Libm.

Variable hypot : float → float → float.
Variable float_of_string : string → res float.

(** The loop of [ler_tsp] over the lines of the file. *)
Fixpoint ler_linhas (in_section : bool) (coords : gmap Z (float * float))
    (linhas : list string) : gmap Z (float * float) :=
  match linhas with
  | [] => coords
  | linha :: resto =>
      let linha := Py.strip linha in
      if decide (linha = EmptyString) then ler_linhas in_section coords resto
      else if Py.startswith (Py.upper linha) "EOF" then coords
      else if Py.startswith (Py.upper linha) "NODE_COORD_SECTION" then
        ler_linhas true coords resto
      else if negb in_section then ler_linhas in_section coords resto
      else
        let parts := Py.split linha in
        match
          (t0 ← of_option IndexError (parts !! 0%nat); idx ← Py.int t0;
           t1 ← of_option IndexError (parts !! 1%nat); x ← float_of_string t1;
           t2 ← of_option IndexError (parts !! 2%nat); y ← float_of_string t2;
           Ret (idx, (x, y)))
        with
        | Ret (idx, xy) => ler_linhas in_section (<[idx := xy]> coords) resto
        | _ => ler_linhas in_section coords resto
        end
  end.

Definition ler_tsp (linhas : list string) : gmap Z (float * float) :=
  ler_linhas false ∅ linhas.

Definition euclid_dist (a b : float * float) : float :=
  hypot (a.1 - b.1) (a.2 - b.2).

(** The inner loop of [construir_matriz_distancias]: the row [dist[i]]. *)
Definition preencher (coords : gmap Z (float * float)) (use_round : bool)
    (i : Z) (linha : gmap Z float) (j : Z) : res (gmap Z float) :=
  if decide (i = j) then Ret (<[j := 0%float]> linha)
  else
    a ← of_option KeyError (coords !! i);
    b ← of_option KeyError (coords !! j);
    let d := euclid_dist a b in
    d' ← (if use_round then arredondar d else Ret d);
    Ret (<[j := d']> linha).

Definition construir_matriz_distancias (coords : gmap Z (float * float))
    (use_round : bool) : res (list (Z * gmap Z float)) :=
  let nodes := Py.sorted (elements (dom coords)) in
  Py.comprehension (λ i,
      linha ← Py.for_each (preencher coords use_round i) nodes ∅;
      Ret (i, linha))
    nodes.

(** [dist[u][v]] *)
Definition dist_de (dist : list (Z * gmap Z float)) (u v : Z) : res float :=
  linha ← of_option KeyError (Py.get dist u);
  of_option KeyError (linha !! v).

(** The body of the [for v in nodes] scan of one turn. *)
Definition comparar (dist : list (Z * gmap Z float)) (visited : gset Z)
    (current : Z) (melhor : option Z * float) (v : Z) : res (option Z * float) :=
  let '(best, best_d) := melhor in
  if decide (v ∈ visited) then Ret (best, best_d)
  else
    d ← dist_de dist current v;
    Ret (if (d <? best_d)%float then (Some v, d) else (best, best_d)).

Definition mais_proximo (dist : list (Z * gmap Z float)) (nodes : list Z)
    (visited : gset Z) (current : Z) : res (option Z * float) :=
  Py.for_each (comparar dist visited current) nodes (None, infinity).

(** The [while len(visited) < n] loop and the closing of the cycle.  A scan
    that finds no vertex below infinity leaves [best = None]; the script goes
    on with [current = None] and its next access to [dist[current]] raises
    [KeyError], which is what that case returns here. *)
Fixpoint visitar (fuel : nat) (dist : list (Z * gmap Z float)) (nodes : list Z)
    (start : Z) (visited : gset Z) (tour : list Z) (current : Z)
    (total_cost : float) : res (float * list Z) :=
  if decide (size visited < length nodes)%nat then
    match fuel with
    | O => OutOfFuel
    | S fuel' =>
        '(best, best_d) ← mais_proximo dist nodes visited current;
        match best with
        | None => Raise KeyError
        | Some b =>
            visitar fuel' dist nodes start ({[b]} ∪ visited) (tour ++ [b]) b
              (total_cost + best_d)%float
        end
    end
  else
    d ← dist_de dist current start;
    Ret ((total_cost + d)%float, tour ++ [start]).

(** Each turn visits a new vertex, so one turn per key is enough. *)
Definition nearest_neighbor_tour (dist : list (Z * gmap Z float)) (start : Z)
    : res (float * list Z) :=
  let nodes := dist.*1 in
  visitar (length nodes) dist nodes start {[start]} [start] start 0%float.

(** The body of the loop of step 4 of [executar]. *)
Definition tentar_inicio (dist : list (Z * gmap Z float))
    (melhor : float * option (list Z)) (s : Z) : res (float * option (list Z)) :=
  let '(best_cost, best_tour) := melhor in
  '(cost, tour) ← nearest_neighbor_tour dist s;
  Ret (if (cost <? best_cost)%float then (cost, Some tour)
       else (best_cost, best_tour)).

(** Step 4: the best of the tours from [starts]. *)
Definition melhor_tour (dist : list (Z * gmap Z float)) (starts : list Z)
    : res (float * option (list Z)) :=
  Py.for_each (tentar_inicio dist) starts (infinity, None).

(** Step 5 of [executar]: the closing vertex is dropped from what is
    printed.  With no tour below infinity the script prints the cost and then
    fails on [best_tour = None] with a [TypeError], an uncaught exception like
    the others. *)
Definition imprimir (best_cost : float) (best_tour : option (list Z)) : res saida :=
  match best_tour with
  | None => Raise TypeError
  | Some tour =>
      Ret (Impresso best_cost
             (if decide (tour ≠ [] ∧ head tour = last tour)
              then removelast tour else tour))
  end.

(** Steps 4 and 5. *)
Definition resolver (dist : list (Z * gmap Z float)) (starts : list Z) : res saida :=
  '(best_cost, best_tour) ← melhor_tour dist starts;
  imprimir best_cost best_tour.

(** [executar(args)]; [min(coords.keys())] is the head of the sorted keys,
    [coords] being non-empty where it is taken. *)
Definition executar (args : Args) : res saida :=
  let coords := ler_tsp (file args) in
  if decide (coords = ∅) then Ret (Saiu SemCoordenadas)
  else
    dist ← construir_matriz_distancias coords (round args);
    if try_all args then resolver dist (Py.sorted (elements (dom coords)))
    else
      let s := match start args with
               | Some s => s
               | None => hd 0 (Py.sorted (elements (dom coords)))
               end in
      if decide (s ∈ dom coords) then resolver dist [s]
      else Ret (Saiu (VerticeInicialAusente s)).

End Libm.

End Tsp.

(** ** Stand-ins for the two library functions, to run the examples

    [hypot_sqrt] is the textbook formula; it agrees with [math.hypot] on the
    inputs of the examples, where the squares and the root are exact or
    infinite.  [float_literal] reads [inf], [-inf], [nan] and integer
    literals, and fails on everything else. *)

Definition hypot_sqrt (x y : float) : float := PrimFloat.sqrt (x * x + y * y).

Definition float_literal (s : string) : res float :=
  if decide (s = "inf"%string) then Ret infinity
  else if decide (s = "-inf"%string) then Ret neg_infinity
  else if decide (s = "nan"%string) then Ret nan
  else k ← Py.int s; Tsp.float_of_int k.

(** ** Vocabulary of the statements *)

(** The degree of a vertex, as [G.degree] counts it. *)
Definition grau (G : nx.Graph) (v : Z) : Z :=
  match nx.adj G v with
  | Some l => Z.of_nat (length l) + (if decide (v ∈ l) then 1 else 0)
  | None => 0
  end.

(** A vertex with its sort key. *)
Definition com_grau (G : nx.Graph) (v : Z) : Z * Z := (grau G v, v).

(** Whether [u] has the colour [c] in [cor]. *)
Definition tem_cor (cor : gmap Z Z) (c : Z) (u : Z) : bool :=
  match cor !! u with Some x => x =? c | None => false end.

(** What holds of the colour dictionary while the engine runs with colours
    below [c] given out: its keys are the nodes, its values are in [0, c), and
    no edge between distinct vertices has one colour other than 0 at both
    ends. *)
Record wp_inv (G : nx.Graph) (c : Z) (cor : gmap Z Z) : Prop := {
  wp_dom : ∀ v, is_Some (cor !! v) ↔ v ∈ nx.nodes G;
  wp_range : ∀ v x, cor !! v = Some x → 0 ≤ x < c;
  wp_proper : ∀ u v x, nx.adjacent G u v → u ≠ v →
                cor !! u = Some x → cor !! v = Some x → x = 0;
}.

(** [v] is covered by the set [S]: a member, or adjacent to a member. *)
Definition coberto (G : nx.Graph) (S : gset Z) (v : Z) : Prop :=
  v ∈ S ∨ ∃ u, u ∈ S ∧ nx.adjacent G u v.

(** What holds of the state of the dominating-set loop: the flags are those
    of the nodes, the candidates are nodes, a flagged vertex is covered, and
    so is every node that is no longer a candidate. *)
Record dom_inv (G : nx.Graph) (C S : gset Z) (dominado : gmap Z bool) : Prop := {
  dom_keys : ∀ v, is_Some (dominado !! v) ↔ v ∈ nx.nodes G;
  dom_cand : ∀ v, v ∈ C → v ∈ nx.nodes G;
  dom_set : ∀ v, v ∈ S → v ∈ nx.nodes G;
  dom_flag : ∀ v, dominado !! v = Some true → coberto G S v;
  dom_seen : ∀ v, v ∈ nx.nodes G → v ∉ C → coberto G S v;
}.

(** Every entry of [u] in the adjacency has [v]. *)
Definition ligado (u v : Z) (G : nx.Graph) : Prop :=
  ∀ p, p ∈ G → p.1 = u → v ∈ p.2.

(** The vertices a line of an edge-list file names: [1..N] for a [p] line
    with [N] as its third token, the two endpoints for an [e] line. *)
Definition declarados (linha : string) : list Z :=
  let linha := Py.strip linha in
  if Py.startswith linha "c" then []
  else if Py.startswith linha "p" then
    match Py.split linha !! 2%nat with
    | Some t => match Py.int t with Ret n => Py.range 1 (n + 1) | _ => [] end
    | None => []
    end
  else if Py.startswith linha "e" then
    match Py.split linha with
    | [_; u; v] =>
        match Py.int u, Py.int v with Ret u', Ret v' => [u'; v'] | _, _ => [] end
    | _ => []
    end
  else [].


(** The value the matrix builder computes for the entry [dist[i][j]]. *)
Definition entrada (hypot : float → float → float) (coords : gmap Z (float * float))
    (use_round : bool) (i j : Z) : res float :=
  if decide (i = j) then Ret 0%float
  else
    a ← of_option KeyError (coords !! i);
    b ← of_option KeyError (coords !! j);
    let d := Tsp.euclid_dist hypot a b in
    if use_round then Tsp.arredondar d else Ret d.

(** The cost of walking along [tour]: the distances of its consecutive
    pairs, added from the first on to what [acc] holds. *)
Fixpoint custo_ao_longo (dist : list (Z * gmap Z float)) (acc : float)
    (tour : list Z) : res float :=
  match tour with
  | u :: resto =>
      match resto with
      | v :: _ => d ← Tsp.dist_de dist u v; custo_ao_longo dist (acc + d)%float resto
      | [] => Ret acc
      end
  | [] => Ret acc
  end.

(** What holds of the state of the tour loop: the tour starts at [start] and
    ends at [current], has no vertex twice and only keys of the matrix, the
    visited set is the set of its vertices, and the cost is that of walking
    along it. *)
Record nn_inv (dist : list (Z * gmap Z float)) (start : Z) (visited : gset Z)
    (tour : list Z) (current : Z) (total_cost : float) : Prop := {
  nn_head : head tour = Some start;
  nn_last : last tour = Some current;
  nn_nodup : NoDup tour;
  nn_keys : ∀ v, v ∈ tour → v ∈ dist.*1;
  nn_visited : visited = list_to_set tour;
  nn_cost : custo_ao_longo dist 0%float tour = Ret total_cost;
}.

(** The matrix has an entry below infinity for every pair of its keys. *)
Definition finita (dist : list (Z * gmap Z float)) : Prop :=
  ∀ u v, u ∈ dist.*1 → v ∈ dist.*1 →
    ∃ d, Tsp.dist_de dist u v = Ret d ∧ (d <? infinity)%float = true.

(** Whether every entry of the matrix is below infinity. *)
Definition entradas_finitas (dist : list (Z * gmap Z float)) : bool :=
  forallb (λ p : Z * gmap Z float,
             forallb (λ q : Z * float, (q.2 <? infinity)%float) (map_to_list p.2))
          dist.

(** A colouring of the graph: every node has a positive colour, nothing else
    has one, and the two ends of an edge between distinct vertices differ. *)
Definition coloracao_propria (G : nx.Graph) (cor : gmap Z Z) : Prop :=
  (∀ v, v ∈ nx.nodes G → ∃ x, cor !! v = Some x ∧ 0 < x)
  ∧ (∀ v, is_Some (cor !! v) → v ∈ nx.nodes G)
  ∧ (∀ u v, nx.adjacent G u v → u ≠ v → cor !! u ≠ cor !! v).

(** ** Vocabulary of the further properties *)



(** The edge [e] joins [v] and a member of [X]. *)
Definition toca (v : Z) (X : gset Z) (e : Z * Z) : Prop :=
  (e.1 = v ∧ e.2 ∈ X) ∨ (e.2 = v ∧ e.1 ∈ X).

#[global] Instance toca_dec v X e : Decision (toca v X e).
Proof. unfold toca. apply _. Defined.

(** The edge [e] joins two distinct members of [P]. *)
Definition dentro (P : gset Z) (e : Z * Z) : Prop :=
  e.1 ∈ P ∧ e.2 ∈ P ∧ e.1 ≠ e.2.

#[global] Instance dentro_dec P e : Decision (dentro P e).
Proof. unfold dentro. apply _. Defined.

(** The end of [e] that is not [v]. *)
Definition outro (v : Z) (e : Z * Z) : Z := if decide (e.1 = v) then e.2 else e.1.

(** The number of neighbours of [v] other than [v] itself. *)
Definition outros_vizinhos (G : nx.Graph) (v : Z) : Z :=
  match nx.adj G v with
  | Some l => Z.of_nat (length (filter (λ u, u ≠ v) l))
  | None => 0
  end.

(** Every vertex has a neighbour of each colour below its own, a vertex not
    yet coloured one of each colour below [c]. *)
Definition wp_abaixo (G : nx.Graph) (c : Z) (cor : gmap Z Z) : Prop :=
  ∀ v x y, cor !! v = Some x → 0 < y → y < (if decide (x = 0) then c else x) →
    ∃ u, nx.adjacent G v u ∧ cor !! u = Some y.

(** Every colour below [c] is the colour of some vertex. *)
Definition wp_usadas (c : Z) (cor : gmap Z Z) : Prop :=
  ∀ y, 0 < y < c → ∃ v, cor !! v = Some y.

(** From [cor] to [cor1] the only changes are vertices given the colour
    [c], which were uncoloured or had it. *)
Definition so_pinta (c : Z) (cor cor1 : gmap Z Z) : Prop :=
  ∀ w, cor1 !! w = cor !! w
       ∨ ((cor !! w = Some 0 ∨ cor !! w = Some c) ∧ cor1 !! w = Some c).

(** The number of neighbours of [v], itself included if it has a
    self-loop. *)
Definition vizinhos (G : nx.Graph) (v : Z) : Z :=
  match nx.adj G v with Some l => Z.of_nat (length l) | None => 0 end.

(** The neighbours of [v] not yet dominated, counted. *)
Definition por_dominar (G : nx.Graph) (dominado : gmap Z bool) (v : Z) : Z :=
  match nx.adj G v with
  | Some l =>
      Z.of_nat (length (filter (λ u, negb (default false (dominado !! u)) = true) l))
  | None => 0
  end.





(** The place of a float in the order of [<]: none for a NaN. *)
Definition chave (x : float) : option (Z * Z * Z) :=
  match Prim2SF x with
  | S754_nan => None
  | S754_zero _ => Some (0, 0, 0)
  | S754_infinity s => Some (if s then -2 else 2, 0, 0)
  | S754_finite s m e =>
      Some (if s then (-1, - e, Z.neg m) else (1, e, Z.pos m))
  end.

Definition chave_antes (a b : Z * Z * Z) : Prop :=
  a.1.1 < b.1.1 ∨ (a.1.1 = b.1.1 ∧ (a.1.2 < b.1.2 ∨ (a.1.2 = b.1.2 ∧ a.2 < b.2))).

(** Every step of the tour goes from [u] to a vertex [v] not yet visited
    that no other such vertex is nearer to [u] than, the first one in the
    order of [nodes] among those as near. *)
Definition guloso (dist : list (Z * gmap Z float)) (nodes tour : list Z) : Prop :=
  ∀ t1 u v t2, tour = t1 ++ u :: v :: t2 →
    ∃ d n1 n2, Tsp.dist_de dist u v = Ret d ∧ nodes = n1 ++ v :: n2
      ∧ ∀ w dw, w ∈ nodes → w ∉ t1 ++ [u] → Tsp.dist_de dist u w = Ret dw →
          (dw <? d)%float = false ∧ (w ∈ n1 → (d <? dw)%float = true).

(** ** Inputs of the examples *)

(** The 4-cycle of the specification's scenarios. *)
Definition c4 : list string :=
  ["c a cycle"; "p edge 4 4"; "e 1 2"; "e 2 3"; "e 3 4"; "e 4 1"]%string.

Definition g4 : nx.Graph := [(1, [2; 4]); (2, [1; 3]); (3, [2; 4]); (4, [3; 1])].

(** A file whose edge has its endpoints outside the declared range. *)
Definition fora_de_ordem : list string := ["p edge 2 1"; "e 4 3"]%string.

(** A file with one edge, twice. *)
Definition repetida : list string := ["p edge 2 2"; "e 1 2"; "e 1 2"]%string.


(** A file with a self-loop. *)
Definition laco_1 : list string := ["p edge 1 1"; "e 1 1"]%string.

(** The three points of the specification's routing scenario. *)
Definition tres_pontos : list string :=
  ["NAME: tres"; "NODE_COORD_SECTION"; "1 0 0"; "2 10 0"; "3 1 0"; "EOF"]%string.

(** Two points, one of them at infinity. *)
Definition infinito_2 : list string :=
  ["NODE_COORD_SECTION"; "1 0 0"; "2 inf 0"]%string.

(** Two points so far apart that their distance is not finite. *)
Definition dois_longe : gmap Z (float * float) :=
  {[ 1 := (0x1p1023, 0)%float; 2 := ((-0x1p1023)%float, 0%float) ]}.

(** Two points on one axis, so far apart that going there and back costs
    more than any float. *)
Definition ida_e_volta : list string :=
  ["NODE_COORD_SECTION"; "1 0 0";
   "2 89884656743115795386465259539451236680898848947115328636715040578866337902750481566354238661203768010560056939935696678829394884407208311246423715319737062188883946712432742638151109800623047059726541476042502884419075341171231440736956555270413618581675255342293149119973622969239858152417678164812112068608 0"]%string.

(** [math.hypot] on the points of one horizontal line: with the second
    argument zero it is the absolute value of the first. *)
Definition hypot_no_eixo (x y : float) : float := abs x.

(** A disk on which every path leads to the file of the 4-cycle. *)
Definition disco_c4 (caminho : string) : res (list string) := Ret c4.

(** A file with one point. *)
Definition um_ponto : list string := ["NODE_COORD_SECTION"; "7 3 4"; "EOF"]%string.

(** A file of three vertices and a self-loop, without other edges. *)
Definition sem_arestas : list string := ["p edge 3 1"; "e 2 2"]%string.

(** * Properties *)

(** ** The scenarios of the specification, run *)

Example strip_ex : Py.strip "  p edge 4 3  " = "p edge 4 3"%string.
Proof. reflexivity. Qed.

Example split_ex : Py.split "p  edge 4	3" = ["p"; "edge"; "4"; "3"]%string.
Proof. reflexivity. Qed.

Example int_ex : Py.int "-1_000" = Ret (-1000) ∧ Py.int "1__0" = Raise ValueError
  ∧ Py.int EmptyString = Raise ValueError ∧ Py.int "+07" = Ret 7.
Proof. repeat split. Qed.

Example sorted_desc_ex :
  Py.sorted_desc [(1, "a"); (2, "b"); (1, "c"); (2, "d")]%string
  = [(2, "b"); (2, "d"); (1, "a"); (1, "c")]%string.
Proof. reflexivity. Qed.

Example carregar_c4 : Coloracao.carregar_grafo c4 = Ret g4.
Proof. reflexivity. Qed.

Example welsh_powell_c4 :
  Coloracao.welsh_powell g4 = Ret (list_to_map [(1, 1); (2, 2); (3, 1); (4, 2)]).
Proof. vm_compute. reflexivity. Qed.

Example dominante_c4 : Dom.conjunto_dominante_aproximado g4 = Ret [1; 2].
Proof. vm_compute. reflexivity. Qed.

Example vertices_ordenados_c4 : Coloracao.vertices_ordenados g4 = Ret [1; 2; 3; 4].
Proof. reflexivity. Qed.

Example maxcut_c4 :
  MaxCut.sahni_gonzalez_maxcut g4 = Ret ({[1; 3]}, {[2; 4]})
  ∧ MaxCut.tamanho_corte g4 {[1; 3]} {[2; 4]} = 4.
Proof. split; vm_compute; reflexivity. Qed.

Example ler_tres_pontos :
  Tsp.ler_tsp float_literal tres_pontos
  = {[ 1 := (0, 0)%float; 2 := (10, 0)%float; 3 := (1, 0)%float ]}.
Proof. vm_compute. reflexivity. Qed.

Example executar_tres_pontos :
  Tsp.executar hypot_sqrt float_literal
    {| Tsp.file := tres_pontos; Tsp.start := Some 1; Tsp.try_all := false;
       Tsp.round := false |}
  = Ret (Tsp.Impresso 20 [1; 3; 2]).
Proof. vm_compute. reflexivity. Qed.

Example arredondar_ex :
  Tsp.arredondar 2.5 = Ret 3%float ∧ Tsp.arredondar 2.25 = Ret 2%float
  ∧ Tsp.arredondar infinity = Raise OverflowError
  ∧ Tsp.arredondar nan = Raise ValueError.
Proof. repeat split; vm_compute; reflexivity. Qed.

(** ** Results and loops *)

Lemma bind_Ret {A B} (m : res A) (f : A → res B) b :
  m ≫= f = Ret b ↔ ∃ a, m = Ret a ∧ f a = Ret b.
Proof.
  split.
  - destruct m as [a| |]; simpl; [eauto | discriminate..].
  - intros (a & -> & Hf). exact Hf.
Qed.

Lemma of_option_Ret {A} e (o : option A) a : of_option e o = Ret a ↔ o = Some a.
Proof. destruct o; simpl; split; congruence. Qed.

(** A loop whose body keeps an invariant of the part of the list already
    seen returns, and the invariant holds of the whole list. *)
Lemma for_each_inv {A S} (I : list A → S → Prop) (body : S → A → res S) xs :
  ∀ done s,
    I done s →
    (∀ done' x rest s', done ++ xs = done' ++ x :: rest → I done' s' →
       ∃ s'', body s' x = Ret s'' ∧ I (done' ++ [x]) s'') →
    ∃ s', Py.for_each body xs s = Ret s' ∧ I (done ++ xs) s'.
Proof.
  induction xs as [|x xs IH]; intros done s HI Hstep; simpl.
  - rewrite app_nil_r. eauto.
  - destruct (Hstep done x xs s eq_refl HI) as (s1 & -> & HI1). simpl.
    destruct (IH (done ++ [x]) s1 HI1) as (s' & Hs' & HI').
    + intros done' y rest s2 Heq. apply (Hstep done' y rest s2).
      by rewrite <- Heq, <- app_assoc.
    + exists s'. by rewrite <- app_assoc in HI'.
Qed.

Lemma for_each_app {A S} (body : S → A → res S) xs ys s :
  Py.for_each body (xs ++ ys) s = Py.for_each body xs s ≫= Py.for_each body ys.
Proof.
  revert s. induction xs as [|x xs IH]; intros s; simpl; [done|].
  destruct (body s x); simpl; auto.
Qed.

(** The comprehensions on a test that cannot fail. *)
Lemma any_pure {A} (p : A → res bool) (q : A → bool) xs :
  (∀ x, x ∈ xs → p x = Ret (q x)) → Py.any p xs = Ret (existsb q xs).
Proof.
  induction xs as [|x xs IH]; intros H; simpl; [done|].
  rewrite (H x) by left. simpl. destruct (q x); simpl; [done|].
  apply IH. intros y Hy. apply H. by right.
Qed.

Lemma count_pure {A} (p : A → res bool) (q : A → bool) xs :
  (∀ x, x ∈ xs → p x = Ret (q x)) →
  Py.count p xs = Ret (Z.of_nat (length (filter (λ x, q x = true) xs))).
Proof.
  induction xs as [|x xs IH]; intros H; simpl; [done|].
  rewrite (H x) by left. simpl. rewrite IH by (intros y Hy; apply H; by right).
  simpl. f_equal. rewrite filter_cons.
  destruct (q x); case_decide; try done; simpl; lia.
Qed.

Lemma select_pure {A} (p : A → res bool) (q : A → bool) xs :
  (∀ x, x ∈ xs → p x = Ret (q x)) →
  Py.select p xs = Ret (filter (λ x, q x = true) xs).
Proof.
  induction xs as [|x xs IH]; intros H; simpl; [done|].
  rewrite (H x) by left. simpl. rewrite IH by (intros y Hy; apply H; by right).
  simpl. f_equal. rewrite filter_cons.
  by destruct (q x); case_decide.
Qed.

Lemma comprehension_pure {A B} (f : A → res B) (g : A → B) xs :
  (∀ x, x ∈ xs → f x = Ret (g x)) → Py.comprehension f xs = Ret (g <$> xs).
Proof.
  induction xs as [|x xs IH]; intros H; simpl; [done|].
  rewrite (H x) by left. simpl. rewrite IH by (intros y Hy; apply H; by right).
  done.
Qed.

(** ** [sorted] *)

Lemma sorted_Permutation xs : Py.sorted xs ≡ₚ xs.
Proof. apply merge_sort_Permutation. Qed.

Lemma sorted_Sorted xs : StronglySorted Z.le (Py.sorted xs).
Proof. apply StronglySorted_merge_sort; apply _. Qed.

Lemma elem_of_sorted x xs : x ∈ Py.sorted xs ↔ x ∈ xs.
Proof. by rewrite sorted_Permutation. Qed.

Lemma sorted_NoDup xs : NoDup xs → NoDup (Py.sorted xs).
Proof. by rewrite sorted_Permutation. Qed.

(** ** Dictionaries in insertion order *)

Lemma get_Some_elem {V} (d : list (Z * V)) k v : Py.get d k = Some v → (k, v) ∈ d.
Proof.
  induction d as [|[k' v'] d IH]; simpl; [done|].
  case_decide; [intros [= ->]; subst; left | intros; right; auto].
Qed.

Lemma get_is_Some {V} (d : list (Z * V)) k : is_Some (Py.get d k) ↔ k ∈ d.*1.
Proof.
  induction d as [|[k' v'] d IH]; simpl.
  - split; [intros [? [=]] | by intros ?%elem_of_nil].
  - case_decide; subst.
    + split; [left | eauto].
    + rewrite IH, elem_of_cons. naive_solver.
Qed.

Lemma get_None {V} (d : list (Z * V)) k : Py.get d k = None ↔ k ∉ d.*1.
Proof. rewrite <- get_is_Some, eq_None_not_Some. done. Qed.

Lemma get_app {V} (d d' : list (Z * V)) k :
  Py.get (d ++ d') k = match Py.get d k with Some v => Some v | None => Py.get d' k end.
Proof.
  induction d as [|[k' v'] d IH]; simpl; [done|]. by case_decide.
Qed.

(** ** Graphs *)

Lemma adj_is_Some G v : is_Some (nx.adj G v) ↔ v ∈ nx.nodes G.
Proof. apply get_is_Some. Qed.

Lemma neighbors_Ret G v : v ∈ nx.nodes G → ∃ l, nx.adj G v = Some l ∧ nx.neighbors G v = Ret l.
Proof.
  intros [l Hl]%adj_is_Some. exists l. unfold nx.neighbors. by rewrite Hl.
Qed.

Lemma adjacent_nodes G u v : nx.adjacent G u v → u ∈ nx.nodes G.
Proof. intros (l & Hl & _). apply adj_is_Some. eauto. Qed.

Lemma nodes_add_node n G :
  nx.nodes (nx.add_node n G) = if decide (n ∈ nx.nodes G) then nx.nodes G else nx.nodes G ++ [n].
Proof.
  unfold nx.add_node. case_decide; [done|]. unfold nx.nodes. by rewrite fmap_app.
Qed.

Lemma elem_of_nodes_add_node n G v :
  v ∈ nx.nodes (nx.add_node n G) ↔ v ∈ nx.nodes G ∨ v = n.
Proof.
  rewrite nodes_add_node. case_decide.
  - naive_solver.
  - rewrite elem_of_app, list_elem_of_singleton. done.
Qed.

Lemma adj_add_node n G v :
  nx.adj (nx.add_node n G) v
  = if decide (v ∈ nx.nodes G) then nx.adj G v
    else if decide (v = n) then Some [] else None.
Proof.
  unfold nx.add_node, nx.adj. destruct (decide (n ∈ nx.nodes G)) as [Hn|Hn].
  - destruct (decide (v ∈ nx.nodes G)) as [Hv|Hv]; [done|].
    pose proof Hv as ->%get_None. case_decide; [by subst | done].
  - rewrite get_app. simpl. destruct (decide (v ∈ nx.nodes G)) as [Hv|Hv].
    + apply get_is_Some in Hv as [l ->]. done.
    + apply get_None in Hv as ->. repeat case_decide; congruence.
Qed.

Lemma adjacent_add_node n G a b : nx.adjacent (nx.add_node n G) a b ↔ nx.adjacent G a b.
Proof.
  unfold nx.adjacent. rewrite adj_add_node. case_decide as Ha; [done|].
  split; intros (l & Hl & Hb).
  - case_decide; [|done]. injection Hl as <-. by apply elem_of_nil in Hb.
  - destruct Ha. apply adj_is_Some. eauto.
Qed.

Lemma nodes_link u v G : nx.nodes (nx.link u v G) = nx.nodes G.
Proof.
  unfold nx.nodes, nx.link. rewrite <- list_fmap_compose. apply list_fmap_ext.
  intros i [k l] _. simpl. by case_decide.
Qed.

Lemma adj_link u v G w :
  nx.adj (nx.link u v G) w
  = if decide (w = u) then nx.set_key v <$> nx.adj G w else nx.adj G w.
Proof.
  unfold nx.adj, nx.link. induction G as [|[k l] G IH]; csimpl.
  - by case_decide.
  - destruct (decide (k = u)); simpl; rewrite IH;
      repeat case_decide; subst; simpl; congruence.
Qed.

Lemma elem_of_set_key k l x : x ∈ nx.set_key k l ↔ x ∈ l ∨ x = k.
Proof.
  unfold nx.set_key. case_decide.
  - naive_solver.
  - rewrite elem_of_app, list_elem_of_singleton. done.
Qed.

Lemma set_key_NoDup k l : NoDup l → NoDup (nx.set_key k l).
Proof.
  unfold nx.set_key. case_decide; [done|]. intros Hl.
  apply NoDup_app. split_and!; [done | | apply NoDup_singleton].
  intros x Hx ->%list_elem_of_singleton. done.
Qed.

Lemma adjacent_link u v G a b :
  nx.adjacent (nx.link u v G) a b
  ↔ nx.adjacent G a b ∨ (a = u ∧ b = v ∧ u ∈ nx.nodes G).
Proof.
  unfold nx.adjacent. rewrite adj_link. case_decide as Ha; subst.
  - split.
    + intros (l & Hl & Hb). apply fmap_Some in Hl as (l0 & Hl0 & ->).
      apply elem_of_set_key in Hb as [Hb| ->].
      * left. eauto.
      * right. split_and!; [done..|]. apply adj_is_Some. eauto.
    + intros [(l & Hl & Hb)|(_ & -> & [l Hl]%adj_is_Some)].
      * exists (nx.set_key v l). rewrite Hl. split; [done|].
        apply elem_of_set_key. by left.
      * exists (nx.set_key v l). rewrite Hl. split; [done|].
        apply elem_of_set_key. by right.
  - split; [auto | intros [?|[? _]]; done].
Qed.

Lemma nodes_add_edge u v G :
  nx.nodes (nx.add_edge u v G) = nx.nodes (nx.add_node v (nx.add_node u G)).
Proof. unfold nx.add_edge. by rewrite !nodes_link. Qed.

Lemma elem_of_nodes_add_edge u v G w :
  w ∈ nx.nodes (nx.add_edge u v G) ↔ w ∈ nx.nodes G ∨ w = u ∨ w = v.
Proof.
  rewrite nodes_add_edge, !elem_of_nodes_add_node. naive_solver.
Qed.

(** After [add_edge(u, v)] the adjacency has the pair, both ways, and what it
    had. *)
Lemma adjacent_add_edge u v G a b :
  nx.adjacent (nx.add_edge u v G) a b
  ↔ nx.adjacent G a b ∨ (a = u ∧ b = v) ∨ (a = v ∧ b = u).
Proof.
  unfold nx.add_edge. rewrite !adjacent_link, nodes_link, !adjacent_add_node.
  assert (u ∈ nx.nodes (nx.add_node v (nx.add_node u G))) as Hu
    by (rewrite !elem_of_nodes_add_node; auto).
  assert (v ∈ nx.nodes (nx.add_node v (nx.add_node u G))) as Hv
    by (rewrite !elem_of_nodes_add_node; auto).
  tauto.
Qed.

Lemma wf_empty : nx.wf nx.empty.
Proof.
  split.
  - apply NoDup_nil_2.
  - intros v l [=].
  - intros u v (l & [=] & _).
Qed.

Lemma wf_add_node n G : nx.wf G → nx.wf (nx.add_node n G).
Proof.
  intros [Hn Hl Hs]. split.
  - rewrite nodes_add_node. case_decide; [done|].
    apply NoDup_app. split_and!; [done | | apply NoDup_singleton].
    intros x Hx ->%list_elem_of_singleton. done.
  - intros v l. rewrite adj_add_node. repeat case_decide; try done.
    + apply Hl.
    + intros [= <-]. apply NoDup_nil_2.
  - intros u v. rewrite !adjacent_add_node. apply Hs.
Qed.

Lemma wf_add_nodes_from ns G : nx.wf G → nx.wf (nx.add_nodes_from ns G).
Proof.
  unfold nx.add_nodes_from. revert G.
  induction ns as [|n ns IH]; intros G HG; simpl; [done|].
  apply IH. by apply wf_add_node.
Qed.

Lemma wf_link u v G :
  NoDup (nx.nodes G) → (∀ w l, nx.adj G w = Some l → NoDup l) →
  NoDup (nx.nodes (nx.link u v G))
  ∧ (∀ w l, nx.adj (nx.link u v G) w = Some l → NoDup l).
Proof.
  intros Hn Hl. split; [by rewrite nodes_link|].
  intros w l. rewrite adj_link. case_decide; [|apply Hl].
  intros (l0 & Hl0 & ->)%fmap_Some. apply set_key_NoDup. eauto.
Qed.

Lemma wf_add_edge u v G : nx.wf G → nx.wf (nx.add_edge u v G).
Proof.
  intros HG.
  destruct (wf_add_node v _ (wf_add_node u _ HG)) as [Hn Hl _].
  destruct (wf_link u v _ Hn Hl) as [Hn1 Hl1].
  destruct (wf_link v u _ Hn1 Hl1) as [Hn2 Hl2].
  split; [done..|].
  intros a b. rewrite !adjacent_add_edge.
  intros [H|H]; [left; by apply (nx.wf_sym G HG) | naive_solver].
Qed.

(** The first ends of the pairs of [G.edges()] are nodes, and every pair is
    in the adjacency. *)
Lemma edges_from_node seen G a b : (a, b) ∈ nx.edges_from seen G → a ∈ nx.nodes G.
Proof.
  revert seen. induction G as [|[n l] G IH]; intros seen; simpl.
  - by intros ?%elem_of_nil.
  - intros [Hh|Ht]%elem_of_app.
    + apply list_elem_of_fmap in Hh as (nbr & [= -> ->] & Hn). left.
    + right. by eapply IH.
Qed.

Lemma edges_adjacent G a b :
  NoDup (nx.nodes G) → (a, b) ∈ nx.edges G → nx.adjacent G a b.
Proof.
  unfold nx.edges. generalize (∅ : gset Z).
  induction G as [|[n l] G IH]; intros seen Hnd; simpl.
  - by intros ?%elem_of_nil.
  - apply NoDup_cons in Hnd as [Hn Hnd]. intros [Hh|Ht]%elem_of_app.
    + apply list_elem_of_fmap in Hh as (nbr & [= -> ->] & [_ Hb]%list_elem_of_filter).
      exists l. split; [|done]. unfold nx.adj. simpl. by rewrite decide_True.
    + destruct (IH _ Hnd Ht) as (l' & Hl' & Hb). exists l'. split; [|done].
      unfold nx.adj in *. simpl. rewrite decide_False; [done|].
      intros ->. by apply Hn, (edges_from_node _ _ _ _ Ht).
Qed.

(** ** The loaders build graphs *)

Lemma linha_p_parts_wf linha G G' :
  nx.wf G → Loader.linha_p_parts linha G = Ret G' → nx.wf G'.
Proof.
  intros HG. unfold Loader.linha_p_parts.
  intros (t & _ & (n & _ & [= <-])%bind_Ret)%bind_Ret.
  by apply wf_add_nodes_from.
Qed.

Lemma linha_p_unpack_wf linha G G' :
  nx.wf G → Loader.linha_p_unpack linha G = Ret G' → nx.wf G'.
Proof.
  intros HG. unfold Loader.linha_p_unpack.
  destruct (Py.split linha) as [|? [|? [|n [|? [|]]]]]; try done.
  intros (n' & _ & [= <-])%bind_Ret. by apply wf_add_nodes_from.
Qed.

Lemma linha_e_Ret linha G G' :
  Loader.linha_e linha G = Ret G' →
  ∃ t u v u' v', Py.split linha = [t; u; v] ∧ Py.int u = Ret u' ∧ Py.int v = Ret v'
    ∧ G' = nx.add_edge u' v' G.
Proof.
  unfold Loader.linha_e.
  destruct (Py.split linha) as [|t [|u [|v [|]]]]; try done.
  intros (u' & Hu & (v' & Hv & [= <-])%bind_Ret)%bind_Ret.
  by exists t, u, v, u', v'.
Qed.

Lemma processar_linha_wf linha_p :
  (∀ l G G', nx.wf G → linha_p l G = Ret G' → nx.wf G') →
  ∀ linha G G', nx.wf G → Loader.processar_linha linha_p G linha = Ret G' → nx.wf G'.
Proof.
  intros Hp linha G G' HG. unfold Loader.processar_linha.
  repeat case_match; try (by intros [= <-]).
  - by apply Hp.
  - intros (t & u & v & u' & v' & _ & _ & _ & ->)%linha_e_Ret.
    by apply wf_add_edge.
Qed.

Lemma carregar_wf linha_p :
  (∀ l G G', nx.wf G → linha_p l G = Ret G' → nx.wf G') →
  ∀ linhas G, Loader.carregar linha_p linhas = Ret G → nx.wf G.
Proof.
  intros Hp linhas. unfold Loader.carregar.
  generalize wf_empty. generalize nx.empty.
  induction linhas as [|l ls IH]; intros G0 HG0 G; simpl.
  - by intros [= <-].
  - intros (G1 & H1 & H2)%bind_Ret. eapply IH; [|done].
    by eapply processar_linha_wf.
Qed.

Lemma coloracao_carregar_wf linhas G : Coloracao.carregar_grafo linhas = Ret G → nx.wf G.
Proof. apply carregar_wf, linha_p_parts_wf. Qed.

Lemma dom_carregar_wf linhas G : Dom.carregar_grafo linhas = Ret G → nx.wf G.
Proof. apply carregar_wf, linha_p_parts_wf. Qed.

Lemma maxcut_carregar_wf linhas G : MaxCut.carregar_grafo linhas = Ret G → nx.wf G.
Proof. apply carregar_wf, linha_p_unpack_wf. Qed.

(** ** Max-cut: the two sets partition the vertices *)

Lemma ganho_Ret G v X : v ∈ nx.nodes G → ∃ n, MaxCut.ganho G v X = Ret n.
Proof.
  intros (l & _ & Hl)%neighbors_Ret. unfold MaxCut.ganho. rewrite Hl. simpl.
  rewrite (count_pure _ (λ u, bool_decide (u ∈ X))) by done. eauto.
Qed.

(** One turn of the loop puts the vertex in one of the two sets and touches
    nothing else. *)
Lemma colocar_Ret G A B v :
  v ∈ nx.nodes G →
  ∃ A' B', MaxCut.colocar G (A, B) v = Ret (A', B')
    ∧ ((A' = {[v]} ∪ A ∧ B' = B) ∨ (A' = A ∧ B' = {[v]} ∪ B)).
Proof.
  intros Hv. unfold MaxCut.colocar.
  destruct (ganho_Ret G v B Hv) as [gA ->], (ganho_Ret G v A Hv) as [gB ->].
  simpl. repeat case_match; eauto 10.
Qed.

Lemma colocar_todos G xs :
  ∀ A B, (∀ x, x ∈ xs → x ∈ nx.nodes G) →
  ∃ A' B', Py.for_each (MaxCut.colocar G) xs (A, B) = Ret (A', B')
    ∧ A ⊆ A' ∧ B ⊆ B' ∧ A' ∪ B' = A ∪ B ∪ list_to_set xs
    ∧ (NoDup xs → (∀ x, x ∈ xs → x ∉ A ∪ B) → A ∩ B = ∅ →
       A' ∩ B' = ∅ ∧ (size A' + size B' = size A + size B + length xs)%nat).
Proof.
  induction xs as [|x xs IH]; intros A B Hxs; cbn [Py.for_each].
  - exists A, B. split_and!; [done..| set_solver |]. intros _ _ HAB.
    split; [done | simpl; lia].
  - destruct (colocar_Ret G A B x) as (A1 & B1 & -> & Hcase); [apply Hxs; left|].
    simpl. destruct (IH A1 B1) as (A' & B' & -> & HA & HB & HU & Hdisj).
    { intros y Hy. apply Hxs. by right. }
    clear IH Hxs. exists A', B'. split; [done|].
    assert (A ⊆ A1 ∧ B ⊆ B1 ∧ A1 ∪ B1 = {[x]} ∪ (A ∪ B)) as (HA1 & HB1 & HU1).
    { clear Hdisj HU. destruct Hcase as [[-> ->]|[-> ->]]; set_solver. }
    split_and!.
    + by transitivity A1.
    + by transitivity B1.
    + rewrite HU, HU1. clear. set_solver.
    + intros [Hx Hnd]%NoDup_cons Hfresh HAB.
      assert (x ∉ A ∪ B) as HxAB by (apply Hfresh; left).
      assert (A1 ∩ B1 = ∅ ∧ (size A1 + size B1 = S (size A + size B))%nat)
        as [HAB1 Hsz].
      { clear Hdisj HU HA HB Hfresh.
        destruct Hcase as [[-> ->]|[-> ->]];
          (split; [set_solver|]);
          rewrite size_union, size_singleton by set_solver; lia. }
      destruct Hdisj as [Hd Hs]; [done | | done |].
      { intros y Hy. rewrite HU1. intros [->%elem_of_singleton|Hin]%elem_of_union.
        - done.
        - apply (Hfresh y); [by right | done]. }
      split; [done|]. simpl. lia.
Qed.

(** C9: the max-cut engine returns, for every graph, two disjoint sets whose
    union is the vertex set, with as many members together as there are
    vertices; and along the single pass in ascending order each vertex is put
    in one of the two sets at its turn and remains in it: after any part of
    the pass the two sets hold the vertices seen so far and are included in
    the sets returned. *)
Theorem maxcut_particao G :
  nx.wf G →
  ∃ A B, MaxCut.sahni_gonzalez_maxcut G = Ret (A, B)
    ∧ A ∩ B = ∅
    ∧ A ∪ B = list_to_set (nx.nodes G)
    ∧ (size A + size B = length (nx.nodes G))%nat
    ∧ ∀ feitos resto, Py.sorted (nx.nodes G) = feitos ++ resto →
        ∃ A' B', Py.for_each (MaxCut.colocar G) feitos (∅, ∅) = Ret (A', B')
          ∧ A' ∩ B' = ∅ ∧ A' ∪ B' = list_to_set feitos ∧ A' ⊆ A ∧ B' ⊆ B.
Proof.
  intros [Hnd _ _]. unfold MaxCut.sahni_gonzalez_maxcut.
  pose proof (sorted_NoDup _ Hnd) as Hsnd.
  assert (∀ x, x ∈ Py.sorted (nx.nodes G) → x ∈ nx.nodes G) as Hin
    by (intros x; by rewrite elem_of_sorted).
  destruct (colocar_todos G (Py.sorted (nx.nodes G)) ∅ ∅ Hin)
    as (A & B & HAB & _ & _ & HU & Hdisj).
  destruct Hdisj as [Hd Hs]; [done | set_solver | set_solver |].
  exists A, B. split_and!; [done | done | | |].
  - rewrite HU. rewrite (list_to_set_perm_L _ _ (sorted_Permutation _)). set_solver.
  - rewrite Hs, size_empty. simpl. by rewrite sorted_Permutation.
  - intros feitos resto Heq. rewrite Heq in HAB, Hsnd, Hin.
    rewrite for_each_app in HAB. apply bind_Ret in HAB as ([A' B'] & Hf & Hr).
    exists A', B'. split; [done|].
    destruct (colocar_todos G feitos ∅ ∅) as (A2 & B2 & Hf2 & _ & _ & HU2 & Hdisj2).
    { intros x Hx. apply Hin, elem_of_app. by left. }
    rewrite Hf in Hf2. injection Hf2 as <- <-.
    destruct Hdisj2 as [Hd2 _]; [by apply NoDup_app in Hsnd as [? _] | set_solver | set_solver |].
    destruct (colocar_todos G resto A' B') as (A3 & B3 & Hr3 & HA3 & HB3 & _).
    { intros x Hx. apply Hin, elem_of_app. by right. }
    rewrite Hr in Hr3. injection Hr3 as <- <-.
    split_and!; [done | set_solver | done | done].
Qed.

Lemma maxcut_particao_witness :
  nx.wf g4
  ∧ ∃ A B, MaxCut.sahni_gonzalez_maxcut g4 = Ret (A, B)
      ∧ A ∩ B = ∅ ∧ A ∪ B = list_to_set (nx.nodes g4).
Proof.
  assert (nx.wf g4) as Hwf by (apply (maxcut_carregar_wf c4); reflexivity).
  split; [exact Hwf|].
  destruct (maxcut_particao g4 Hwf) as (A & B & HAB & Hd & Hu & _).
  by exists A, B.
Defined.

(** ** The stable descending sort *)

Lemma insert_desc_Permutation {A} (x : Z * A) l : Py.insert_desc x l ≡ₚ x :: l.
Proof.
  induction l as [|y l IH]; simpl; [done|].
  case_match; [|done]. rewrite IH. apply Permutation_swap.
Qed.

Lemma sorted_desc_Permutation {A} (l : list (Z * A)) : Py.sorted_desc l ≡ₚ l.
Proof.
  induction l as [|x l IH]; simpl; [done|].
  by rewrite insert_desc_Permutation, IH.
Qed.

Lemma insert_desc_Sorted {A} (x : Z * A) l :
  StronglySorted (λ a b, b.1 ≤ a.1) l →
  StronglySorted (λ a b, b.1 ≤ a.1) (Py.insert_desc x l).
Proof.
  induction 1 as [|y l Hl IH Hy]; simpl.
  - repeat constructor.
  - destruct (x.1 <? y.1) eqn:Hxy.
    + constructor; [done|]. rewrite insert_desc_Permutation.
      constructor; [lia | done].
    + constructor; [by constructor|]. constructor; [lia|].
      eapply Forall_impl; [done|]. simpl. intros z Hz. lia.
Qed.

Lemma sorted_desc_Sorted {A} (l : list (Z * A)) :
  StronglySorted (λ a b, b.1 ≤ a.1) (Py.sorted_desc l).
Proof.
  induction l as [|x l IH]; simpl; [constructor | by apply insert_desc_Sorted].
Qed.

(** Stability: the elements of one key are in the order they had. *)
Lemma insert_desc_stable {A} (x : Z * A) l k :
  filter (λ p, p.1 = k) (Py.insert_desc x l) = filter (λ p, p.1 = k) (x :: l).
Proof.
  induction l as [|y l IH]; simpl; [done|].
  destruct (x.1 <? y.1) eqn:Hxy; [|done].
  rewrite (filter_cons _ y), IH, !(filter_cons _ x), (filter_cons _ y).
  repeat case_decide; try done. lia.
Qed.

Lemma sorted_desc_stable {A} (l : list (Z * A)) k :
  filter (λ p, p.1 = k) (Py.sorted_desc l) = filter (λ p, p.1 = k) l.
Proof.
  induction l as [|x l IH]; simpl; [done|].
  by rewrite insert_desc_stable, !filter_cons, IH.
Qed.

(** ** The order of the coloring engine *)

Lemma degree_Ret G v : v ∈ nx.nodes G → nx.degree G v = Ret (grau G v).
Proof.
  intros [l Hl]%adj_is_Some. unfold nx.degree, grau. by rewrite Hl.
Qed.

Lemma vertices_ordenados_Ret G :
  Coloracao.vertices_ordenados G
  = Ret (Py.sorted_desc (com_grau G <$> nx.nodes G)).*2.
Proof.
  unfold Coloracao.vertices_ordenados.
  rewrite (comprehension_pure _ (com_grau G)); [done|].
  intros v Hv. by rewrite degree_Ret.
Qed.

Lemma ordenados_Permutation G :
  (Py.sorted_desc (com_grau G <$> nx.nodes G)).*2 ≡ₚ nx.nodes G.
Proof.
  rewrite sorted_desc_Permutation, <- list_fmap_compose.
  by rewrite list_fmap_id.
Qed.

Lemma StronglySorted_pairs {A} (R : relation A) l :
  StronglySorted R l ↔ ∀ l1 x l2 y, l = l1 ++ x :: l2 → y ∈ l2 → R x y.
Proof.
  split.
  - intros Hl l1 x l2 y -> Hy.
    apply StronglySorted_app_1_r, StronglySorted_inv in Hl as [_ Hx].
    by eapply Forall_forall in Hx.
  - induction l as [|x l IH]; intros H; constructor.
    + apply IH. intros l1 a l2 b -> Hb. by apply (H (x :: l1) a l2 b).
    + apply Forall_forall. intros y Hy. by apply (H [] x l y).
Qed.

Lemma StronglySorted_filter {A} (R : relation A) (P : A → Prop)
    `{!∀ x, Decision (P x)} l :
  StronglySorted R l → StronglySorted R (filter P l).
Proof.
  induction 1 as [|x l Hl IH Hx]; [constructor|].
  rewrite filter_cons. case_decide; [|done]. constructor; [done|].
  apply Forall_forall. intros y [_ Hy]%list_elem_of_filter.
  by eapply Forall_forall in Hx.
Qed.

Lemma StronglySorted_and {A} (R : relation A) (P : A → Prop) l :
  StronglySorted R l → Forall P l →
  StronglySorted (λ a b, R a b ∧ P a ∧ P b) l.
Proof.
  induction 1 as [|x l Hl IH Hx]; intros HP; [constructor|].
  apply Forall_cons in HP as [Px HP]. constructor; [auto|].
  apply Forall_forall. intros y Hy. split_and!; [|done|].
  - by eapply Forall_forall in Hx.
  - by eapply Forall_forall in HP.
Qed.

Lemma filter_keyed G l d :
  Forall (λ p, p.1 = grau G p.2) l →
  filter (λ v, grau G v = d) l.*2 = (filter (λ p : Z * Z, p.1 = d) l).*2.
Proof.
  induction 1 as [|[k v] l Hk Hl IH]; [done|]. simpl in Hk. subst k.
  rewrite fmap_cons, !filter_cons. simpl. rewrite IH. by case_decide.
Qed.

Lemma keyed_com_grau G : Forall (λ p, p.1 = grau G p.2) (com_grau G <$> nx.nodes G).
Proof. apply Forall_fmap, Forall_forall. done. Qed.

Lemma sorted_keyed_com_grau G :
  Forall (λ p, p.1 = grau G p.2) (Py.sorted_desc (com_grau G <$> nx.nodes G)).
Proof. rewrite sorted_desc_Permutation. apply keyed_com_grau. Qed.

Lemma ordenados_desc G :
  StronglySorted (λ u v, grau G v ≤ grau G u)
    (Py.sorted_desc (com_grau G <$> nx.nodes G)).*2.
Proof.
  apply (StronglySorted_fmap snd
           (λ a b : Z * Z, b.1 ≤ a.1 ∧ a.1 = grau G a.2 ∧ b.1 = grau G b.2)).
  - intros [k u] [k' v] (Hle & Hu & Hv). simpl in *. lia.
  - apply (StronglySorted_and (λ a b : Z * Z, b.1 ≤ a.1) (λ p, p.1 = grau G p.2)).
    + apply sorted_desc_Sorted.
    + apply sorted_keyed_com_grau.
Qed.

Lemma ordenados_estavel G d :
  filter (λ v, grau G v = d) (Py.sorted_desc (com_grau G <$> nx.nodes G)).*2
  = filter (λ v, grau G v = d) (nx.nodes G).
Proof.
  rewrite filter_keyed by apply sorted_keyed_com_grau.
  rewrite sorted_desc_stable, <- (filter_keyed G) by apply keyed_com_grau.
  by rewrite <- list_fmap_compose, list_fmap_id.
Qed.

(** C6, as the code has it: the vertex order of the coloring engine is a
    rearrangement of the nodes by descending degree in which the vertices of
    one degree stay in the order in which [G.nodes()] enumerates them; that
    is ascending vertex id whenever the nodes are enumerated in ascending
    order.  The engine being a function of the graph, two runs on one graph
    return the same colouring. *)
Theorem vertices_ordenados_estavel G :
  ∃ ord, Coloracao.vertices_ordenados G = Ret ord
    ∧ ord ≡ₚ nx.nodes G
    ∧ StronglySorted (λ u v, grau G v ≤ grau G u) ord
    ∧ (∀ d, filter (λ v, grau G v = d) ord = filter (λ v, grau G v = d) (nx.nodes G))
    ∧ (StronglySorted Z.lt (nx.nodes G) →
       StronglySorted (λ u v, grau G v < grau G u ∨ (grau G v = grau G u ∧ u < v)) ord)
    ∧ (∀ cor1 cor2, Coloracao.welsh_powell G = Ret cor1 →
         Coloracao.welsh_powell G = Ret cor2 → cor1 = cor2).
Proof.
  eexists. split; [apply vertices_ordenados_Ret|].
  set (ord := (Py.sorted_desc (com_grau G <$> nx.nodes G)).*2).
  pose proof (ordenados_desc G) as Hdesc. pose proof (ordenados_estavel G) as Hst.
  fold ord in Hdesc, Hst.
  split_and!; [apply ordenados_Permutation | done | done | | congruence].
  intros Hasc. apply StronglySorted_pairs. intros l1 u l2 v Hord Hv.
  pose proof (proj1 (StronglySorted_pairs _ _) Hdesc l1 u l2 v Hord Hv) as Hle.
  simpl in Hle. destruct (decide (grau G v = grau G u)) as [Heq|Hne]; [|lia].
  right. split; [done|].
  pose proof (StronglySorted_filter Z.lt (λ w, grau G w = grau G u) _ Hasc) as Hf.
  rewrite <- Hst, Hord, filter_app, filter_cons, decide_True in Hf by done.
  apply (proj1 (StronglySorted_pairs _ _) Hf _ u _ v eq_refl).
  by apply list_elem_of_filter.
Qed.

Lemma vertices_ordenados_estavel_witness :
  StronglySorted Z.lt (nx.nodes g4)
  ∧ ∃ ord, Coloracao.vertices_ordenados g4 = Ret ord
      ∧ StronglySorted
          (λ u v, grau g4 v < grau g4 u ∨ (grau g4 v = grau g4 u ∧ u < v)) ord.
Proof.
  assert (StronglySorted Z.lt (nx.nodes g4)) as Hasc
    by (repeat constructor; lia).
  split; [exact Hasc|].
  destruct (vertices_ordenados_estavel g4) as (ord & Hord & _ & _ & _ & H & _).
  exists ord. split; [exact Hord | exact (H Hasc)].
Defined.

(** Two vertices of degree 1 named by an edge beyond the declared range: the
    one of higher id comes first. *)
Lemma ordem_de_insercao :
  Coloracao.carregar_grafo fora_de_ordem = Ret [(1, []); (2, []); (4, [3]); (3, [4])]
  ∧ Coloracao.vertices_ordenados [(1, []); (2, []); (4, [3]); (3, [4])]
    = Ret [4; 3; 1; 2]
  ∧ grau [(1, []); (2, []); (4, [3]); (3, [4])] 4
    = grau [(1, []); (2, []); (4, [3]); (3, [4])] 3.
Proof. split_and!; reflexivity. Qed.

(** ** Welsh–Powell: the colouring is proper *)

Lemma cor_inicial_lookup G v :
  Coloracao.cor_inicial G !! v = if decide (v ∈ nx.nodes G) then Some 0 else None.
Proof.
  unfold Coloracao.cor_inicial.
  assert (∀ l (m : gmap Z Z),
    foldl (λ cor v, <[v := 0]> cor) m l !! v
    = if decide (v ∈ l) then Some 0 else m !! v) as H.
  { induction l as [|x l IH]; intros m; simpl.
    - done.
    - rewrite IH. destruct (decide (v ∈ l)) as [Hv|Hv].
      + by rewrite decide_True by (by right).
      + rewrite lookup_insert. destruct (decide (x = v)) as [->|Hx].
        * by rewrite decide_True by left.
        * rewrite decide_False; [done|]. by intros [->|?]%elem_of_cons. }
  rewrite H. by case_decide.
Qed.

Lemma wp_inv_inicial G : wp_inv G 1 (Coloracao.cor_inicial G).
Proof.
  split.
  - intros v. rewrite cor_inicial_lookup. case_decide; [done|].
    split; [by intros [? [=]] | done].
  - intros v x. rewrite cor_inicial_lookup. case_decide; [|done].
    intros [= <-]. lia.
  - intros u v x _ _. rewrite cor_inicial_lookup. case_decide; congruence.
Qed.

(** The conflict test of a vertex of the graph does not fail. *)
Lemma conflito_Ret G c cor v :
  nx.wf G → (∀ w, is_Some (cor !! w) ↔ w ∈ nx.nodes G) → v ∈ nx.nodes G →
  ∃ l, nx.adj G v = Some l
    ∧ Coloracao.tentar G c cor v
      = Ret (if existsb (tem_cor cor c) l then cor else <[v := c]> cor).
Proof.
  intros HG Hd (l & Hl & Hn)%neighbors_Ret. exists l. split; [done|].
  unfold Coloracao.tentar. rewrite Hn. simpl.
  rewrite (any_pure _ (tem_cor cor c)); [done|].
  intros u Hu. unfold Coloracao.cor_de, tem_cor.
  assert (u ∈ nx.nodes G) as [x ->]%Hd; [|done].
  eapply adjacent_nodes, (nx.wf_sym G HG). by exists l.
Qed.

(** Giving [v] the colour [c] when no neighbour has it keeps the
    invariant. *)
Lemma wp_inv_insert G c cor v l :
  nx.wf G → 0 < c → wp_inv G (c + 1) cor → v ∈ nx.nodes G →
  nx.adj G v = Some l → existsb (tem_cor cor c) l = false →
  wp_inv G (c + 1) (<[v := c]> cor).
Proof.
  intros HG Hc [Hd Hr Hp] Hv Hl Hfree.
  assert (∀ u, nx.adjacent G v u → cor !! u ≠ Some c) as Hnb.
  { intros u (l' & Hl' & Hu) Hcu. rewrite Hl in Hl'. injection Hl' as <-.
    apply not_true_iff_false in Hfree. apply Hfree, existsb_exists.
    exists u. split; [by apply list_elem_of_In|].
    unfold tem_cor. rewrite Hcu. apply Z.eqb_refl. }
  split.
  - intros w. rewrite lookup_insert. case_decide; subst; [|apply Hd].
    split; [done|eauto].
  - intros w x. rewrite lookup_insert. case_decide; subst; [|apply Hr].
    intros [= <-]. lia.
  - intros a b x Hab Hne. rewrite !lookup_insert.
    repeat case_decide; subst; try done.
    + intros [= <-] Hb. by destruct (Hnb b).
    + intros Ha [= <-]. destruct (Hnb a); [|done]. by apply (nx.wf_sym G HG).
    + by apply Hp.
Qed.

(** One attempt keeps the invariant, and uncolours nothing. *)
Lemma tentar_inv G c cor v :
  nx.wf G → 0 < c → wp_inv G (c + 1) cor → v ∈ nx.nodes G →
  ∃ cor', Coloracao.tentar G c cor v = Ret cor' ∧ wp_inv G (c + 1) cor'
    ∧ ∀ w, cor' !! w = Some 0 → cor !! w = Some 0.
Proof.
  intros HG Hc Hinv Hv.
  destruct (conflito_Ret G c cor v HG (wp_dom _ _ _ Hinv) Hv) as (l & Hl & ->).
  destruct (existsb (tem_cor cor c) l) eqn:Hfree.
  - exists cor. done.
  - exists (<[v := c]> cor). split_and!; [done | by eapply wp_inv_insert |].
    intros w. rewrite lookup_insert. case_decide; [|done]. intros [= ?]. lia.
Qed.

Lemma tentar_todos G c vs :
  nx.wf G → 0 < c → (∀ v, v ∈ vs → v ∈ nx.nodes G) →
  ∀ cor, wp_inv G (c + 1) cor →
  ∃ cor', Py.for_each (Coloracao.tentar G c) vs cor = Ret cor'
    ∧ wp_inv G (c + 1) cor'
    ∧ ∀ w, cor' !! w = Some 0 → cor !! w = Some 0.
Proof.
  intros HG Hc. induction vs as [|v vs IH]; intros Hvs cor Hinv; simpl.
  - eauto.
  - destruct (tentar_inv G c cor v) as (cor1 & -> & Hinv1 & Hmono1);
      [done | done | done | apply Hvs; left |].
    simpl. destruct (IH (λ w Hw, Hvs w (list_elem_of_further _ _ _ Hw)) cor1 Hinv1)
      as (cor' & -> & Hinv' & Hmono').
    exists cor'. split_and!; [done..|]. intros w Hw. by apply Hmono1, Hmono'.
Qed.

(** The first uncoloured vertex takes the fresh colour. *)
Lemma wp_inv_primeiro G c cor v0 :
  wp_inv G c cor → v0 ∈ nx.nodes G → 0 < c →
  wp_inv G (c + 1) (<[v0 := c]> cor).
Proof.
  intros [Hd Hr Hp] Hv Hc. split.
  - intros w. rewrite lookup_insert. case_decide; subst; [|apply Hd].
    split; [done|eauto].
  - intros w x. rewrite lookup_insert. case_decide; subst.
    + intros [= <-]. lia.
    + intros Hw. specialize (Hr w x Hw). lia.
  - intros a b x Hab Hne. rewrite !lookup_insert.
    repeat case_decide; subst; try done.
    + intros [= <-] Hb. specialize (Hr b c Hb). lia.
    + intros Ha [= <-]. specialize (Hr a c Ha). lia.
    + by apply Hp.
Qed.

Lemma nao_coloridos_Ret G c cor ord :
  wp_inv G c cor → (∀ v, v ∈ ord → v ∈ nx.nodes G) →
  Py.select (λ v, c ← Coloracao.cor_de cor v; Ret (c =? 0)) ord
  = Ret (filter (λ v, tem_cor cor 0 v = true) ord).
Proof.
  intros [Hd _ _] Hord. apply select_pure. intros v Hv.
  unfold Coloracao.cor_de, tem_cor.
  by destruct (proj2 (Hd v) (Hord v Hv)) as [x ->].
Qed.

Lemma filter_length_shrink {A} (P Q : A → Prop)
    `{!∀ x, Decision (P x)} `{!∀ x, Decision (Q x)} l x :
  (∀ y, Q y → P y ∧ y ≠ x) → x ∈ l → P x →
  (length (filter Q l) < length (filter P l))%nat.
Proof.
  intros Hsub Hx HP.
  assert (∀ l', length (filter Q l') ≤ length (filter P l'))%nat as Hle.
  { induction l' as [|z l' IH]; [done|]. rewrite !filter_cons.
    destruct (decide (Q z)) as [Hz|Hz].
    - destruct (Hsub z Hz) as [Hz' _]. rewrite decide_True by done. simpl. lia.
    - case_decide; simpl; lia. }
  induction l as [|y l IH]; [by apply elem_of_nil in Hx|].
  rewrite !filter_cons. destruct (decide (Q y)) as [Hy|Hy].
  - destruct (Hsub y Hy) as [Hy' Hne]. rewrite decide_True by done. simpl.
    apply -> Nat.succ_lt_mono. apply IH.
    by apply elem_of_cons in Hx as [->|?].
  - apply elem_of_cons in Hx as [<-|Hx].
    + rewrite decide_True by done. simpl. apply Nat.lt_succ_r, Hle.
    + specialize (IH Hx). case_decide; simpl; lia.
Qed.

(** The loop returns when its fuel exceeds the number of uncoloured
    vertices, with every vertex coloured. *)
Lemma passes_Ret G ord :
  nx.wf G → (∀ v, v ∈ ord → v ∈ nx.nodes G) →
  ∀ fuel c cor,
    0 < c → wp_inv G c cor →
    (length (filter (λ v, tem_cor cor 0 v = true) ord) < fuel)%nat →
    ∃ cor' c', Coloracao.passes fuel G ord c cor = Ret cor' ∧ wp_inv G c' cor'
      ∧ ∀ v, v ∈ ord → cor' !! v ≠ Some 0.
Proof.
  intros HG Hord. induction fuel as [|fuel IH]; intros c cor Hc Hinv Hm; [lia|].
  cbn [Coloracao.passes]. rewrite (nao_coloridos_Ret G c) by done. simpl.
  destruct (filter _ ord) as [|v0 resto] eqn:Hf.
  - exists cor, c. split_and!; [done..|]. intros v Hv H0.
    assert (v ∈ filter (λ v, tem_cor cor 0 v = true) ord) as Hin.
    { apply list_elem_of_filter. split; [|done]. unfold tem_cor. by rewrite H0. }
    rewrite Hf in Hin. by apply elem_of_nil in Hin.
  - assert (v0 ∈ ord ∧ tem_cor cor 0 v0 = true) as [Hv0 Hz0].
    { apply and_comm, (list_elem_of_filter (λ v, tem_cor cor 0 v = true)).
      rewrite Hf. left. }
    assert (∀ v, v ∈ resto → v ∈ nx.nodes G) as Hresto.
    { intros v Hv. apply Hord.
      eapply (list_elem_of_filter (λ v, tem_cor cor 0 v = true)).
      rewrite Hf. by right. }
    destruct (tentar_todos G c resto HG Hc Hresto (<[v0 := c]> cor))
      as (cor1 & -> & Hinv1 & Hmono); [apply wp_inv_primeiro; auto|].
    simpl. apply IH; [lia | done |].
    eapply Nat.lt_le_trans; [|apply PeanoNat.lt_n_Sm_le, Hm].
    assert (∀ w, tem_cor cor1 0 w = true → tem_cor cor 0 w = true ∧ w ≠ v0) as Hsub.
    { intros w Hw. unfold tem_cor in Hw.
      destruct (cor1 !! w) as [x|] eqn:Hx; [|done].
      apply Z.eqb_eq in Hw as ->. apply Hmono in Hx.
      rewrite lookup_insert in Hx. case_decide; subst.
      - injection Hx as ?. lia.
      - unfold tem_cor. by rewrite Hx. }
    rewrite <- Hf. by apply (filter_length_shrink _ _ _ v0).
Qed.

(** The engine returns, with the invariant kept and no vertex left at 0. *)
Lemma welsh_powell_inv G :
  nx.wf G →
  ∃ cor c, Coloracao.welsh_powell G = Ret cor ∧ wp_inv G c cor
    ∧ ∀ v, v ∈ nx.nodes G → cor !! v ≠ Some 0.
Proof.
  intros HG. unfold Coloracao.welsh_powell. rewrite vertices_ordenados_Ret.
  cbn [mbind res_bind].
  set (ord := (Py.sorted_desc (com_grau G <$> nx.nodes G)).*2).
  assert (∀ v, v ∈ ord ↔ v ∈ nx.nodes G) as Hord
    by (intros v; unfold ord; by rewrite ordenados_Permutation).
  destruct (passes_Ret G ord HG (λ v, proj1 (Hord v)) (S (length (nx.nodes G))) 1
              (Coloracao.cor_inicial G)) as (cor & c & -> & Hinv & Hpos).
  { lia. }
  { apply wp_inv_inicial. }
  { apply Nat.lt_succ_r. etrans; [apply length_filter|].
    unfold ord. by rewrite ordenados_Permutation. }
  exists cor, c. split_and!; [done..|]. intros v Hv. by apply Hpos, Hord.
Qed.

(** C1, as the code has it: for every graph the Welsh–Powell engine returns
    a colouring in which every vertex has a positive colour and the two ends
    of every edge between distinct vertices have different colours. *)
Theorem welsh_powell_propria G :
  nx.wf G →
  ∃ cor, Coloracao.welsh_powell G = Ret cor ∧ coloracao_propria G cor
    ∧ ∀ u v, (u, v) ∈ nx.edges G → u ≠ v → cor !! u ≠ cor !! v.
Proof.
  intros HG. destruct (welsh_powell_inv G HG) as (cor & c & Hcor & [Hd Hr Hp] & Hpos).
  exists cor. split; [done|].
  cut (coloracao_propria G cor).
  { intros Hprop. split; [done|]. intros u v Huv.
    by apply Hprop, edges_adjacent; [apply HG|]. }
  split_and!.
  - intros v Hv. destruct (proj2 (Hd v) Hv) as [x Hx]. exists x. split; [done|].
    assert (x ≠ 0) by (intros ->; by apply (Hpos v)).
    specialize (Hr v x Hx). lia.
  - intros v. apply Hd.
  - intros u v Hadj Hne Heq.
    assert (u ∈ nx.nodes G) as Hu by by eapply adjacent_nodes.
    destruct (proj2 (Hd u) Hu) as [x Hx].
    assert (x = 0) as -> by (apply (Hp u v); [done..| by rewrite <- Heq]).
    by apply (Hpos u).
Qed.

Lemma welsh_powell_propria_witness :
  nx.wf g4
  ∧ ∃ cor, Coloracao.welsh_powell g4 = Ret cor ∧ coloracao_propria g4 cor
      ∧ ∀ u v, (u, v) ∈ nx.edges g4 → u ≠ v → cor !! u ≠ cor !! v.
Proof.
  assert (nx.wf g4) as Hwf by (apply (coloracao_carregar_wf c4); reflexivity).
  split; [exact Hwf | exact (welsh_powell_propria g4 Hwf)].
Defined.

(** A file with a self-loop: the edge from 1 to 1 is an edge of the graph
    loaded, and its two ends have one colour. *)
Lemma welsh_powell_laco :
  Coloracao.carregar_grafo laco_1 = Ret [(1, [1])]
  ∧ (1, 1) ∈ nx.edges [(1, [1])]
  ∧ ∃ cor, Coloracao.welsh_powell [(1, [1])] = Ret cor
      ∧ ¬ (∀ u v, (u, v) ∈ nx.edges [(1, [1])] → cor !! u ≠ cor !! v).
Proof.
  split; [reflexivity|]. split; [vm_compute; left|].
  eexists. split; [vm_compute; reflexivity|].
  intros H. by apply (H 1 1); [vm_compute; left|].
Qed.

(** ** Dominating set: the set returned covers the graph *)

Lemma dominado_inicial_lookup G v :
  Dom.dominado_inicial G !! v = if decide (v ∈ nx.nodes G) then Some false else None.
Proof.
  unfold Dom.dominado_inicial.
  assert (∀ l (m : gmap Z bool),
    foldl (λ d v, <[v := false]> d) m l !! v
    = if decide (v ∈ l) then Some false else m !! v) as H.
  { induction l as [|x l IH]; intros m; simpl; [done|].
    rewrite IH. destruct (decide (v ∈ l)) as [Hv|Hv].
    - by rewrite decide_True by (by right).
    - rewrite lookup_insert. destruct (decide (x = v)) as [->|Hx].
      + by rewrite decide_True by left.
      + rewrite decide_False; [done|]. by intros [->|?]%elem_of_cons. }
  rewrite H. by case_decide.
Qed.

Lemma marcar_lookup dominado v nb w :
  Dom.marcar dominado v nb !! w
  = if decide (w = v ∨ w ∈ nb) then Some true else dominado !! w.
Proof.
  unfold Dom.marcar.
  assert (∀ l (m : gmap Z bool),
    foldl (λ d u, <[u := true]> d) m l !! w
    = if decide (w ∈ l) then Some true else m !! w) as H.
  { induction l as [|x l IH]; intros m; simpl; [done|].
    rewrite IH. destruct (decide (w ∈ l)) as [Hw|Hw].
    - by rewrite decide_True by (by right).
    - rewrite lookup_insert. destruct (decide (x = w)) as [->|Hx].
      + by rewrite decide_True by left.
      + rewrite decide_False; [done|]. by intros [->|?]%elem_of_cons. }
  rewrite H, lookup_insert.
  destruct (decide (w ∈ nb)), (decide (v = w)); subst;
    repeat case_decide; naive_solver.
Qed.

Lemma coberto_mono G (S S' : gset Z) v : S ⊆ S' → coberto G S v → coberto G S' v.
Proof. intros HS [Hv|(u & Hu & Huv)]; [left | right; exists u]; set_solver. Qed.

Lemma dom_inv_inicial G :
  dom_inv G (list_to_set (nx.nodes G)) ∅ (Dom.dominado_inicial G).
Proof.
  split.
  - intros v. rewrite dominado_inicial_lookup. case_decide; [done|].
    split; [by intros [? [=]] | done].
  - intros v. by rewrite elem_of_list_to_set.
  - intros v ?%not_elem_of_empty. done.
  - intros v. rewrite dominado_inicial_lookup. by case_decide.
  - intros v Hv. by rewrite elem_of_list_to_set.
Qed.

Section DomLoop.

Context (G : nx.Graph) (HG : nx.wf G).
Context (C S : gset Z) (dominado : gmap Z bool).
Context (Hinv : dom_inv G C S dominado).

Lemma vizinho_no v l u : nx.adj G v = Some l → u ∈ l → u ∈ nx.nodes G.
Proof.
  intros Hl Hu. eapply adjacent_nodes, (nx.wf_sym G HG). by exists l.
Qed.

Lemma nao_dominado_Ret u :
  u ∈ nx.nodes G →
  Dom.nao_dominado dominado u = Ret (negb (default false (dominado !! u))).
Proof.
  intros [d Hd]%(dom_keys _ _ _ _ Hinv). unfold Dom.nao_dominado. by rewrite Hd.
Qed.

(** The scan returns a candidate. *)
Lemma escolher_Ret :
  C ≠ ∅ → ∃ v q, Dom.escolher G dominado C = Ret (Some v, q) ∧ v ∈ C.
Proof.
  intros HC. unfold Dom.escolher.
  set (I := λ (feitos : list Z) (s : option Z * Z),
    (feitos = [] ∧ s = (None, -1)) ∨ (∃ v, s.1 = Some v ∧ v ∈ feitos ∧ 0 ≤ s.2)).
  edestruct (for_each_inv I (Dom.avaliar G dominado) (Py.sorted (elements C))
               [] (None, -1)) as ([mv mq] & Hret & HI); last first.
  - rewrite Hret. simpl in HI. destruct HI as [[Hnil _]|(v & Hv & Hin & _)].
    + destruct HC. apply (f_equal length) in Hnil.
      rewrite sorted_Permutation in Hnil. apply nil_length_inv in Hnil.
      by apply elements_empty_inv, leibniz_equiv in Hnil.
    + simpl in Hv. subst mv. exists v, mq. split; [done|].
      by apply elem_of_sorted, elem_of_elements in Hin.
  - intros feitos x resto [mv mq] Heq HI. simpl in Heq.
    assert (x ∈ nx.nodes G) as Hx.
    { apply (dom_cand _ _ _ _ Hinv), elem_of_elements, elem_of_sorted.
      rewrite Heq. apply elem_of_app. right. left. }
    unfold Dom.avaliar. destruct (neighbors_Ret G x Hx) as (l & Hl & ->). simpl.
    rewrite (count_pure _ (λ u, negb (default false (dominado !! u))));
      [|intros u Hu; apply nao_dominado_Ret; by eapply vizinho_no].
    simpl. eexists. split; [done|]. right.
    set (n := length _). destruct (mq <? Z.of_nat n) eqn:Hlt; simpl.
    + exists x. split_and!; [done | apply elem_of_app; right; left | lia].
    + destruct HI as [[_ [= _ ->]]|(v & Hv & Hin & Hq)]; [lia|].
      exists v. split_and!; [done | apply elem_of_app; by left | done].
  - by left.
Qed.

End DomLoop.

(** A turn of the loop: the state after it satisfies the invariant again,
    with one candidate less. *)
Lemma dom_inv_passo G C S dominado v l :
  nx.wf G → dom_inv G C S dominado → v ∈ C → nx.adj G v = Some l →
  dom_inv G (C ∖ {[v]}) ({[v]} ∪ S) (Dom.marcar dominado v l)
  ∧ (dominado !! v = Some true → dom_inv G (C ∖ {[v]}) S dominado).
Proof.
  intros HG [Hk Hc Hs Hf Hseen] Hv Hl.
  assert (v ∈ nx.nodes G) as Hvn by auto.
  split; split.
  - intros w. rewrite marcar_lookup. case_decide as Hw; [|apply Hk].
    split; [intros _|eauto]. destruct Hw as [->|Hw]; [done|].
    eapply vizinho_no; eauto.
  - intros w [Hw _]%elem_of_difference. auto.
  - intros w [->%elem_of_singleton|Hw]%elem_of_union; auto.
  - intros w. rewrite marcar_lookup. case_decide as Hw.
    + intros _. destruct Hw as [->|Hw].
      * left. set_solver.
      * right. exists v. split; [set_solver|]. by exists l.
    + intros Hd. eapply coberto_mono; [|by apply Hf]. set_solver.
  - intros w Hw Hnc. destruct (decide (w = v)) as [->|Hne].
    + left. set_solver.
    + eapply coberto_mono; [|apply Hseen; [done|]]; set_solver.
  - done.
  - intros w [Hw _]%elem_of_difference. auto.
  - done.
  - done.
  - intros w Hw Hnc. destruct (decide (w = v)) as [->|Hne].
    + by apply Hf.
    + apply Hseen; [done|]. set_solver.
Qed.

Lemma laco_Ret G :
  nx.wf G →
  ∀ fuel C S dominado,
    dom_inv G C S dominado → (size C ≤ fuel)%nat →
    ∃ S', Dom.laco fuel G C S dominado = Ret S'
      ∧ (∀ v, v ∈ nx.nodes G → coberto G S' v)
      ∧ (∀ v, v ∈ S' → v ∈ nx.nodes G).
Proof.
  intros HG. induction fuel as [|fuel IH]; intros C S dominado Hinv Hsz.
  - apply Nat.le_0_r, size_empty_inv, leibniz_equiv in Hsz. subst C.
    simpl. exists S. split_and!; [done | | apply Hinv].
    intros v Hv. apply (dom_seen _ _ _ _ Hinv); [done|]. apply not_elem_of_empty.
  - cbn [Dom.laco]. destruct (decide (C = ∅)) as [->|HC].
    { exists S. split_and!; [done | | apply Hinv].
      intros v Hv. apply (dom_seen _ _ _ _ Hinv); [done|]. apply not_elem_of_empty. }
    destruct (escolher_Ret G HG C S dominado Hinv HC) as (v & q & -> & Hv).
    cbn [mbind res_bind of_option].
    assert (v ∈ nx.nodes G) as Hvn by by apply (dom_cand _ _ _ _ Hinv).
    destruct (neighbors_Ret G v Hvn) as (l & Hl & Hnb).
    rewrite (nao_dominado_Ret G C S dominado Hinv v Hvn). cbn [mbind res_bind].
    assert (size (C ∖ {[v]}) ≤ fuel)%nat as Hsz'.
    { assert (size C = Datatypes.S (size (C ∖ {[v]}))) as Hs; [|lia].
      rewrite (union_difference_L {[v]} C) at 1 by set_solver.
      rewrite size_union, size_singleton by set_solver. done. }
    destruct (dom_inv_passo G C S dominado v l HG Hinv Hv Hl) as [Hin Hout].
    destruct (dominado !! v) as [[]|] eqn:Hd; cbn [default from_option id negb].
    + rewrite Hnb. cbn [mbind res_bind].
      rewrite (any_pure _ (λ u, negb (default false (dominado !! u))));
        [|intros u Hu; eapply nao_dominado_Ret; eauto using vizinho_no].
      cbn [mbind res_bind]. destruct (existsb _ l); cbn [mbind res_bind].
      * by apply IH.
      * apply IH; auto.
    + rewrite Hnb. cbn [mbind res_bind]. by apply IH.
    + destruct (proj2 (dom_keys _ _ _ _ Hinv v) Hvn) as [? ?]. congruence.
Qed.

(** C5: for every graph the dominating-set engine returns a sequence of
    vertices of the graph, in ascending order and without repetition, such
    that every vertex is in it or adjacent to one of its members. *)
Theorem dominante_cobre G :
  nx.wf G →
  ∃ S, Dom.conjunto_dominante_aproximado G = Ret S
    ∧ (∀ v, v ∈ nx.nodes G → v ∈ S ∨ ∃ u, u ∈ S ∧ nx.adjacent G u v)
    ∧ StronglySorted Z.le S ∧ NoDup S
    ∧ (∀ u, u ∈ S → u ∈ nx.nodes G).
Proof.
  intros HG. unfold Dom.conjunto_dominante_aproximado.
  destruct (laco_Ret G HG (size (list_to_set (nx.nodes G) : gset Z))
              (list_to_set (nx.nodes G)) ∅ (Dom.dominado_inicial G))
    as (S & -> & Hcov & Hsub); [apply dom_inv_inicial | done |].
  cbn [mbind res_bind]. eexists. split; [done|]. split_and!.
  - intros v Hv. destruct (Hcov v Hv) as [Hin|(u & Hu & Huv)].
    + left. by apply elem_of_sorted, elem_of_elements.
    + right. exists u. split; [|done]. by apply elem_of_sorted, elem_of_elements.
  - apply sorted_Sorted.
  - apply sorted_NoDup, NoDup_elements.
  - intros u Hu%elem_of_sorted%elem_of_elements. auto.
Qed.

Lemma dominante_cobre_witness :
  nx.wf g4
  ∧ ∃ S, Dom.conjunto_dominante_aproximado g4 = Ret S
      ∧ (∀ v, v ∈ nx.nodes g4 → v ∈ S ∨ ∃ u, u ∈ S ∧ nx.adjacent g4 u v)
      ∧ StronglySorted Z.le S.
Proof.
  assert (nx.wf g4) as Hwf by (apply (dom_carregar_wf c4); reflexivity).
  split; [exact Hwf|].
  destruct (dominante_cobre g4 Hwf) as (S & HS & Hcov & Hsort & _).
  by exists S.
Defined.

(** ** Repeated edges and self-loops *)

Lemma add_node_id n G : n ∈ nx.nodes G → nx.add_node n G = G.
Proof. intros Hn. unfold nx.add_node. by rewrite decide_True. Qed.

Lemma link_id u v G : ligado u v G → nx.link u v G = G.
Proof.
  intros H. unfold nx.link. rewrite <- (list_fmap_id G) at 2.
  apply list_fmap_ext. intros i [k l] Hp%list_elem_of_lookup_2. simpl.
  case_decide as Hk; [|done]. unfold nx.set_key.
  by rewrite decide_True by apply (H _ Hp Hk).
Qed.

Lemma ligado_link u v G : ligado u v (nx.link u v G).
Proof.
  intros p ([k l] & -> & Hq)%list_elem_of_fmap. simpl.
  case_decide; simpl; [|done]. intros _. apply elem_of_set_key. by right.
Qed.

Lemma ligado_link_other a b u v G : ligado a b G → ligado a b (nx.link u v G).
Proof.
  intros H p ([k l] & -> & Hq)%list_elem_of_fmap. simpl.
  case_decide; simpl; intros Hk; [|by apply (H _ Hq)].
  apply elem_of_set_key. left. by apply (H _ Hq).
Qed.

Lemma add_edge_ligado u v G :
  ligado u v (nx.add_edge u v G) ∧ ligado v u (nx.add_edge u v G).
Proof.
  unfold nx.add_edge. split.
  - apply ligado_link_other, ligado_link.
  - apply ligado_link.
Qed.

Lemma add_edge_id u v G :
  u ∈ nx.nodes G → v ∈ nx.nodes G → ligado u v G → ligado v u G →
  nx.add_edge u v G = G.
Proof.
  intros Hu Hv Huv Hvu. unfold nx.add_edge.
  rewrite (add_node_id u), (add_node_id v), (link_id u v), (link_id v u); done.
Qed.

(** No pair of [G.edges()] has its second end among the nodes left behind. *)
Lemma edges_from_seen seen G a b : (a, b) ∈ nx.edges_from seen G → b ∉ seen.
Proof.
  revert seen. induction G as [|[n l] G IH]; intros seen; simpl.
  - by intros ?%elem_of_nil.
  - intros [Hh|Ht]%elem_of_app.
    + apply list_elem_of_fmap in Hh as (nbr & [= -> ->] & Hn).
      by apply list_elem_of_filter in Hn as [? _].
    + apply IH in Ht. set_solver.
Qed.

(** An edge is listed from one of its ends only. *)
Lemma edges_from_once seen G a b :
  (a, b) ∈ nx.edges_from seen G → a ≠ b → (b, a) ∉ nx.edges_from seen G.
Proof.
  revert seen. induction G as [|[n l] G IH]; intros seen; simpl.
  - by intros ?%elem_of_nil.
  - intros [Hh|Ht]%elem_of_app Hne [Hh'|Ht']%elem_of_app.
    + apply list_elem_of_fmap in Hh as (? & [= -> ->] & _).
      apply list_elem_of_fmap in Hh' as (? & [= -> ->] & _). done.
    + apply list_elem_of_fmap in Hh as (? & [= -> ->] & _).
      apply edges_from_seen in Ht'. set_solver.
    + apply list_elem_of_fmap in Hh' as (? & [= -> ->] & _).
      apply edges_from_seen in Ht. set_solver.
    + by apply (IH _ Ht).
Qed.

Lemma edges_from_NoDup seen G :
  NoDup (nx.nodes G) → Forall (λ p, NoDup p.2) G → NoDup (nx.edges_from seen G).
Proof.
  revert seen. induction G as [|[n l] G IH]; intros seen; simpl.
  - intros _ _. apply NoDup_nil_2.
  - intros [Hn Hnd]%NoDup_cons [Hl HG]%Forall_cons. simpl in Hl.
    apply NoDup_app. split_and!.
    + apply NoDup_fmap_2; [by intros ?? [=] | by apply NoDup_filter].
    + intros [a b] (? & [= -> ->] & _)%list_elem_of_fmap Ht.
      by apply edges_from_node in Ht.
    + by apply IH.
Qed.

Lemma get_elem_NoDup {V} (d : list (Z * V)) k v :
  NoDup d.*1 → (k, v) ∈ d → Py.get d k = Some v.
Proof.
  induction d as [|[k' v'] d IH]; simpl.
  - by intros _ ?%elem_of_nil.
  - intros [Hk Hnd]%NoDup_cons [[= -> ->]|Hin]%elem_of_cons.
    + by rewrite decide_True.
    + rewrite decide_False; [by apply IH|]. intros ->. apply Hk.
      apply list_elem_of_fmap. by exists (k, v).
Qed.

Lemma wf_nbrs_Forall G : nx.wf G → Forall (λ p, NoDup p.2) G.
Proof.
  intros [Hn Hl _]. apply Forall_forall. intros [k l] Hp. simpl.
  apply (Hl k). by apply get_elem_NoDup.
Qed.

Lemma startswith_e_not_cp s :
  Py.startswith s "e" = true →
  Py.startswith s "c" = false ∧ Py.startswith s "p" = false.
Proof.
  unfold Py.startswith. destruct s as [|c s]; [done|].
  destruct c as [[] [] [] [] [] [] [] []]; cbn; done.
Qed.

(** C3, as the code has it: an [e] line with two integers is accepted
    whatever they are, a self-loop and an edge already there included; adding
    an edge that is there, either way round, leaves the graph as it is; and
    the edge list the cut is counted on has no member twice and no edge from
    both its ends, so a repeated line is counted once. *)
Theorem aresta_repetida G linha_p linha t u v u' v' :
  nx.wf G →
  Py.startswith (Py.strip linha) "e" = true →
  Py.split (Py.strip linha) = [t; u; v] →
  Py.int u = Ret u' → Py.int v = Ret v' →
  let G' := nx.add_edge u' v' G in
  Loader.processar_linha linha_p G linha = Ret G'
  ∧ Loader.processar_linha linha_p G' linha = Ret G'
  ∧ nx.add_edge v' u' G' = G'
  ∧ NoDup (nx.edges G')
  ∧ (∀ a b, (a, b) ∈ nx.edges G' → a ≠ b → (b, a) ∉ nx.edges G')
  ∧ ∀ A B, MaxCut.tamanho_corte (nx.add_edge u' v' G') A B = MaxCut.tamanho_corte G' A B.
Proof.
  intros HG He Hsplit Hu Hv G'.
  assert (∀ G0, Loader.processar_linha linha_p G0 linha = Ret (nx.add_edge u' v' G0))
    as Hproc.
  { intros G0. unfold Loader.processar_linha.
    destruct (startswith_e_not_cp _ He) as [-> ->]. rewrite He.
    unfold Loader.linha_e. rewrite Hsplit, Hu, Hv. done. }
  destruct (add_edge_ligado u' v' G) as [Huv Hvu]. fold G' in Huv, Hvu.
  assert (u' ∈ nx.nodes G' ∧ v' ∈ nx.nodes G') as [Hun Hvn]
    by (unfold G'; rewrite !elem_of_nodes_add_edge; auto).
  assert (nx.add_edge u' v' G' = G') as Hid by by apply add_edge_id.
  pose proof (wf_add_edge u' v' G HG) as HG'. fold G' in HG'.
  split_and!.
  - apply Hproc.
  - by rewrite Hproc, Hid.
  - by apply add_edge_id.
  - apply edges_from_NoDup; [apply HG' | by apply wf_nbrs_Forall].
  - intros a b. apply edges_from_once.
  - intros A B. by rewrite Hid.
Qed.

Lemma aresta_repetida_witness :
  nx.wf g4
  ∧ Loader.processar_linha Loader.linha_p_unpack g4 " e 1 2 " = Ret (nx.add_edge 1 2 g4)
  ∧ nx.add_edge 2 1 (nx.add_edge 1 2 g4) = nx.add_edge 1 2 g4
  ∧ NoDup (nx.edges (nx.add_edge 1 2 g4)).
Proof.
  assert (nx.wf g4) as Hwf by (apply (maxcut_carregar_wf c4); reflexivity).
  split; [exact Hwf|].
  destruct (aresta_repetida g4 Loader.linha_p_unpack " e 1 2 " "e" "1" "2" 1 2 Hwf)
    as (H1 & _ & H3 & H4 & _); [reflexivity..|].
  by split_and!.
Defined.

(** The file with one edge twice: the edge list has the edge once, and the
    cut between its ends has size 1. *)
Lemma aresta_repetida_conta_uma :
  MaxCut.carregar_grafo repetida = Ret [(1, [2]); (2, [1])]
  ∧ nx.edges [(1, [2]); (2, [1])] = [(1, 2)]
  ∧ MaxCut.sahni_gonzalez_maxcut [(1, [2]); (2, [1])] = Ret ({[1]}, {[2]})
  ∧ MaxCut.tamanho_corte [(1, [2]); (2, [1])] {[1]} {[2]} = 1.
Proof. split_and!; vm_compute; reflexivity. Qed.

(** ** The [p] line *)

Lemma elem_of_nodes_add_nodes_from ns G v :
  v ∈ nx.nodes (nx.add_nodes_from ns G) ↔ v ∈ nx.nodes G ∨ v ∈ ns.
Proof.
  unfold nx.add_nodes_from. revert G.
  induction ns as [|n ns IH]; intros G; simpl.
  - rewrite elem_of_nil. tauto.
  - rewrite IH, elem_of_nodes_add_node, elem_of_cons. tauto.
Qed.







(** ** The vertex set a file gives *)

Lemma processar_linha_nodes linha_p G linha G' :
  linha_p = Loader.linha_p_parts ∨ linha_p = Loader.linha_p_unpack →
  Loader.processar_linha linha_p G linha = Ret G' →
  ∀ v, v ∈ nx.nodes G' ↔ v ∈ nx.nodes G ∨ v ∈ declarados linha.
Proof.
  intros Hp. unfold Loader.processar_linha, declarados.
  destruct (Py.startswith (Py.strip linha) "c").
  { intros [= <-] v. rewrite elem_of_nil. tauto. }
  destruct (Py.startswith (Py.strip linha) "p").
  { intros H.
    assert (∃ t n, Py.split (Py.strip linha) !! 2%nat = Some t ∧ Py.int t = Ret n
        ∧ G' = nx.add_nodes_from (Py.range 1 (n + 1)) G) as (t & n & -> & -> & ->);
      [|intros v; apply elem_of_nodes_add_nodes_from].
    destruct Hp as [-> | ->].
    - unfold Loader.linha_p_parts in H.
      apply bind_Ret in H as (t & Ht%of_option_Ret & (n & Hn & [= <-])%bind_Ret).
      eauto.
    - unfold Loader.linha_p_unpack in H.
      destruct (Py.split (Py.strip linha)) as [|? [|? [|t [|? [|]]]]]; try done.
      apply bind_Ret in H as (n & Hn & [= <-]). eauto. }
  destruct (Py.startswith (Py.strip linha) "e").
  { intros (t & u & v & u' & v' & -> & -> & -> & ->)%linha_e_Ret w.
    rewrite elem_of_nodes_add_edge, !elem_of_cons, elem_of_nil. tauto. }
  intros [= <-] v. rewrite elem_of_nil. tauto.
Qed.

Lemma carregar_nodes linha_p linhas G :
  linha_p = Loader.linha_p_parts ∨ linha_p = Loader.linha_p_unpack →
  Loader.carregar linha_p linhas = Ret G →
  ∀ v, v ∈ nx.nodes G ↔ ∃ linha, linha ∈ linhas ∧ v ∈ declarados linha.
Proof.
  intros Hp. unfold Loader.carregar.
  assert (∀ G0, Py.for_each (Loader.processar_linha linha_p) linhas G0 = Ret G →
    ∀ v, v ∈ nx.nodes G ↔ v ∈ nx.nodes G0 ∨ ∃ linha, linha ∈ linhas ∧ v ∈ declarados linha)
    as Hgen.
  { induction linhas as [|l ls IH]; intros G0; simpl.
    - intros [= <-] v. split; [auto|]. intros [?|(? & ?%elem_of_nil & _)]; done.
    - intros (G1 & H1 & H2)%bind_Ret v.
      rewrite (IH G1 H2), (processar_linha_nodes linha_p G0 l G1 Hp H1).
      split.
      + intros [[?|?]|(l' & ? & ?)]; [by left | right; exists l | right; exists l'];
          (split; [|done]); by constructor.
      + intros [?|(l' & [->|?]%elem_of_cons & ?)]; [by left; left | by left; right |].
        right. by exists l'. }
  intros H v. rewrite (Hgen _ H). split; [|auto].
  intros [?%elem_of_nil|?]; done.
Qed.




(** ** The distance matrix *)

Lemma comprehension_Ret {A B} (f : A → res B) xs ys :
  Py.comprehension f xs = Ret ys → Forall2 (λ x y, f x = Ret y) xs ys.
Proof.
  revert ys. induction xs as [|x xs IH]; intros ys; simpl.
  - intros [= <-]. constructor.
  - intros (y & Hy & (r & Hr & [= <-])%bind_Ret)%bind_Ret. constructor; auto.
Qed.

Lemma for_each_total {A S} (body : S → A → res S) xs :
  (∀ s x, x ∈ xs → ∃ s', body s x = Ret s') →
  ∀ s, ∃ s', Py.for_each body xs s = Ret s'.
Proof.
  induction xs as [|x xs IH]; intros H s; simpl; [eauto|].
  destruct (H s x) as [s1 ->]; [left|]. simpl. apply IH.
  intros s2 y Hy. apply H. by right.
Qed.

Lemma comprehension_total {A B} (f : A → res B) xs :
  (∀ x, x ∈ xs → ∃ y, f x = Ret y) → ∃ ys, Py.comprehension f xs = Ret ys.
Proof.
  induction xs as [|x xs IH]; intros H; simpl; [eauto|].
  destruct (H x) as [y ->]; [left|]. simpl.
  destruct IH as [ys ->]; [|simpl; eauto]. intros z Hz. apply H. by right.
Qed.

Section Matriz.

Context (hypot : float → float → float).
Context (coords : gmap Z (float * float)) (use_round : bool).

Lemma preencher_entrada i linha j :
  Tsp.preencher hypot coords use_round i linha j
  = d ← entrada hypot coords use_round i j; Ret (<[j := d]> linha).
Proof.
  unfold Tsp.preencher, entrada. case_decide; [done|].
  destruct (coords !! i) as [a|]; [|done]. destruct (coords !! j) as [b|]; [|done].
  simpl. destruct use_round; [|done].
  by destruct (Tsp.arredondar (Tsp.euclid_dist hypot a b)).
Qed.

Lemma linha_Ret i js :
  ∀ m m', Py.for_each (Tsp.preencher hypot coords use_round i) js m = Ret m' →
  ∀ j, (j ∈ js → ∃ d, entrada hypot coords use_round i j = Ret d ∧ m' !! j = Some d)
     ∧ (j ∉ js → m' !! j = m !! j).
Proof.
  induction js as [|x xs IH]; intros m m'; simpl.
  - intros [= <-] j. split; [by intros ?%elem_of_nil | done].
  - rewrite preencher_entrada.
    intros (m1 & (dx & Hdx & [= <-])%bind_Ret & Hrest)%bind_Ret j.
    destruct (IH _ _ Hrest j) as [Hin Hout].
    destruct (decide (j ∈ xs)) as [Hj|Hj].
    + split; [auto|]. intros Hn. destruct Hn. by right.
    + rewrite (Hout Hj), lookup_insert. split.
      * intros [->|?]%elem_of_cons; [|done]. rewrite decide_True by done. eauto.
      * intros Hn. rewrite decide_False; [done|]. intros ->. apply Hn. left.
Qed.

(** The matrix has the sorted keys of the coordinates as its keys, in that
    order, and at [u][v] what the builder computes for the pair. *)
Lemma construir_Ret dist :
  Tsp.construir_matriz_distancias hypot coords use_round = Ret dist →
  dist.*1 = Py.sorted (elements (dom coords))
  ∧ ∀ u v, u ∈ dom coords → v ∈ dom coords →
      ∃ d, entrada hypot coords use_round u v = Ret d ∧ Tsp.dist_de dist u v = Ret d.
Proof.
  unfold Tsp.construir_matriz_distancias.
  set (nodes := Py.sorted (elements (dom coords))).
  intros H%comprehension_Ret.
  assert (dist.*1 = nodes) as Hkeys.
  { clear -H. induction H as [|x [k l] xs ys Hx _ IH]; [done|]. csimpl.
    apply bind_Ret in Hx as (l' & _ & [= <- <-]). by f_equal. }
  split; [done|]. intros u v Hu Hv.
  assert (u ∈ dist.*1) as [linha Hl]%get_is_Some
    by (rewrite Hkeys; by apply elem_of_sorted, elem_of_elements).
  pose proof (get_Some_elem _ _ _ Hl) as Hin.
  assert (Py.for_each (Tsp.preencher hypot coords use_round u) nodes ∅ = Ret linha)
    as Hrow.
  { apply list_elem_of_lookup in Hin as [n Hn].
    destruct (Forall2_lookup_r _ _ _ _ _ H Hn) as (x & _ & Hx).
    by apply bind_Ret in Hx as (l' & Hl' & [= <- <-]). }
  destruct (proj1 (linha_Ret u nodes _ _ Hrow v)) as (d & Hd & Hlv).
  { by apply elem_of_sorted, elem_of_elements. }
  exists d. split; [done|]. unfold Tsp.dist_de. rewrite Hl. simpl. by rewrite Hlv.
Qed.

End Matriz.

(** Without rounding the matrix builder cannot fail. *)
Lemma construir_sem_arredondar hypot coords :
  ∃ dist, Tsp.construir_matriz_distancias hypot coords false = Ret dist.
Proof.
  unfold Tsp.construir_matriz_distancias. apply comprehension_total.
  intros i Hi%elem_of_sorted%elem_of_elements%elem_of_dom.
  edestruct (for_each_total (Tsp.preencher hypot coords false i)) as [linha ->];
    [|simpl; eauto].
  intros linha j Hj%elem_of_sorted%elem_of_elements%elem_of_dom.
  rewrite preencher_entrada. unfold entrada. case_decide; simpl; [eauto|].
  destruct Hi as [a ->], Hj as [b ->]. simpl. eauto.
Qed.

(** ** Rounding a distance *)








(** ** The nearest-neighbour tour *)

Lemma custo_ao_longo_snoc dist tour c b :
  last tour = Some c →
  ∀ acc, custo_ao_longo dist acc (tour ++ [b])
  = t ← custo_ao_longo dist acc tour; d ← Tsp.dist_de dist c b; Ret (t + d)%float.
Proof.
  induction tour as [|u [|v tour] IH]; intros Hlast acc.
  - done.
  - injection Hlast as ->. simpl. by destruct (Tsp.dist_de dist c b).
  - change (custo_ao_longo dist acc ((u :: v :: tour) ++ [b]))
      with (d ← Tsp.dist_de dist u v; custo_ao_longo dist (acc + d)%float ((v :: tour) ++ [b])).
    change (custo_ao_longo dist acc (u :: v :: tour))
      with (d ← Tsp.dist_de dist u v; custo_ao_longo dist (acc + d)%float (v :: tour)).
    destruct (Tsp.dist_de dist u v) as [d| |]; [|done..]. cbn [mbind res_bind].
    by rewrite IH.
Qed.

Lemma falta_um (nodes tour : list Z) :
  NoDup nodes → (length tour < length nodes)%nat → ∃ x, x ∈ nodes ∧ x ∉ tour.
Proof.
  intros Hnd Hlen.
  destruct (decide (Forall (λ x, x ∈ tour) nodes)) as [Hall|Hex].
  - assert (nodes ⊆+ tour) as Hsub%submseteq_length; [|lia].
    apply NoDup_submseteq; [done|]. by apply Forall_forall.
  - apply not_Forall_Exists in Hex; [|apply _].
    by apply Exists_exists in Hex.
Qed.

Section Tour.

Context (dist : list (Z * gmap Z float)) (start : Z).
Context (Hnd : NoDup dist.*1) (Hfin : finita dist).

(** The scan finds the unvisited vertex it moves to. *)
Lemma mais_proximo_Ret visited current :
  current ∈ dist.*1 → (∃ x, x ∈ dist.*1 ∧ x ∉ visited) →
  ∃ b d, Tsp.mais_proximo dist dist.*1 visited current = Ret (Some b, d)
    ∧ b ∈ dist.*1 ∧ (b ∉ visited) ∧ Tsp.dist_de dist current b = Ret d.
Proof.
  intros Hc (x & Hx & Hxv). unfold Tsp.mais_proximo.
  set (I := λ (feitos : list Z) (s : option Z * float),
    (s = (None, infinity) ∧ ∀ v, v ∈ feitos → v ∈ visited)
    ∨ (∃ b, s.1 = Some b ∧ b ∈ feitos ∧ (b ∉ visited)
         ∧ Tsp.dist_de dist current b = Ret s.2)).
  destruct (for_each_inv I (Tsp.comparar dist visited current) dist.*1 [] (None, infinity))
    as ([best bd] & -> & HI).
  - left. split; [done|]. by intros v ?%elem_of_nil.
  - intros feitos v resto [best bd] Heq HI. simpl in Heq.
    assert (v ∈ dist.*1) as Hv by (rewrite Heq; apply elem_of_app; right; left).
    unfold Tsp.comparar. destruct (decide (v ∈ visited)) as [Hvis|Hvis].
    + eexists. split; [done|]. destruct HI as [[Hs Hall]|(b & Hb & Hin & Hnv & Hd)].
      * left. split; [done|]. intros w [?| ->%list_elem_of_singleton]%elem_of_app; auto.
      * right. exists b. split_and!; [done | apply elem_of_app; by left | done..].
    + destruct (Hfin current v Hc Hv) as (d & Hd & Hlt). rewrite Hd. simpl.
      eexists. split; [done|]. right.
      destruct (d <? bd)%float eqn:Hcmp.
      * exists v. split_and!; [done | apply elem_of_app; right; left | done..].
      * destruct HI as [[[= -> ->] _]|(b & Hb & Hin & Hnv & Hdb)]; [congruence|].
        exists b. split_and!; [done | apply elem_of_app; by left | done..].
  - simpl in HI. destruct HI as [[_ Hall]|(b & Hb & Hin & Hnv & Hd)].
    + destruct Hxv. by apply Hall.
    + simpl in *. subst best. eauto 10.
Qed.

(** When every key is in the tour, the loop is over and the cycle is
    closed. *)
Lemma visitar_fecha fuel visited tour current total_cost :
  nn_inv dist start visited tour current total_cost →
  (length dist.*1 ≤ length tour)%nat →
  ∃ cost tour', Tsp.visitar fuel dist dist.*1 start visited tour current total_cost
                = Ret (cost, tour')
    ∧ head tour' = Some start ∧ last tour' = Some start
    ∧ removelast tour' ≡ₚ dist.*1
    ∧ custo_ao_longo dist 0%float tour' = Ret cost.
Proof.
  intros [Hhd Hlast Htnd Hkeys -> Hcost] Hlen.
  assert (current ∈ dist.*1) as Hcur
    by (apply Hkeys; by apply last_Some_elem_of in Hlast).
  assert (start ∈ dist.*1) as Hst
    by (apply Hkeys; destruct tour; simplify_eq/=; left).
  destruct (Hfin current start Hcur Hst) as (d & Hd & _).
  exists (total_cost + d)%float, (tour ++ [start]). split_and!.
  - destruct fuel; cbn [Tsp.visitar]; rewrite size_list_to_set by done;
      (rewrite decide_False by lia); by rewrite Hd.
  - by destruct tour.
  - by rewrite last_snoc.
  - rewrite removelast_last. apply submseteq_length_Permutation; [|done].
    by apply NoDup_submseteq.
  - rewrite (custo_ao_longo_snoc _ _ current) by done.
    rewrite Hcost. cbn [mbind res_bind]. by rewrite Hd.
Qed.

(** A turn of the loop keeps the invariant. *)
Lemma nn_inv_passo visited tour current total_cost b d :
  nn_inv dist start visited tour current total_cost →
  b ∈ dist.*1 → b ∉ tour → Tsp.dist_de dist current b = Ret d →
  nn_inv dist start ({[b]} ∪ visited) (tour ++ [b]) b (total_cost + d)%float.
Proof.
  intros [Hhd Hlast Htnd Hkeys -> Hcost] Hb Hbt Hd. split.
  - by destruct tour.
  - by rewrite last_snoc.
  - apply NoDup_app. split_and!; [done | | apply NoDup_singleton].
    by intros y Hy ->%list_elem_of_singleton.
  - intros y [?| ->%list_elem_of_singleton]%elem_of_app; auto.
  - rewrite list_to_set_app_L. simpl. set_solver.
  - rewrite (custo_ao_longo_snoc _ _ current) by done.
    rewrite Hcost. cbn [mbind res_bind]. by rewrite Hd.
Qed.

(** With a turn of fuel for every key not yet in the tour, the loop
    returns. *)
Lemma visitar_Ret :
  ∀ fuel visited tour current total_cost,
    nn_inv dist start visited tour current total_cost →
    (length dist.*1 ≤ length tour + fuel)%nat →
    ∃ cost tour', Tsp.visitar fuel dist dist.*1 start visited tour current total_cost
                  = Ret (cost, tour')
      ∧ head tour' = Some start ∧ last tour' = Some start
      ∧ removelast tour' ≡ₚ dist.*1
      ∧ custo_ao_longo dist 0%float tour' = Ret cost.
Proof.
  induction fuel as [|fuel IH]; intros visited tour current total Hinv Hfuel.
  { apply visitar_fecha; [done | lia]. }
  destruct (decide (length tour < length dist.*1)%nat) as [Hlt|Hge];
    [|apply visitar_fecha; [done | lia]].
  pose proof Hinv as [_ Hlast _ Hkeys Hvis _].
  assert (current ∈ dist.*1) as Hcur
    by (apply Hkeys; by apply last_Some_elem_of in Hlast).
  destruct (falta_um _ tour Hnd Hlt) as (x & Hx & Hxt).
  destruct (mais_proximo_Ret visited current Hcur) as (b & d & Hscan & Hb & Hbv & Hd).
  { exists x. split; [done|]. by rewrite Hvis, elem_of_list_to_set. }
  cbn [Tsp.visitar]. rewrite decide_True, Hscan
    by (rewrite Hvis, size_list_to_set; [done | apply Hinv]).
  cbn [mbind res_bind]. apply IH; [|rewrite length_app; simpl; lia].
  apply (nn_inv_passo visited tour current); [done | done | | done].
  by rewrite Hvis, elem_of_list_to_set in Hbv.
Qed.

(** From a key of a finite matrix the tour is built, starts and ends at
    [start], has every key once before it closes, and costs what walking
    along it costs. *)
Lemma nearest_neighbor_tour_Ret :
  start ∈ dist.*1 →
  ∃ cost tour, Tsp.nearest_neighbor_tour dist start = Ret (cost, tour)
    ∧ head tour = Some start ∧ last tour = Some start
    ∧ removelast tour ≡ₚ dist.*1
    ∧ custo_ao_longo dist 0%float tour = Ret cost.
Proof.
  intros Hs. unfold Tsp.nearest_neighbor_tour. apply visitar_Ret; [|simpl; lia].
  split; try done.
  - apply NoDup_singleton.
  - by intros v ->%list_elem_of_singleton.
  - simpl. set_solver.
Qed.

End Tour.

Lemma entradas_finitas_spec dist u v d :
  entradas_finitas dist = true → Tsp.dist_de dist u v = Ret d →
  (d <? infinity)%float = true.
Proof.
  intros Hfin. unfold Tsp.dist_de.
  destruct (Py.get dist u) as [linha|] eqn:Hu; [|done]. simpl.
  intros Hv%of_option_Ret. apply get_Some_elem, list_elem_of_In in Hu.
  unfold entradas_finitas in Hfin. rewrite forallb_forall in Hfin.
  specialize (Hfin _ Hu). simpl in Hfin. rewrite forallb_forall in Hfin.
  apply elem_of_map_to_list, list_elem_of_In in Hv. by apply (Hfin (v, d)).
Qed.

(** C4, as the code has it: on the matrix built from a coordinate map, all of
    whose entries are below infinity, and from a start vertex [s] of the map,
    [nearest_neighbor_tour] returns a tour that starts at [s], ends with [s]
    again, has before that closing vertex every vertex of the map once, and a
    cost that is the sum, taken from the start on, of the distances between
    consecutive vertices of the tour, the closing edge included. *)
Theorem tour_das_coordenadas hypot coords use_round dist s :
  Tsp.construir_matriz_distancias hypot coords use_round = Ret dist →
  s ∈ dom coords →
  entradas_finitas dist = true →
  ∃ cost tour, Tsp.nearest_neighbor_tour dist s = Ret (cost, tour)
    ∧ head tour = Some s ∧ last tour = Some s
    ∧ removelast tour ≡ₚ elements (dom coords)
    ∧ custo_ao_longo dist 0%float tour = Ret cost.
Proof.
  intros [Hkeys Hent]%construir_Ret Hs Hfin.
  assert (∀ v, v ∈ dist.*1 ↔ v ∈ dom coords) as Hdom
    by (intros v; by rewrite Hkeys, elem_of_sorted, elem_of_elements).
  destruct (nearest_neighbor_tour_Ret dist s) as (cost & tour & Hnn & Hh & Hl & Hp & Hc).
  - rewrite Hkeys. apply sorted_NoDup, NoDup_elements.
  - intros u v Hu%Hdom Hv%Hdom. destruct (Hent u v Hu Hv) as (d & _ & Hd).
    exists d. split; [done|]. by eapply entradas_finitas_spec.
  - by apply Hdom.
  - exists cost, tour. split_and!; try done.
    by rewrite Hp, Hkeys, sorted_Permutation.
Qed.

Lemma tour_das_coordenadas_witness :
  ∃ dist cost tour,
    Tsp.construir_matriz_distancias hypot_sqrt
      (Tsp.ler_tsp float_literal tres_pontos) false = Ret dist
    ∧ entradas_finitas dist = true
    ∧ Tsp.nearest_neighbor_tour dist 1 = Ret (cost, tour)
    ∧ head tour = Some 1 ∧ last tour = Some 1
    ∧ removelast tour ≡ₚ elements (dom (Tsp.ler_tsp float_literal tres_pontos))
    ∧ custo_ao_longo dist 0%float tour = Ret cost.
Proof.
  destruct (construir_sem_arredondar hypot_sqrt (Tsp.ler_tsp float_literal tres_pontos))
    as [dist Hdist].
  assert (entradas_finitas dist = true) as Hfin.
  { revert Hdist. vm_compute. by intros [= <-]. }
  destruct (tour_das_coordenadas hypot_sqrt _ false dist 1 Hdist)
    as (cost & tour & Hnn & Hh & Hl & Hp & Hc); [vm_compute; reflexivity | exact Hfin |].
  exists dist, cost, tour. by split_and!.
Defined.

(** Two points of finite coordinates whose distance is infinite: the matrix
    is built, 1 is a vertex of the map, and the tour from 1 fails. *)
Lemma tour_distancia_infinita :
  1 ∈ dom dois_longe
  ∧ ∃ dist, Tsp.construir_matriz_distancias hypot_sqrt dois_longe false = Ret dist
      ∧ Tsp.dist_de dist 1 2 = Ret infinity
      ∧ Tsp.nearest_neighbor_tour dist 1 = Raise KeyError.
Proof.
  split; [vm_compute; reflexivity|].
  eexists. split_and!; vm_compute; reflexivity.
Qed.

(** ** The run of the routing script *)

Lemma executar_try_all hypot fos args :
  Tsp.try_all args = true →
  Tsp.executar hypot fos args
  = Tsp.executar hypot fos
      {| Tsp.file := Tsp.file args; Tsp.start := None; Tsp.try_all := true;
         Tsp.round := Tsp.round args |}.
Proof. intros H. unfold Tsp.executar. simpl. by rewrite H. Qed.

Lemma executar_ausente hypot fos args K :
  Tsp.try_all args = false → Tsp.start args = Some K →
  let coords := Tsp.ler_tsp fos (Tsp.file args) in
  coords ≠ ∅ → K ∉ dom coords →
  Tsp.executar hypot fos args
  = (_ ← Tsp.construir_matriz_distancias hypot coords (Tsp.round args);
     Ret (Tsp.Saiu (Tsp.VerticeInicialAusente K))).
Proof.
  intros Ht Hs coords Hne HK. unfold Tsp.executar. fold coords.
  rewrite (decide_False (P := coords = ∅)) by done. rewrite Ht, Hs.
  destruct (Tsp.construir_matriz_distancias _ _ _); [|done..]. simpl.
  by rewrite decide_False.
Qed.

(** C2, as the code has it: take a run with [--start K], [K] not in the
    coordinate map read.  If the map is empty the run ends at once with the
    message that no coordinates were read.  Otherwise the matrix is built
    first.  Without [--try-all], when the matrix is built the run ends with
    the message that the start vertex is absent and status 1, no tour being
    built, and when the builder fails the run ends with the builder's
    exception instead; without [--round] the builder cannot fail.  With
    [--try-all] the value of [--start] is not looked at. *)
Theorem executar_inicio_ausente hypot fos args K :
  Tsp.start args = Some K →
  K ∉ dom (Tsp.ler_tsp fos (Tsp.file args)) →
  (Tsp.ler_tsp fos (Tsp.file args) = ∅ →
     Tsp.executar hypot fos args = Ret (Tsp.Saiu Tsp.SemCoordenadas))
  ∧ (Tsp.ler_tsp fos (Tsp.file args) ≠ ∅ → Tsp.try_all args = false →
     Tsp.executar hypot fos args
     = (_ ← Tsp.construir_matriz_distancias hypot (Tsp.ler_tsp fos (Tsp.file args))
              (Tsp.round args);
        Ret (Tsp.Saiu (Tsp.VerticeInicialAusente K)))
     ∧ (Tsp.round args = false →
        Tsp.executar hypot fos args = Ret (Tsp.Saiu (Tsp.VerticeInicialAusente K))))
  ∧ (Tsp.try_all args = true →
     Tsp.executar hypot fos args
     = Tsp.executar hypot fos
         {| Tsp.file := Tsp.file args; Tsp.start := None; Tsp.try_all := true;
            Tsp.round := Tsp.round args |}).
Proof.
  intros Hs HK. split_and!; [ | | apply executar_try_all].
  - intros Hvazio. unfold Tsp.executar. by rewrite decide_True.
  - intros Hne Ht.
    pose proof (executar_ausente hypot fos args K Ht Hs Hne HK) as Hex.
    split; [done|]. intros Hr. rewrite Hex, Hr.
    by destruct (construir_sem_arredondar hypot (Tsp.ler_tsp fos (Tsp.file args)))
      as [d ->].
Qed.

Lemma executar_inicio_ausente_witness :
  (99 ∉ dom (Tsp.ler_tsp float_literal tres_pontos))
  ∧ Tsp.executar hypot_sqrt float_literal
      {| Tsp.file := tres_pontos; Tsp.start := Some 99; Tsp.try_all := false;
         Tsp.round := false |}
    = Ret (Tsp.Saiu (Tsp.VerticeInicialAusente 99)).
Proof.
  assert (99 ∉ dom (Tsp.ler_tsp float_literal tres_pontos)) as H99
    by (vm_compute; discriminate).
  split; [exact H99|].
  destruct (executar_inicio_ausente hypot_sqrt float_literal
    {| Tsp.file := tres_pontos; Tsp.start := Some 99; Tsp.try_all := false;
       Tsp.round := false |} 99 eq_refl H99) as (_ & H & _).
  apply H; [vm_compute; discriminate | reflexivity | reflexivity].
Defined.

(** Two runs with [--start 99], 99 not being a vertex.  With [--try-all] the
    run prints a tour and ends normally.  Without it and with [--round], on
    two points infinitely far apart, the run ends in the matrix builder with
    an [OverflowError], not with the message about the start vertex. *)
Lemma executar_inicio_ausente_sem_mensagem :
  (99 ∉ dom (Tsp.ler_tsp float_literal tres_pontos))
  ∧ Tsp.executar hypot_sqrt float_literal
      {| Tsp.file := tres_pontos; Tsp.start := Some 99; Tsp.try_all := true;
         Tsp.round := false |}
    = Ret (Tsp.Impresso 20 [1; 3; 2])
  ∧ (99 ∉ dom (Tsp.ler_tsp float_literal infinito_2))
  ∧ Tsp.executar hypot_sqrt float_literal
      {| Tsp.file := infinito_2; Tsp.start := Some 99; Tsp.try_all := false;
         Tsp.round := true |}
    = Raise OverflowError.
Proof.
  split_and!; [vm_compute; discriminate | vm_compute; reflexivity
              | vm_compute; discriminate | vm_compute; reflexivity].
Qed.

(** * Further properties *)

(** ** Sorted lists, again *)

Lemma sorted_estrito l : NoDup l → StronglySorted Z.lt (Py.sorted l).
Proof.
  intros Hnd%sorted_NoDup. apply StronglySorted_pairs. intros l1 x l2 y Heq Hy.
  pose proof (proj1 (StronglySorted_pairs _ _) (sorted_Sorted _) l1 x l2 y Heq Hy).
  assert (x ≠ y); [|lia]. intros ->. rewrite Heq in Hnd.
  apply NoDup_app in Hnd as (_ & _ & Hnd). by apply NoDup_cons in Hnd as [? _].
Qed.



(** ** [G.edges()] and the adjacency *)

Lemma edges_from_elem seen G a b :
  (a, b) ∈ nx.edges_from seen G
  ↔ ∃ G1 l G2, G = G1 ++ (a, l) :: G2 ∧ b ∈ l ∧ (b ∉ seen) ∧ b ∉ G1.*1.
Proof.
  revert seen. induction G as [|[n l0] G IH]; intros seen; simpl.
  - split; [by intros ?%elem_of_nil|]. intros (G1 & l & G2 & Heq & _).
    by destruct G1.
  - rewrite elem_of_app, IH, list_elem_of_fmap. split.
    + intros [(nbr & [= -> ->] & [Hs Hb]%list_elem_of_filter)
             |(G1 & l & G2 & -> & Hb & Hs & Hg)].
      * exists [], l0, G. split_and!; [done..|]. by intros ?%elem_of_nil.
      * exists ((n, l0) :: G1), l, G2. split_and!; [done | done | set_solver |].
        csimpl. set_solver.
    + intros (G1 & l & G2 & Heq & Hb & Hs & Hg). destruct G1 as [|p G1].
      * injection Heq as -> -> ->. left. exists b. split; [done|].
        by apply list_elem_of_filter.
      * injection Heq as <- ->. right. exists G1, l, G2. csimpl in Hg.
        split_and!; [done | done | set_solver | set_solver].
Qed.

(** An edge between distinct vertices is listed, from one of its ends. *)
Lemma edges_de_adjacente G a b :
  nx.wf G → nx.adjacent G a b → (a, b) ∈ nx.edges G ∨ (b, a) ∈ nx.edges G.
Proof.
  intros HG Hab. pose proof (nx.wf_sym G HG a b Hab) as Hba.
  destruct Hab as (la & Hla & Hb), Hba as (lb & Hlb & Ha).
  pose proof (get_Some_elem _ _ _ Hla) as (G1 & G2 & HG1)%list_elem_of_split.
  unfold nx.edges. rewrite !edges_from_elem.
  destruct (decide (b ∈ G1.*1)) as [Hin|Hout].
  - right. apply list_elem_of_fmap in Hin as ([b' lb'] & -> & Hin). simpl in *.
    apply list_elem_of_split in Hin as (H1 & H2 & ->).
    pose proof (nx.wf_nodes G HG) as Hnd. rewrite HG1 in Hnd. unfold nx.nodes in Hnd.
    assert (lb' = lb) as ->.
    { assert (Py.get G b' = Some lb') as Hget; [|unfold nx.adj in Hlb; congruence].
      apply get_elem_NoDup; [apply HG|]. rewrite HG1. set_solver. }
    exists H1, lb, (H2 ++ (a, la) :: G2). split_and!; [|done|set_solver|].
    + by rewrite HG1, <- app_assoc.
    + rewrite !fmap_app, !fmap_cons in Hnd. simpl in Hnd.
      rewrite <- app_assoc in Hnd. apply NoDup_app in Hnd as (_ & Hdis & _).
      intros Hin. apply (Hdis a Hin). set_solver.
  - left. exists G1, la, G2. split_and!; [done | done | set_solver | done].
Qed.

Lemma edges_nodes G a b :
  nx.wf G → (a, b) ∈ nx.edges G → a ∈ nx.nodes G ∧ b ∈ nx.nodes G.
Proof.
  intros HG Hab%edges_adjacent; [|apply HG]. split; [by eapply adjacent_nodes|].
  eapply adjacent_nodes, (nx.wf_sym G HG), Hab.
Qed.

(** The edges listed between [v] and a set that [v] is not in are as many as
    the neighbours of [v] in the set. *)
Lemma edges_toca G v l (X : gset Z) :
  nx.wf G → nx.adj G v = Some l → v ∉ X →
  length (filter (toca v X) (nx.edges G)) = length (filter (λ u, u ∈ X) l).
Proof.
  intros HG Hl Hv. rewrite <- (length_fmap (outro v)). apply Permutation_length.
  apply NoDup_Permutation.
  - apply NoDup_fmap_2_strong.
    + intros [a b] [a' b'] [He Hin]%list_elem_of_filter [He' Hin']%list_elem_of_filter.
      unfold outro, toca, nx.edges in *. simpl in *.
      assert (a ≠ b) as Hne by (intros ->; naive_solver).
      pose proof (edges_from_once ∅ G a b Hin Hne).
      repeat case_decide; naive_solver.
    + apply NoDup_filter, edges_from_NoDup; [apply HG | by apply wf_nbrs_Forall].
  - apply NoDup_filter. by apply (nx.wf_nbrs G HG v).
  - intros u. rewrite list_elem_of_fmap, list_elem_of_filter. split.
    + intros ([a b] & -> & [He Hin]%list_elem_of_filter).
      pose proof (edges_adjacent G a b (nx.wf_nodes G HG) Hin) as Hadj.
      pose proof (nx.wf_sym G HG a b Hadj) as Hadj'.
      unfold outro, toca in *. simpl in *.
      assert (∀ w, nx.adjacent G v w → w ∈ l) as Hnb.
      { intros w (l' & Hl' & Hw). unfold nx.adj in *. congruence. }
      case_decide; naive_solver.
    + intros [HuX Hu]. assert (u ≠ v) as Hne by (by intros ->).
      destruct (edges_de_adjacente G v u HG) as [Hin|Hin]; [by exists l| |].
      * exists (v, u). unfold outro. simpl. rewrite decide_True by done.
        split; [done|]. apply list_elem_of_filter. split; [|done]. left. done.
      * exists (u, v). unfold outro. simpl. rewrite decide_False by done.
        split; [done|]. apply list_elem_of_filter. split; [|done]. right. done.
Qed.

Lemma filter_ou_length {A} (P Q : A → Prop)
    `{!∀ x, Decision (P x)} `{!∀ x, Decision (Q x)} l :
  (∀ x, x ∈ l → P x → Q x → False) →
  length (filter (λ x, P x ∨ Q x) l) = (length (filter P l) + length (filter Q l))%nat.
Proof.
  induction l as [|x l IH]; intros Hdis; [done|].
  rewrite !filter_cons. specialize (IH (λ y Hy, Hdis y (list_elem_of_further _ _ _ Hy))).
  pose proof (Hdis x ltac:(left)).
  destruct (decide (P x)), (decide (Q x)); repeat case_decide; simpl; try tauto; lia.
Qed.

(** ** The edges a file gives *)







(** ** The order of the nodes a file gives *)










(** ** A file that keeps to its declared range *)




(** ** Lines the loaders refuse *)





(** ** The command line *)

(** X5: the path of the file.  The coloring and max-cut scripts open the
    path given when it has a slash or a backslash, and the file of that name
    under [labs/] otherwise; the path they open always has one of the two, so
    that giving the adjusted path gives the same run.  Arguments after the
    first are not looked at; the dominating-set script opens the path as it
    is given. *)
Theorem caminho_do_arquivo abrir prog arquivo resto :
  (Py.contem "/" arquivo = true ∨ Py.contem "092" arquivo = true →
   localizar arquivo = arquivo)
  ∧ (Py.contem "/" arquivo = false → Py.contem "092" arquivo = false →
     localizar arquivo = ("labs/" ++ arquivo)%string)
  ∧ Py.contem "/" (localizar arquivo) || Py.contem "092" (localizar arquivo) = true
  ∧ localizar (localizar arquivo) = localizar arquivo
  ∧ Coloracao.principal abrir (prog :: arquivo :: resto)
    = Coloracao.principal abrir [prog; localizar arquivo]
  ∧ MaxCut.principal abrir (prog :: arquivo :: resto)
    = MaxCut.principal abrir [prog; localizar arquivo]
  ∧ Dom.principal abrir (prog :: arquivo :: resto)
    = (linhas ← abrir arquivo; G ← Dom.carregar_grafo linhas;
       S ← Dom.conjunto_dominante_aproximado G; Ret (Dom.Dominante (length S) S)).
Proof.
  assert (Py.contem "/" (localizar arquivo) || Py.contem "092" (localizar arquivo) = true)
    as Hsep.
  { unfold localizar.
    destruct (Py.contem "092" arquivo) eqn:Hb, (Py.contem "/" arquivo) eqn:Hs; simpl;
      rewrite ?Hb, ?Hs; done. }
  assert (localizar (localizar arquivo) = localizar arquivo) as Hidem.
  { unfold localizar at 1.
    destruct (Py.contem "092" (localizar arquivo)), (Py.contem "/" (localizar arquivo));
      done. }
  split_and!; [| |done|done| | |done].
  - unfold localizar. intros [-> | ->]; [by rewrite andb_false_r | done].
  - unfold localizar. by intros -> ->.
  - unfold Coloracao.principal. by rewrite Hidem.
  - unfold MaxCut.principal. by rewrite Hidem.
Qed.

(** ** The colours of Welsh–Powell *)

Lemma so_pinta_refl c cor : so_pinta c cor cor.
Proof. intros w. by left. Qed.

Lemma so_pinta_trans c cor cor1 cor2 :
  so_pinta c cor cor1 → so_pinta c cor1 cor2 → so_pinta c cor cor2.
Proof.
  intros H1 H2 w. destruct (H1 w) as [E1|[E1 E1']], (H2 w) as [E2|[E2 E2']].
  - left. congruence.
  - right. split; [|done]. by rewrite <- E1.
  - right. split; [done|]. congruence.
  - right. done.
Qed.

Lemma so_pinta_insert c cor v :
  cor !! v = Some 0 ∨ cor !! v = Some c → so_pinta c cor (<[v := c]> cor).
Proof.
  intros Hv w. rewrite lookup_insert. case_decide; subst; [by right | by left].
Qed.

Lemma so_pinta_mantem c cor cor1 w x :
  so_pinta c cor cor1 → cor !! w = Some x → x ≠ 0 → cor1 !! w = Some x.
Proof. intros H Hw Hx. destruct (H w) as [->|[[?|?] ?]]; congruence. Qed.

Lemma so_pinta_zero c cor cor1 w :
  0 < c → so_pinta c cor cor1 → cor1 !! w = Some 0 → cor !! w = Some 0.
Proof. intros Hc H Hw. destruct (H w) as [<-|[_ ?]]; [done|]. simplify_eq. lia. Qed.

Lemma so_pinta_zero_ou_c c cor cor1 w :
  so_pinta c cor cor1 → cor !! w = Some 0 ∨ cor !! w = Some c →
  cor1 !! w = Some 0 ∨ cor1 !! w = Some c.
Proof. intros H Hw. destruct (H w) as [->|[_ ?]]; auto. Qed.

(** Giving the colour [c] to a vertex that is uncoloured, or has it. *)
Lemma wp_abaixo_insert G c cor v :
  wp_inv G (c + 1) cor → wp_abaixo G c cor →
  cor !! v = Some 0 ∨ cor !! v = Some c →
  wp_abaixo G c (<[v := c]> cor).
Proof.
  intros [_ Hr _] Hab Hv w x y Hw Hy Hlt.
  assert (∃ x0, cor !! w = Some x0 ∧ y < (if decide (x0 = 0) then c else x0))
    as (x0 & Hw0 & Hlt0).
  { rewrite lookup_insert in Hw. destruct (decide (v = w)) as [<-|Hne]; [|eauto].
    injection Hw as <-. assert (y < c) by (case_decide; lia).
    destruct Hv as [Hv|Hv]; [exists 0 | exists c]; (split; [done|]); by case_decide. }
  destruct (Hab w x0 y Hw0 Hy Hlt0) as (u & Hadj & Hu). exists u. split; [done|].
  rewrite lookup_insert, decide_False; [done|]. intros ->.
  assert (y < c); [|destruct Hv; simplify_eq; lia].
  specialize (Hr w x0 Hw0). case_decide; lia.
Qed.

(** One attempt: what was coloured remains so, and a vertex left uncoloured
    has a neighbour of the colour [c]. *)
Lemma tentar_passo G c cor v cor1 :
  nx.wf G → 0 < c → wp_inv G (c + 1) cor → wp_abaixo G c cor → v ∈ nx.nodes G →
  cor !! v = Some 0 ∨ cor !! v = Some c →
  Coloracao.tentar G c cor v = Ret cor1 →
  wp_abaixo G c cor1 ∧ so_pinta c cor cor1
  ∧ (cor1 !! v = Some 0 → ∃ u, nx.adjacent G v u ∧ cor1 !! u = Some c).
Proof.
  intros HG Hc Hinv Hab Hv Hzc.
  destruct (conflito_Ret G c cor v HG (wp_dom _ _ _ Hinv) Hv) as (l & Hl & ->).
  intros [= <-]. destruct (existsb (tem_cor cor c) l) eqn:Hex.
  - split_and!; [done | apply so_pinta_refl |]. intros _.
    apply existsb_exists in Hex as (u & Hu%list_elem_of_In & Hcu). exists u.
    split; [by exists l|]. unfold tem_cor in Hcu.
    destruct (cor !! u) as [x|]; [|done]. by apply Z.eqb_eq in Hcu as ->.
  - split_and!; [by apply wp_abaixo_insert | by apply so_pinta_insert |].
    rewrite lookup_insert, decide_True by done. intros [= ?]. lia.
Qed.

Lemma tentar_todos_cheio G c vs :
  nx.wf G → 0 < c → (∀ v, v ∈ vs → v ∈ nx.nodes G) →
  ∀ cor cor', wp_inv G (c + 1) cor → wp_abaixo G c cor →
    (∀ v, v ∈ vs → cor !! v = Some 0 ∨ cor !! v = Some c) →
    Py.for_each (Coloracao.tentar G c) vs cor = Ret cor' →
    wp_abaixo G c cor' ∧ so_pinta c cor cor'
    ∧ (∀ v, v ∈ vs → cor' !! v = Some 0 → ∃ u, nx.adjacent G v u ∧ cor' !! u = Some c).
Proof.
  intros HG Hc. induction vs as [|v vs IH]; intros Hvs cor cor' Hinv Hab Hzc; simpl.
  { intros [= <-]. split_and!; [done | apply so_pinta_refl |]. by intros v ?%elem_of_nil. }
  assert (v ∈ nx.nodes G) as Hv by (apply Hvs; left).
  destruct (tentar_inv G c cor v HG Hc Hinv Hv) as (cor1 & Hstep & Hinv1 & _).
  rewrite Hstep. cbn [mbind res_bind]. intros Hrest.
  destruct (tentar_passo G c cor v cor1 HG Hc Hinv Hab Hv (Hzc v ltac:(left)) Hstep)
    as (Hab1 & Hp1 & Hconf).
  destruct (IH (λ w Hw, Hvs w (list_elem_of_further _ _ _ Hw)) cor1 cor' Hinv1 Hab1)
    as (Hab' & Hp' & Hconf'); [|done|].
  { intros w Hw. eapply so_pinta_zero_ou_c; [done|]. apply Hzc. by right. }
  split_and!; [done | by eapply so_pinta_trans |].
  intros w [->|Hw]%elem_of_cons Hw0; [|by apply Hconf'].
  destruct Hconf as (u & Hadj & Hu); [by eapply so_pinta_zero|].
  exists u. split; [done|]. eapply so_pinta_mantem; [done..|lia].
Qed.

(** The loop keeps the two properties; when it returns every colour below
    the last one tried is in use. *)
Lemma passes_cheio G ord :
  nx.wf G → (∀ v, v ∈ ord ↔ v ∈ nx.nodes G) →
  ∀ fuel c cor cor',
    0 < c → wp_inv G c cor → wp_abaixo G c cor → wp_usadas c cor →
    Coloracao.passes fuel G ord c cor = Ret cor' →
    ∃ k, 0 < k ∧ wp_inv G k cor' ∧ wp_abaixo G k cor' ∧ wp_usadas k cor'
      ∧ ∀ v, v ∈ nx.nodes G → cor' !! v ≠ Some 0.
Proof.
  intros HG Hord. induction fuel as [|fuel IH]; intros c cor cor' Hc Hinv Hab Hus; [done|].
  cbn [Coloracao.passes].
  rewrite (nao_coloridos_Ret G c) by (done || intros v; apply Hord). simpl.
  destruct (filter _ ord) as [|v0 resto] eqn:Hf.
  - intros [= <-]. exists c. split_and!; [done..|]. intros v Hv H0.
    assert (v ∈ filter (λ v, tem_cor cor 0 v = true) ord) as Hin.
    { apply list_elem_of_filter. split; [|by apply Hord]. unfold tem_cor. by rewrite H0. }
    rewrite Hf in Hin. by apply elem_of_nil in Hin.
  - assert (∀ v, v ∈ v0 :: resto ↔ cor !! v = Some 0 ∧ v ∈ nx.nodes G) as Hnc.
    { intros v. rewrite <- Hf, list_elem_of_filter, Hord. unfold tem_cor.
      destruct (cor !! v) as [x|]; [|naive_solver].
      rewrite Z.eqb_eq. naive_solver. }
    destruct (proj1 (Hnc v0)) as [Hz0 Hv0]; [left|].
    assert (∀ v, v ∈ resto → v ∈ nx.nodes G) as Hresto
      by (intros v Hv; apply Hnc; by right).
    pose proof (wp_inv_primeiro G c cor v0 Hinv Hv0 Hc) as Hinv0.
    assert (wp_inv G (c + 1) cor) as Hinv_c.
    { destruct Hinv as [Hd Hr Hp]. split; [done | | done].
      intros v x Hv. specialize (Hr v x Hv). lia. }
    pose proof (wp_abaixo_insert G c cor v0 Hinv_c Hab (or_introl Hz0)) as Hab0.
    pose proof (so_pinta_insert c cor v0 (or_introl Hz0)) as Hp0.
    destruct (tentar_todos G c resto HG Hc Hresto (<[v0 := c]> cor) Hinv0)
      as (cor1 & Hloop & Hinv1 & _).
    rewrite Hloop. cbn [mbind res_bind].
    destruct (tentar_todos_cheio G c resto HG Hc Hresto _ cor1 Hinv0 Hab0)
      as (Hab1 & Hp1 & Hconf); [|done|].
    { intros v Hv. eapply so_pinta_zero_ou_c; [done|]. left. apply Hnc. by right. }
    pose proof (so_pinta_trans _ _ _ _ Hp0 Hp1) as Hp.
    assert (cor1 !! v0 = Some c) as Hc0.
    { apply (so_pinta_mantem c _ cor1 v0 c Hp1); [apply lookup_insert_eq | lia]. }
    apply IH; [lia | done | |].
    + intros v x y Hv Hy Hlt. destruct (decide (x = 0)) as [->|Hx].
      * destruct (decide (y = c)) as [->|Hyc].
        -- apply Hconf; [|done]. pose proof (so_pinta_zero _ _ _ _ Hc Hp Hv) as Hv'.
           assert (v ∈ v0 :: resto) as [->|?]%elem_of_cons; [|simplify_eq; lia|done].
           apply Hnc. split; [done|]. apply (wp_dom _ _ _ Hinv). eauto.
        -- apply (Hab1 v 0 y Hv Hy). rewrite decide_True by done. lia.
      * apply (Hab1 v x y Hv Hy). by rewrite decide_False.
    + intros y Hy. destruct (decide (y = c)) as [->|Hyc]; [eauto|].
      destruct (Hus y) as (v & Hv); [lia|]. exists v.
      eapply so_pinta_mantem; [done..|lia].
Qed.

Lemma wp_abaixo_inicial G : wp_abaixo G 1 (Coloracao.cor_inicial G).
Proof.
  intros v x y. rewrite cor_inicial_lookup. case_decide; [|done].
  intros [= <-]. rewrite decide_True by done. lia.
Qed.

(** The engine returns a colouring in which every vertex has a neighbour of
    each colour below its own, and every colour below some [k] is in use. *)
Lemma welsh_powell_cheio G :
  nx.wf G →
  ∃ cor k, Coloracao.welsh_powell G = Ret cor ∧ 0 < k
    ∧ wp_inv G k cor ∧ wp_abaixo G k cor ∧ wp_usadas k cor
    ∧ ∀ v, v ∈ nx.nodes G → cor !! v ≠ Some 0.
Proof.
  intros HG. destruct (welsh_powell_inv G HG) as (cor & c0 & Hcor & _).
  exists cor. pose proof Hcor as Hrun. unfold Coloracao.welsh_powell in Hrun.
  rewrite vertices_ordenados_Ret in Hrun. cbn [mbind res_bind] in Hrun.
  destruct (passes_cheio G _ HG (λ v, elem_of_Permutation_proper _ _ _ (ordenados_Permutation G))
              _ 1 _ cor ltac:(lia) (wp_inv_inicial G) (wp_abaixo_inicial G)
              ltac:(intros y ?; lia) Hrun) as (k & Hk & Hinv & Hab & Hus & Hpos).
  by exists k.
Qed.

Lemma num_cores_intervalo cor (k : Z) :
  0 ≤ k → (∀ y, (∃ v, cor !! v = Some y) ↔ 1 ≤ y ≤ k) →
  Coloracao.num_cores cor = Z.to_nat k.
Proof.
  intros Hk Hval. unfold Coloracao.num_cores.
  assert ((list_to_set (map_to_list cor).*2 : gset Z) = list_to_set (seqZ 1 k)) as ->.
  { apply set_eq. intros y. rewrite !elem_of_list_to_set, elem_of_seqZ, list_elem_of_fmap.
    split.
    - intros ([v x] & -> & Hvx%elem_of_map_to_list). simpl.
      assert (1 ≤ x ≤ k); [|lia]. apply Hval. eauto.
    - intros Hy. destruct (proj2 (Hval y)) as [v Hv]; [lia|].
      exists (v, y). split; [done|]. by apply elem_of_map_to_list. }
  rewrite size_list_to_set by apply NoDup_seqZ. apply length_seqZ.
Qed.

(** As many neighbours other than [v] as there are colours, one of each
    among them. *)
Lemma vizinhos_por_cor (cor : gmap Z Z) v (l : list Z) (n : Z) :
  (∀ y, 0 < y ≤ n → ∃ u, u ∈ l ∧ u ≠ v ∧ cor !! u = Some y) →
  n ≤ Z.of_nat (length (filter (λ u, u ≠ v) l)).
Proof.
  intros H. destruct (decide (0 ≤ n)) as [Hn|]; [|lia].
  set (cs := (λ u, default 0 (cor !! u)) <$> filter (λ u, u ≠ v) l).
  assert (seqZ 1 n ⊆+ cs) as Hsub%submseteq_length.
  { apply NoDup_submseteq; [apply NoDup_seqZ|]. intros y Hy%elem_of_seqZ.
    destruct (H y) as (u & Hu & Hne & Hc); [lia|]. apply list_elem_of_fmap.
    exists u. split; [by rewrite Hc|]. by apply list_elem_of_filter. }
  unfold cs in Hsub. rewrite length_seqZ, length_fmap in Hsub. lia.
Qed.

(** X6: the colours the Welsh–Powell engine uses.  For every graph the
    colours used are exactly 1, ..., k, where k is the number of colours the
    script prints; every vertex has, for each colour below its own, a
    neighbour of that colour, so that its colour is at most the number of
    its neighbours other than itself plus one. *)
Theorem welsh_powell_cores G :
  nx.wf G →
  ∃ cor, Coloracao.welsh_powell G = Ret cor
    ∧ (∀ y, (∃ v, cor !! v = Some y) ↔ 1 ≤ y ≤ Z.of_nat (Coloracao.num_cores cor))
    ∧ (∀ v x y, cor !! v = Some x → 0 < y < x →
         ∃ u, nx.adjacent G v u ∧ cor !! u = Some y)
    ∧ (∀ v x, cor !! v = Some x → x ≤ outros_vizinhos G v + 1 ∧ x ≤ grau G v + 1).
Proof.
  intros HG.
  destruct (welsh_powell_cheio G HG) as (cor & k & Hcor & Hk & [Hd Hr Hp] & Hab & Hus & Hpos).
  exists cor. split; [done|].
  assert (∀ v x, cor !! v = Some x → 0 < x < k) as Hrange.
  { intros v x Hv. specialize (Hr v x Hv).
    assert (x ≠ 0); [|lia]. intros ->. apply (Hpos v); [|done]. apply Hd. eauto. }
  assert (∀ y, (∃ v, cor !! v = Some y) ↔ 1 ≤ y ≤ k - 1) as Hval.
  { intros y. split; [intros [v Hv%Hrange]; lia | intros Hy; apply Hus; lia]. }
  assert (∀ v x y, cor !! v = Some x → 0 < y < x →
            ∃ u, nx.adjacent G v u ∧ cor !! u = Some y) as Hlow.
  { intros v x y Hv [Hy Hlt]. apply (Hab v x y Hv Hy).
    rewrite decide_False; [done|]. specialize (Hrange v x Hv). lia. }
  split_and!; [|done|].
  - rewrite (num_cores_intervalo cor (k - 1)) by (lia || done).
    intros y. rewrite Hval. lia.
  - intros v x Hv.
    destruct (proj2 (adj_is_Some G v)) as [l Hl]; [apply Hd; eauto|].
    assert (x - 1 ≤ Z.of_nat (length (filter (λ u, u ≠ v) l))) as Hcount.
    { apply (vizinhos_por_cor cor). intros y Hy.
      destruct (Hlow v x y Hv) as (u & Hadj & Hcu); [lia|].
      destruct Hadj as (l' & Hl' & Hu).
      exists u. rewrite Hl in Hl'. injection Hl' as <-.
      split_and!; [done| |done]. intros ->. rewrite Hv in Hcu. injection Hcu as ->. lia. }
    unfold outros_vizinhos, grau. rewrite Hl.
    pose proof (length_filter (λ u, u ≠ v) l). case_decide; lia.
Qed.

Lemma welsh_powell_cores_witness :
  nx.wf g4
  ∧ ∃ cor, Coloracao.welsh_powell g4 = Ret cor
      ∧ (∀ y, (∃ v, cor !! v = Some y) ↔ 1 ≤ y ≤ Z.of_nat (Coloracao.num_cores cor))
      ∧ (∀ v x, cor !! v = Some x → x ≤ outros_vizinhos g4 v + 1 ∧ x ≤ grau g4 v + 1).
Proof.
  assert (nx.wf g4) as Hwf by (apply (coloracao_carregar_wf c4); reflexivity).
  split; [exact Hwf|].
  destruct (welsh_powell_cores g4 Hwf) as (cor & Hcor & Hval & _ & Hdeg).
  by exists cor.
Defined.

(** ** The report of the coloring script *)

(** X7: the report of the coloring script.  On a file that is read and
    loaded the run prints a number of colours and one line for every vertex
    the file names, in ascending order of the vertices, with a colour from 1
    to that number; every such colour is on some line, and the lines of two
    adjacent distinct vertices have different colours. *)
Theorem coloracao_relatorio abrir prog arquivo resto linhas G :
  abrir (localizar arquivo) = Ret linhas →
  Coloracao.carregar_grafo linhas = Ret G →
  ∃ num rows,
    Coloracao.principal abrir (prog :: arquivo :: resto)
    = Ret (Coloracao.Relatorio num rows)
    ∧ StronglySorted Z.lt rows.*1
    ∧ (∀ v, v ∈ rows.*1 ↔ ∃ linha, linha ∈ linhas ∧ v ∈ declarados linha)
    ∧ (∀ v c, (v, c) ∈ rows → 1 ≤ c ≤ Z.of_nat num)
    ∧ (∀ c, 1 ≤ c ≤ Z.of_nat num → ∃ v, (v, c) ∈ rows)
    ∧ (∀ u v cu cv, (u, cu) ∈ rows → (v, cv) ∈ rows →
         nx.adjacent G u v → u ≠ v → cu ≠ cv).
Proof.
  intros Habrir Hload. pose proof (coloracao_carregar_wf _ _ Hload) as HG.
  destruct (welsh_powell_cheio G HG)
    as (cor & k & Hcor & Hk & [Hd Hr Hp] & Hab & Hus & Hpos).
  set (rows := (λ v, (v, default 0 (cor !! v))) <$> Py.sorted (elements (dom cor))).
  assert (∀ v c, (v, c) ∈ rows ↔ cor !! v = Some c) as Hrows.
  { intros v c. unfold rows. rewrite list_elem_of_fmap. split.
    - intros (w & [= -> ->] & [x Hx]%elem_of_sorted%elem_of_elements%elem_of_dom).
      by rewrite Hx.
    - intros Hv. exists v. rewrite Hv. split; [done|].
      apply elem_of_sorted, elem_of_elements, elem_of_dom. eauto. }
  assert (∀ v x, cor !! v = Some x → 0 < x < k) as Hrange.
  { intros v x Hv. specialize (Hr v x Hv).
    assert (x ≠ 0); [|lia]. intros ->. apply (Hpos v); [|done]. apply Hd. eauto. }
  assert (Coloracao.num_cores cor = Z.to_nat (k - 1)) as Hnum.
  { apply num_cores_intervalo; [lia|]. intros y.
    split; [intros [v Hv%Hrange]; lia | intros Hy; apply Hus; lia]. }
  exists (Coloracao.num_cores cor), rows. split_and!.
  - unfold Coloracao.principal. rewrite Habrir. cbn [mbind res_bind].
    rewrite Hload. cbn [mbind res_bind]. rewrite Hcor. cbn [mbind res_bind].
    rewrite (comprehension_pure _ (λ v, (v, default 0 (cor !! v)))); [done|].
    intros v [x Hx]%elem_of_sorted%elem_of_elements%elem_of_dom.
    unfold Coloracao.cor_de. by rewrite Hx.
  - unfold rows. rewrite <- list_fmap_compose, list_fmap_id.
    apply sorted_estrito, NoDup_elements.
  - intros v. unfold rows. rewrite <- list_fmap_compose, list_fmap_id.
    rewrite elem_of_sorted, elem_of_elements, elem_of_dom, Hd.
    by apply (carregar_nodes Loader.linha_p_parts); [left|].
  - intros v c Hv%Hrows%Hrange. rewrite Hnum. lia.
  - intros c Hc. rewrite Hnum in Hc. destruct (Hus c) as [v Hv]; [lia|].
    exists v. by apply Hrows.
  - intros u v cu cv Hu%Hrows Hv%Hrows Hadj Hne ->.
    pose proof (Hp u v cv Hadj Hne Hu Hv). apply Hrange in Hu. lia.
Qed.

Lemma coloracao_relatorio_witness :
  disco_c4 (localizar "c4.col") = Ret c4
  ∧ ∃ num rows,
      Coloracao.principal disco_c4 ["coloracao.py"; "c4.col"]%string
      = Ret (Coloracao.Relatorio num rows)
      ∧ StronglySorted Z.lt rows.*1.
Proof.
  split; [reflexivity|].
  destruct (coloracao_relatorio disco_c4 "coloracao.py" "c4.col" [] c4 g4 eq_refl eq_refl)
    as (num & rows & Hrun & Hsort & _).
  exists num, rows. split; [exact Hrun | exact Hsort].
Defined.

(** ** Dominating set: the first choice *)

(** The set only grows along the loop. *)
Lemma laco_mono G :
  ∀ fuel C S dominado S', Dom.laco fuel G C S dominado = Ret S' → S ⊆ S'.
Proof.
  induction fuel as [|fuel IH]; intros C S dominado S'; cbn [Dom.laco];
    (case_decide as HC; [by intros [= <-]|]); [done|].
  intros ([mv q] & _ & Hb)%bind_Ret. apply bind_Ret in Hb as (v & _ & Hb).
  apply bind_Ret in Hb as (nd & _ & Hb). apply bind_Ret in Hb as (pi & _ & Hb).
  apply bind_Ret in Hb as ([S1 d1] & Hs & Hb). apply IH in Hb.
  destruct pi.
  - apply bind_Ret in Hs as (nb & _ & [= <- <-]). set_solver.
  - injection Hs as <- <-. done.
Qed.

Section Escolha.

Context (G : nx.Graph) (HG : nx.wf G).
Context (C S : gset Z) (dominado : gmap Z bool).
Context (Hinv : dom_inv G C S dominado).

Lemma avaliar_Ret melhor v :
  v ∈ nx.nodes G →
  Dom.avaliar G dominado melhor v
  = Ret (if melhor.2 <? por_dominar G dominado v then (Some v, por_dominar G dominado v)
         else melhor).
Proof.
  intros Hv. destruct melhor as [mv mq]. unfold Dom.avaliar, por_dominar.
  destruct (neighbors_Ret G v Hv) as (l & Hl & ->). rewrite Hl. simpl.
  rewrite (count_pure _ (λ u, negb (default false (dominado !! u))));
    [done|]. intros u Hu. apply (nao_dominado_Ret G C S dominado Hinv).
  by eapply vizinho_no.
Qed.

(** The scan returns the candidate with the most neighbours still to
    dominate, the least one among those with as many. *)
Lemma escolher_max :
  C ≠ ∅ →
  ∃ v, Dom.escolher G dominado C = Ret (Some v, por_dominar G dominado v) ∧ v ∈ C
    ∧ ∀ u, u ∈ C → por_dominar G dominado u ≤ por_dominar G dominado v
                  ∧ (por_dominar G dominado u = por_dominar G dominado v → v ≤ u).
Proof.
  intros HC. unfold Dom.escolher.
  set (cnt := por_dominar G dominado).
  set (I := λ (feitos : list Z) (s : option Z * Z),
    (feitos = [] ∧ s = (None, -1))
    ∨ (∃ v d1 d2, s = (Some v, cnt v) ∧ feitos = d1 ++ v :: d2
         ∧ (∀ u, u ∈ d1 → cnt u < cnt v) ∧ (∀ u, u ∈ d2 → cnt u ≤ cnt v))).
  assert (∀ u, 0 ≤ cnt u) as Hpos
    by (intros u; unfold cnt, por_dominar; destruct (nx.adj G u); lia).
  destruct (for_each_inv I (Dom.avaliar G dominado) (Py.sorted (elements C))
              [] (None, -1)) as (s & Hret & HI).
  - by left.
  - intros feitos x resto s Heq HI. simpl in Heq.
    assert (x ∈ nx.nodes G) as Hx.
    { apply (dom_cand _ _ _ _ Hinv), elem_of_elements, elem_of_sorted.
      rewrite Heq. apply elem_of_app. right. left. }
    rewrite (avaliar_Ret s x Hx). eexists. split; [done|]. right. fold (cnt x).
    destruct HI as [[-> ->]|(v & d1 & d2 & -> & -> & Hd1 & Hd2)]; simpl.
    + rewrite (proj2 (Z.ltb_lt _ _)) by (specialize (Hpos x); lia).
      exists x, [], []. split_and!; [done..| |]; by intros u ?%elem_of_nil.
    + destruct (Z.ltb_spec (cnt v) (cnt x)) as [Hlt|Hge].
      * exists x, (d1 ++ v :: d2), []. split_and!; [done..| |by intros u ?%elem_of_nil].
        intros u [Hu|[->|Hu]%elem_of_cons]%elem_of_app; [|done|].
        -- specialize (Hd1 u Hu). lia.
        -- specialize (Hd2 u Hu). lia.
      * exists v, d1, (d2 ++ [x]). split_and!; [done | by rewrite <- app_assoc | done |].
        intros u [Hu| ->%list_elem_of_singleton]%elem_of_app; [by apply Hd2 | done].
  - simpl in HI. destruct HI as [[Hnil _]|(v & d1 & d2 & -> & Hsplit & Hd1 & Hd2)].
    { destruct HC. apply (f_equal length) in Hnil.
      rewrite sorted_Permutation in Hnil. apply nil_length_inv in Hnil.
      by apply elements_empty_inv, leibniz_equiv in Hnil. }
    exists v. split; [done|].
    assert (∀ u, u ∈ C ↔ u ∈ d1 ++ v :: d2) as Hin
      by (intros u; by rewrite <- Hsplit, elem_of_sorted, elem_of_elements).
    split; [apply Hin; set_solver|]. intros u Hu%Hin.
    apply elem_of_app in Hu as [Hu|[->|Hu]%elem_of_cons].
    + specialize (Hd1 u Hu). fold cnt. lia.
    + done.
    + specialize (Hd2 u Hu). fold cnt. split; [lia|]. intros _.
      pose proof (sorted_Sorted (elements C)) as Hs. rewrite Hsplit in Hs.
      apply StronglySorted_app_1_r, StronglySorted_inv in Hs as [_ Hall].
      by eapply Forall_forall in Hall.
Qed.

End Escolha.

Lemma por_dominar_inicial G v :
  nx.wf G → por_dominar G (Dom.dominado_inicial G) v = vizinhos G v.
Proof.
  intros HG. unfold por_dominar, vizinhos. destruct (nx.adj G v) as [l|] eqn:Hl; [|done].
  do 2 f_equal.
  assert (∀ u, u ∈ l → u ∈ nx.nodes G) as Hnb by (intros u Hu; by eapply vizinho_no).
  clear Hl. induction l as [|x l IH]; [done|]. rewrite filter_cons.
  rewrite dominado_inicial_lookup, (decide_True (P := x ∈ nx.nodes G)) by (apply Hnb; left).
  simpl. f_equal. apply IH. intros u Hu. apply Hnb. by right.
Qed.

(** X8: the first choice of the greedy rule.  For every graph with a vertex,
    the set returned contains the vertex with the most neighbours, the one of
    least id among those with as many. *)
Theorem dominante_tem_o_maior G :
  nx.wf G → nx.nodes G ≠ [] →
  ∃ S v, Dom.conjunto_dominante_aproximado G = Ret S ∧ v ∈ S ∧ v ∈ nx.nodes G
    ∧ ∀ u, u ∈ nx.nodes G →
        vizinhos G u ≤ vizinhos G v ∧ (vizinhos G u = vizinhos G v → v ≤ u).
Proof.
  intros HG Hne. unfold Dom.conjunto_dominante_aproximado.
  set (C := list_to_set (nx.nodes G) : gset Z).
  assert (C ≠ ∅) as HC.
  { intros Hvazio. destruct (nx.nodes G) as [|x xs] eqn:Hn; [done|].
    assert (x ∈ C) by (unfold C; set_solver). set_solver. }
  pose proof (dom_inv_inicial G) as Hinv. fold C in Hinv.
  destruct (escolher_max G HG C ∅ _ Hinv HC) as (v & Hesc & Hv & Hmax).
  assert (v ∈ nx.nodes G) as Hvn by (by apply elem_of_list_to_set in Hv).
  destruct (laco_Ret G HG (size C) C ∅ (Dom.dominado_inicial G) Hinv)
    as (S & Hrun & _); [done|].
  rewrite Hrun. cbn [mbind res_bind]. exists (Py.sorted (elements S)), v.
  split_and!; [done | | done |].
  - apply elem_of_sorted, elem_of_elements.
    destruct (size C) as [|fuel] eqn:Hsz.
    { by apply size_empty_inv, leibniz_equiv in Hsz. }
    cbn [Dom.laco] in Hrun. rewrite decide_False, Hesc in Hrun by done.
    cbn [mbind res_bind of_option] in Hrun.
    rewrite (nao_dominado_Ret G C ∅ _ Hinv v Hvn) in Hrun.
    rewrite dominado_inicial_lookup, decide_True in Hrun by done.
    cbn [mbind res_bind default from_option id negb] in Hrun.
    destruct (neighbors_Ret G v Hvn) as (l & Hl & Hnb). rewrite Hnb in Hrun.
    cbn [mbind res_bind] in Hrun. apply laco_mono in Hrun. set_solver.
  - intros u Hu. rewrite <- !por_dominar_inicial by done.
    apply Hmax. by apply elem_of_list_to_set.
Qed.

Lemma dominante_tem_o_maior_witness :
  nx.wf g4
  ∧ ∃ S v, Dom.conjunto_dominante_aproximado g4 = Ret S ∧ v ∈ S
      ∧ ∀ u, u ∈ nx.nodes g4 →
          vizinhos g4 u ≤ vizinhos g4 v ∧ (vizinhos g4 u = vizinhos g4 v → v ≤ u).
Proof.
  assert (nx.wf g4) as Hwf by (apply (dom_carregar_wf c4); reflexivity).
  split; [exact Hwf|].
  destruct (dominante_tem_o_maior g4 Hwf ltac:(done)) as (S & v & HS & Hv & _ & Hmax).
  by exists S, v.
Defined.

(** ** Vertices without neighbours *)

(** X21: vertices nothing else can dominate.  For every graph, a vertex with
    no neighbour other than itself is in the dominating set returned; so the
    set is empty only for the graph without vertices, and for a graph without
    edges between distinct vertices it holds every vertex. *)
Theorem dominante_isolados G :
  nx.wf G →
  ∃ S, Dom.conjunto_dominante_aproximado G = Ret S
    ∧ (∀ v, v ∈ nx.nodes G → (∀ u, nx.adjacent G u v → u = v) → v ∈ S)
    ∧ (S = [] ↔ nx.nodes G = [])
    ∧ ((∀ u w, nx.adjacent G u w → u = w) → S = Py.sorted (nx.nodes G)).
Proof.
  intros HG. unfold Dom.conjunto_dominante_aproximado.
  destruct (laco_Ret G HG (size (list_to_set (nx.nodes G) : gset Z))
              (list_to_set (nx.nodes G)) ∅ (Dom.dominado_inicial G))
    as (S & -> & Hcov & Hsub); [apply dom_inv_inicial | done |].
  cbn [mbind res_bind]. eexists. split; [done|].
  assert (∀ v, v ∈ nx.nodes G → (∀ u, nx.adjacent G u v → u = v) → v ∈ S) as Hiso.
  { intros v Hv Hsolto. destruct (Hcov v Hv) as [?|(u & Hu & Huv)]; [done|].
    by rewrite <- (Hsolto u Huv). }
  split_and!.
  - intros v Hv Hsolto. by apply elem_of_sorted, elem_of_elements, Hiso.
  - split.
    + intros Hnil. destruct (nx.nodes G) as [|x xs] eqn:Hn; [done|].
      assert (x ∈ Py.sorted (elements S)) as Hx; [|by rewrite Hnil in Hx; apply elem_of_nil in Hx].
      apply elem_of_sorted, elem_of_elements.
      destruct (Hcov x) as [?|(u & Hu & _)]; [left | done |].
      exfalso. assert (u ∈ Py.sorted (elements S)) as Hu'
        by by apply elem_of_sorted, elem_of_elements.
      rewrite Hnil in Hu'. by apply elem_of_nil in Hu'.
    + intros Hnil. assert (S = ∅) as ->.
      { apply set_eq. intros v. split; [|set_solver]. intros Hv%Hsub.
        rewrite Hnil in Hv. by apply elem_of_nil in Hv. }
      by rewrite elements_empty.
  - intros Hsolto. apply (StronglySorted_unique Z.le);
      [apply sorted_Sorted | apply sorted_Sorted |].
    rewrite !sorted_Permutation. apply NoDup_Permutation;
      [apply NoDup_elements | apply HG |].
    intros v. rewrite elem_of_elements. split; [apply Hsub|].
    intros Hv. apply Hiso; [done|]. intros u Huv. by apply Hsolto.
Qed.

Lemma dominante_isolados_witness :
  nx.wf [(1, []); (2, [2]); (3, [])]
  ∧ ∃ S, Dom.conjunto_dominante_aproximado [(1, []); (2, [2]); (3, [])] = Ret S
      ∧ (S = [] ↔ nx.nodes [(1, []); (2, [2]); (3, [])] = []).
Proof.
  assert (nx.wf [(1, []); (2, [2]); (3, [])]) as Hwf
    by (apply (dom_carregar_wf sem_arestas); reflexivity).
  split; [exact Hwf|].
  destruct (dominante_isolados _ Hwf) as (S & HS & _ & Hnil & _).
  exists S. split; [exact HS | exact Hnil].
Defined.

(** ** The cut is at least half of the edges *)

Lemma ganho_filter G v l (X : gset Z) :
  nx.adj G v = Some l →
  MaxCut.ganho G v X = Ret (Z.of_nat (length (filter (λ u, u ∈ X) l))).
Proof.
  intros Hl. unfold MaxCut.ganho, nx.neighbors. rewrite Hl. simpl.
  rewrite (count_pure _ (λ u, bool_decide (u ∈ X))) by done. do 2 f_equal.
  f_equal. apply list_filter_iff. intros u. by rewrite bool_decide_eq_true.
Qed.

(** The vertex goes to the side where it has no fewer neighbours across. *)
Lemma colocar_ganho G A B v l :
  nx.adj G v = Some l →
  let gA := length (filter (λ u, u ∈ B) l) in
  let gB := length (filter (λ u, u ∈ A) l) in
  MaxCut.colocar G (A, B) v = Ret ({[v]} ∪ A, B) ∧ (gB ≤ gA)%nat
  ∨ MaxCut.colocar G (A, B) v = Ret (A, {[v]} ∪ B) ∧ (gA ≤ gB)%nat.
Proof.
  intros Hl gA gB. unfold MaxCut.colocar.
  rewrite (ganho_filter G v l B Hl), (ganho_filter G v l A Hl). cbn [mbind res_bind].
  fold gA gB. destruct (Z.ltb_spec (Z.of_nat gB) (Z.of_nat gA)); [left; split; [done|lia]|].
  destruct (Z.ltb_spec (Z.of_nat gA) (Z.of_nat gB)); [right; split; [done|lia]|].
  case_bool_decide; [left | right]; (split; [done|lia]).
Qed.

Lemma cruza_novo A B v e :
  v ∉ A ∪ B →
  (MaxCut.cruza ({[v]} ∪ A) B e ↔ MaxCut.cruza A B e ∨ toca v B e)
  ∧ (MaxCut.cruza A ({[v]} ∪ B) e ↔ MaxCut.cruza A B e ∨ toca v A e)
  ∧ (MaxCut.cruza A B e → toca v A e → False)
  ∧ (MaxCut.cruza A B e → toca v B e → False).
Proof. unfold MaxCut.cruza, toca. destruct e as [a b]. simpl. set_solver. Qed.

Lemma dentro_novo (P : gset Z) v e :
  v ∉ P →
  (dentro ({[v]} ∪ P) e ↔ dentro P e ∨ toca v P e)
  ∧ (dentro P e → toca v P e → False).
Proof. unfold dentro, toca. destruct e as [a b]. simpl. set_solver. Qed.

Lemma toca_uniao A B v e :
  A ∩ B = ∅ →
  (toca v (A ∪ B) e ↔ toca v A e ∨ toca v B e)
  ∧ (toca v A e → toca v B e → False).
Proof. unfold toca. destruct e as [a b]. simpl. set_solver. Qed.

(** Along the pass, the edges between two vertices already placed are at
    most twice those across the cut. *)
Lemma colocar_metade G xs :
  nx.wf G → NoDup xs → (∀ x, x ∈ xs → x ∈ nx.nodes G) →
  ∀ A B A' B',
    A ∩ B = ∅ → (∀ x, x ∈ xs → x ∉ A ∪ B) →
    (length (filter (dentro (A ∪ B)) (nx.edges G))
     ≤ 2 * length (filter (MaxCut.cruza A B) (nx.edges G)))%nat →
    Py.for_each (MaxCut.colocar G) xs (A, B) = Ret (A', B') →
    (length (filter (dentro (A' ∪ B')) (nx.edges G))
     ≤ 2 * length (filter (MaxCut.cruza A' B') (nx.edges G)))%nat.
Proof.
  intros HG. induction xs as [|v xs IH]; intros Hnd Hxs A B A' B' Hdis Hfresh Hinv;
    cbn [Py.for_each].
  { by intros [= <- <-]. }
  apply NoDup_cons in Hnd as [Hv Hnd].
  assert (v ∉ A ∪ B) as HvAB by (apply Hfresh; left).
  destruct (proj2 (adj_is_Some G v)) as [l Hl]; [apply Hxs; left|].
  pose proof (edges_toca G v l A HG Hl ltac:(set_solver)) as HtA.
  pose proof (edges_toca G v l B HG Hl ltac:(set_solver)) as HtB.
  set (E := nx.edges G) in *.
  assert (length (filter (dentro ({[v]} ∪ (A ∪ B))) E)
          = (length (filter (dentro (A ∪ B)) E)
             + (length (filter (toca v A) E) + length (filter (toca v B) E)))%nat)
    as Hdentro.
  { rewrite <- (filter_ou_length (toca v A) (toca v B))
      by (intros e _; apply (toca_uniao A B v e Hdis)).
    rewrite <- (filter_ou_length (dentro (A ∪ B)) (λ e, toca v A e ∨ toca v B e)).
    - f_equal. apply list_filter_iff. intros e.
      rewrite (proj1 (dentro_novo (A ∪ B) v e HvAB)).
      by rewrite (proj1 (toca_uniao A B v e Hdis)).
    - intros e _ Hd Ht. apply (proj2 (dentro_novo (A ∪ B) v e HvAB) Hd).
      by apply (toca_uniao A B v e Hdis). }
  pose proof (cruza_novo A B v) as Hcruza.
  assert (∀ y, y ∈ xs → y ∈ nx.nodes G) as Hxs' by (intros y Hy; apply Hxs; by right).
  destruct (colocar_ganho G A B v l Hl) as [[-> Hg]|[-> Hg]]; cbn [mbind res_bind];
    apply IH; try done.
  - set_solver.
  - intros y Hy. specialize (Hfresh y ltac:(by right)). set_solver.
  - replace ({[v]} ∪ A ∪ B) with ({[v]} ∪ (A ∪ B)) by set_solver.
    rewrite Hdentro.
    rewrite (list_filter_iff (MaxCut.cruza ({[v]} ∪ A) B)
               (λ e, MaxCut.cruza A B e ∨ toca v B e))
      by (intros e; apply (Hcruza e HvAB)).
    rewrite (filter_ou_length (MaxCut.cruza A B) (toca v B))
      by (intros e _; apply (Hcruza e HvAB)).
    rewrite HtA, HtB. lia.
  - set_solver.
  - intros y Hy. specialize (Hfresh y ltac:(by right)). set_solver.
  - replace (A ∪ ({[v]} ∪ B)) with ({[v]} ∪ (A ∪ B)) by set_solver.
    rewrite Hdentro.
    rewrite (list_filter_iff (MaxCut.cruza A ({[v]} ∪ B))
               (λ e, MaxCut.cruza A B e ∨ toca v A e))
      by (intros e; apply (Hcruza e HvAB)).
    rewrite (filter_ou_length (MaxCut.cruza A B) (toca v A))
      by (intros e _; apply (Hcruza e HvAB)).
    rewrite HtA, HtB. lia.
Qed.

Lemma filter_length_le {A} (P Q : A → Prop)
    `{!∀ x, Decision (P x)} `{!∀ x, Decision (Q x)} l :
  (∀ x, x ∈ l → P x → Q x) → (length (filter P l) ≤ length (filter Q l))%nat.
Proof.
  induction l as [|x l IH]; intros Himp; [done|]. rewrite !filter_cons.
  specialize (IH (λ y Hy, Himp y (list_elem_of_further _ _ _ Hy))).
  pose proof (Himp x ltac:(left)).
  destruct (decide (P x)), (decide (Q x)); simpl; try tauto; lia.
Qed.

(** The whole pass: the two sets share nothing, hold every node, and the
    cut has half of the edges between distinct vertices. *)
Lemma sahni_metade G A B :
  nx.wf G →
  Py.for_each (MaxCut.colocar G) (Py.sorted (nx.nodes G)) (∅, ∅) = Ret (A, B) →
  A ∩ B = ∅ ∧ A ∪ B = list_to_set (nx.nodes G)
  ∧ Z.of_nat (length (filter (λ e, e.1 ≠ e.2) (nx.edges G)))
    ≤ 2 * MaxCut.tamanho_corte G A B.
Proof.
  intros HG HAB. pose proof (sorted_NoDup _ (nx.wf_nodes G HG)) as Hsnd.
  assert (∀ x, x ∈ Py.sorted (nx.nodes G) → x ∈ nx.nodes G) as Hin
    by (intros x; by rewrite elem_of_sorted).
  destruct (colocar_todos G (Py.sorted (nx.nodes G)) ∅ ∅ Hin)
    as (A' & B' & HAB' & _ & _ & HU & Hdisj).
  rewrite HAB in HAB'. injection HAB' as <- <-.
  destruct Hdisj as [Hd _]; [done | set_solver | set_solver |].
  assert (A ∪ B = list_to_set (nx.nodes G)) as HU'.
  { rewrite HU, (list_to_set_perm_L _ _ (sorted_Permutation _)). set_solver. }
  split_and!; [done..|].
  pose proof (colocar_metade G _ HG Hsnd Hin ∅ ∅ A B) as Hhalf.
  assert (∀ e, e ∈ nx.edges G → e.1 ≠ e.2 → dentro (A ∪ B) e) as Hall.
  { intros [a b] [Ha Hb]%edges_nodes Hne; [|done]. split_and!; [| |done]; simpl;
      by rewrite HU', elem_of_list_to_set. }
  unfold MaxCut.tamanho_corte.
  etrans; [apply inj_le, (filter_length_le _ (dentro (A ∪ B)) _ Hall)|].
  etrans; [apply inj_le, Hhalf|]; [set_solver | set_solver | | done | lia].
  rewrite (list_filter_iff _ (λ _, False)); [|unfold dentro; set_solver].
  clear. induction (nx.edges G) as [|e l IH]; [simpl; lia|].
  rewrite filter_cons. by case_decide.
Qed.

(** X9: the guarantee of the greedy cut.  For every graph the cut returned
    has at least half of the edges that join two distinct vertices, and only
    such edges: a self-loop is never counted. *)
Theorem corte_pelo_menos_metade G :
  nx.wf G →
  ∃ A B, MaxCut.sahni_gonzalez_maxcut G = Ret (A, B)
    ∧ Z.of_nat (length (filter (λ e, e.1 ≠ e.2) (nx.edges G)))
      ≤ 2 * MaxCut.tamanho_corte G A B
    ∧ MaxCut.tamanho_corte G A B
      ≤ Z.of_nat (length (filter (λ e, e.1 ≠ e.2) (nx.edges G)))
    ∧ ∀ v, (v, v) ∈ nx.edges G → ¬ MaxCut.cruza A B (v, v).
Proof.
  intros HG.
  destruct (colocar_todos G (Py.sorted (nx.nodes G)) ∅ ∅) as (A & B & HAB & _);
    [intros x; by rewrite elem_of_sorted|].
  destruct (sahni_metade G A B HG HAB) as (Hd & _ & Hhalf).
  exists A, B. split_and!; [done | done | |].
  - unfold MaxCut.tamanho_corte. apply inj_le, filter_length_le.
    intros [a b] _ Hc Heq. simpl in *. subst.
    unfold MaxCut.cruza in Hc. simpl in Hc. set_solver.
  - intros v _ Hc. unfold MaxCut.cruza in Hc. simpl in Hc. set_solver.
Qed.

Lemma corte_pelo_menos_metade_witness :
  nx.wf g4
  ∧ ∃ A B, MaxCut.sahni_gonzalez_maxcut g4 = Ret (A, B)
      ∧ Z.of_nat (length (filter (λ e, e.1 ≠ e.2) (nx.edges g4)))
        ≤ 2 * MaxCut.tamanho_corte g4 A B.
Proof.
  assert (nx.wf g4) as Hwf by (apply (maxcut_carregar_wf c4); reflexivity).
  split; [exact Hwf|].
  destruct (corte_pelo_menos_metade g4 Hwf) as (A & B & HAB & Hhalf & _).
  by exists A, B.
Defined.

(** ** The report of the max-cut script *)

(** X10: the report of the max-cut script.  On a file that is read and loaded
    the run prints two lists in ascending order that share no vertex and
    together hold the vertices the file names, each with its length, and a
    cut size that is the number of edges of the graph with one end in each
    list, at least half the number of its edges between distinct
    vertices. *)
Theorem maxcut_relatorio abrir prog arquivo resto linhas G :
  abrir (localizar arquivo) = Ret linhas →
  MaxCut.carregar_grafo linhas = Ret G →
  ∃ corte la lb,
    MaxCut.principal abrir (prog :: arquivo :: resto)
    = Ret (MaxCut.Corte corte (length la) la (length lb) lb)
    ∧ StronglySorted Z.lt la ∧ StronglySorted Z.lt lb
    ∧ (∀ v, v ∈ la → v ∉ lb)
    ∧ (∀ v, v ∈ la ∨ v ∈ lb ↔ ∃ linha, linha ∈ linhas ∧ v ∈ declarados linha)
    ∧ corte = Z.of_nat (length (filter (λ e, (e.1 ∈ la ∧ e.2 ∈ lb) ∨ (e.1 ∈ lb ∧ e.2 ∈ la))
                                  (nx.edges G)))
    ∧ Z.of_nat (length (filter (λ e, e.1 ≠ e.2) (nx.edges G))) ≤ 2 * corte.
Proof.
  intros Habrir Hload. pose proof (maxcut_carregar_wf _ _ Hload) as HG.
  destruct (colocar_todos G (Py.sorted (nx.nodes G)) ∅ ∅) as (A & B & HAB & _);
    [intros x; by rewrite elem_of_sorted|].
  destruct (sahni_metade G A B HG HAB) as (Hd & HU & Hhalf).
  exists (MaxCut.tamanho_corte G A B), (Py.sorted (elements A)), (Py.sorted (elements B)).
  assert (∀ (X : gset Z) v, v ∈ Py.sorted (elements X) ↔ v ∈ X) as Hel
    by (intros X v; by rewrite elem_of_sorted, elem_of_elements).
  split_and!.
  - unfold MaxCut.principal. rewrite Habrir. cbn [mbind res_bind].
    rewrite Hload. cbn [mbind res_bind]. unfold MaxCut.sahni_gonzalez_maxcut.
    rewrite HAB. cbn [mbind res_bind].
    assert (∀ X : gset Z, length (Py.sorted (elements X)) = size X) as Hlen
      by (intros X; by rewrite sorted_Permutation).
    by rewrite !Hlen.
  - apply sorted_estrito, NoDup_elements.
  - apply sorted_estrito, NoDup_elements.
  - intros v. rewrite !Hel. set_solver.
  - intros v. rewrite !Hel, <- elem_of_union, HU, elem_of_list_to_set.
    by apply (carregar_nodes Loader.linha_p_unpack); [right|].
  - unfold MaxCut.tamanho_corte. do 2 f_equal. apply list_filter_iff.
    intros e. unfold MaxCut.cruza. by rewrite !Hel.
  - done.
Qed.

Lemma maxcut_relatorio_witness :
  disco_c4 (localizar "dados/c4.mc") = Ret c4
  ∧ ∃ corte la lb,
      MaxCut.principal disco_c4 ["max_cut.py"; "dados/c4.mc"]%string
      = Ret (MaxCut.Corte corte (length la) la (length lb) lb)
      ∧ Z.of_nat (length (filter (λ e, e.1 ≠ e.2) (nx.edges g4))) ≤ 2 * corte.
Proof.
  split; [reflexivity|].
  destruct (maxcut_relatorio disco_c4 "max_cut.py" "dados/c4.mc" [] c4 g4 eq_refl eq_refl)
    as (corte & la & lb & Hrun & _ & _ & _ & _ & _ & Hhalf).
  exists corte, la, lb. split; [exact Hrun | exact Hhalf].
Defined.

(** ** A graph without edges between distinct vertices *)

Lemma filter_nenhum {A} (P : A → Prop) `{!∀ x, Decision (P x)} l :
  (∀ x, x ∈ l → ¬ P x) → filter P l = [].
Proof.
  induction l as [|x l IH]; intros Hnone; [done|].
  rewrite filter_cons, decide_False by (apply Hnone; left).
  apply IH. intros y Hy. apply Hnone. by right.
Qed.

(** With no neighbour on either side, the vertex goes to [A] unless [A] is
    the larger set. *)
Lemma colocar_empate G A B v :
  nx.wf G → (∀ u w, nx.adjacent G u w → u = w) → v ∈ nx.nodes G → v ∉ A ∪ B →
  MaxCut.colocar G (A, B) v
  = Ret (if bool_decide (size A ≤ size B)%nat then ({[v]} ∪ A, B) else (A, {[v]} ∪ B)).
Proof.
  intros HG Hsolto Hv Hfresh. destruct (proj2 (adj_is_Some G v) Hv) as [l Hl].
  assert (∀ X : gset Z, v ∉ X → filter (λ u, u ∈ X) l = []) as Hnone.
  { intros X HX. apply filter_nenhum. intros u Hu HuX.
    assert (v = u) as -> by (apply Hsolto; by exists l). done. }
  unfold MaxCut.colocar.
  rewrite (ganho_filter G v l B Hl), (ganho_filter G v l A Hl).
  rewrite !Hnone by set_solver. done.
Qed.

Lemma colocar_alternado G xs :
  nx.wf G → (∀ u w, nx.adjacent G u w → u = w) →
  NoDup xs → (∀ x, x ∈ xs → x ∈ nx.nodes G) →
  ∀ A B A' B',
    A ∩ B = ∅ → (∀ x, x ∈ xs → x ∉ A ∪ B) →
    (size B ≤ size A ≤ size B + 1)%nat →
    Py.for_each (MaxCut.colocar G) xs (A, B) = Ret (A', B') →
    (size B' ≤ size A' ≤ size B' + 1)%nat
    ∧ (size A' + size B' = size A + size B + length xs)%nat.
Proof.
  intros HG Hsolto. induction xs as [|v xs IH]; intros Hnd Hxs A B A' B' Hdis Hfresh Hsz;
    cbn [Py.for_each].
  { intros [= <- <-]. simpl. lia. }
  apply NoDup_cons in Hnd as [Hv Hnd].
  assert (v ∉ A ∪ B) as HvAB by (apply Hfresh; left).
  rewrite (colocar_empate G A B v HG Hsolto (Hxs v ltac:(left)) HvAB).
  cbn [mbind res_bind].
  assert (∀ y, y ∈ xs → y ∈ nx.nodes G) as Hxs' by (intros y Hy; apply Hxs; by right).
  case_bool_decide as Hle; intros Hrest;
    apply (IH Hnd Hxs') in Hrest as [H1 H2];
    rewrite ?size_union, ?size_singleton in * by set_solver;
    try (simpl; lia); set_solver.
Qed.

(** X20: a graph without edges between distinct vertices.  The tie-break of
    the max-cut engine then decides every vertex: the two sets differ in size
    by at most one, [A] being the larger one when the number of vertices is
    odd, and the cut is empty. *)
Theorem corte_sem_arestas G :
  nx.wf G → (∀ u w, nx.adjacent G u w → u = w) →
  ∃ A B, MaxCut.sahni_gonzalez_maxcut G = Ret (A, B)
    ∧ (size B ≤ size A ≤ size B + 1)%nat
    ∧ (size A + size B = length (nx.nodes G))%nat
    ∧ MaxCut.tamanho_corte G A B = 0.
Proof.
  intros HG Hsolto.
  destruct (colocar_todos G (Py.sorted (nx.nodes G)) ∅ ∅) as (A & B & HAB & _);
    [intros x; by rewrite elem_of_sorted|].
  destruct (sahni_metade G A B HG HAB) as (Hd & _ & _).
  exists A, B. split; [done|].
  destruct (colocar_alternado G (Py.sorted (nx.nodes G)) HG Hsolto
              (sorted_NoDup _ (nx.wf_nodes G HG))
              (λ x Hx, proj1 (elem_of_sorted x _) Hx) ∅ ∅ A B) as [Hbal Hsum];
    [set_solver | set_solver | rewrite size_empty; lia | done |].
  split; [done|]. split.
  - rewrite Hsum, size_empty. simpl. by rewrite sorted_Permutation.
  - unfold MaxCut.tamanho_corte.
    rewrite (filter_nenhum (MaxCut.cruza A B)); [done|].
    intros [a b] Hab%edges_adjacent Hc; [|apply HG]. apply Hsolto in Hab as ->.
    unfold MaxCut.cruza in Hc. simpl in Hc. set_solver.
Qed.

Lemma corte_sem_arestas_witness :
  MaxCut.carregar_grafo sem_arestas = Ret [(1, []); (2, [2]); (3, [])]
  ∧ ∃ A B, MaxCut.sahni_gonzalez_maxcut [(1, []); (2, [2]); (3, [])] = Ret (A, B)
      ∧ (size B ≤ size A ≤ size B + 1)%nat
      ∧ MaxCut.tamanho_corte [(1, []); (2, [2]); (3, [])] A B = 0.
Proof.
  assert (MaxCut.carregar_grafo sem_arestas = Ret [(1, []); (2, [2]); (3, [])]) as Hl
    by reflexivity.
  split; [exact Hl|].
  destruct (corte_sem_arestas [(1, []); (2, [2]); (3, [])]
              (maxcut_carregar_wf _ _ Hl)) as (A & B & HAB & Hbal & _ & Hcut).
  - intros u w (l & Hl' & Hw). unfold nx.adj in Hl'. simpl in Hl'.
    repeat case_decide; simplify_eq; try by apply elem_of_nil in Hw.
    by apply list_elem_of_singleton in Hw.
  - exists A, B. split; [exact HAB|]. split; [exact Hbal | exact Hcut].
Defined.

(** ** What [ler_tsp] reads *)

Section Leitura.

Context (fos : string → res float).









End Leitura.





(** ** The matrix is complete *)

Section Completa.

Context (hypot : float → float → float).
Context (coords : gmap Z (float * float)) (use_round : bool).

(** The row of [u] in the matrix is the one the inner loop builds. *)
Lemma construir_linha dist u linha :
  Tsp.construir_matriz_distancias hypot coords use_round = Ret dist →
  Py.get dist u = Some linha →
  Py.for_each (Tsp.preencher hypot coords use_round u)
    (Py.sorted (elements (dom coords))) ∅ = Ret linha.
Proof.
  unfold Tsp.construir_matriz_distancias. intros H%comprehension_Ret Hl.
  apply get_Some_elem, list_elem_of_lookup in Hl as [n Hn].
  destruct (Forall2_lookup_r _ _ _ _ _ H Hn) as (x & _ & Hx).
  by apply bind_Ret in Hx as (l' & Hl' & [= <- <-]).
Qed.

(** The builder returns when every entry can be computed. *)
Lemma construir_total :
  (∀ u v, u ∈ dom coords → v ∈ dom coords →
          ∃ d, entrada hypot coords use_round u v = Ret d) →
  ∃ dist, Tsp.construir_matriz_distancias hypot coords use_round = Ret dist.
Proof.
  intros Hent. unfold Tsp.construir_matriz_distancias. apply comprehension_total.
  intros i Hi%elem_of_sorted%elem_of_elements.
  edestruct (for_each_total (Tsp.preencher hypot coords use_round i)) as [linha ->];
    [|simpl; eauto].
  intros linha j Hj%elem_of_sorted%elem_of_elements.
  rewrite preencher_entrada. destruct (Hent i j Hi Hj) as [d ->]. simpl. eauto.
Qed.

End Completa.

(** X13: the matrix is complete.  When the builder returns, the keys of the
    matrix are the vertices of the coordinate map in ascending order, and
    [dist[u][v]] is there exactly for the pairs of vertices of the map.  The
    builder returns exactly when every entry can be computed, which without
    the rounding flag is always. *)
Theorem matriz_completa hypot coords use_round :
  (∀ dist, Tsp.construir_matriz_distancias hypot coords use_round = Ret dist →
     StronglySorted Z.lt dist.*1
     ∧ (∀ u, u ∈ dist.*1 ↔ u ∈ dom coords)
     ∧ ∀ u v, (∃ d, Tsp.dist_de dist u v = Ret d) ↔ u ∈ dom coords ∧ v ∈ dom coords)
  ∧ ((∃ dist, Tsp.construir_matriz_distancias hypot coords use_round = Ret dist)
     ↔ ∀ u v, u ∈ dom coords → v ∈ dom coords →
              ∃ d, entrada hypot coords use_round u v = Ret d)
  ∧ (use_round = false →
     ∃ dist, Tsp.construir_matriz_distancias hypot coords use_round = Ret dist).
Proof.
  split_and!.
  - intros dist Hdist. destruct (construir_Ret _ _ _ _ Hdist) as [Hkeys Hent].
    assert (∀ u, u ∈ dist.*1 ↔ u ∈ dom coords) as Hdom
      by (intros u; by rewrite Hkeys, elem_of_sorted, elem_of_elements).
    split_and!; [|done|].
    + rewrite Hkeys. apply sorted_estrito, NoDup_elements.
    + intros u v. split.
      * intros [d Hd]. unfold Tsp.dist_de in Hd.
        destruct (Py.get dist u) as [linha|] eqn:Hu; [|done]. simpl in Hd.
        apply of_option_Ret in Hd.
        assert (u ∈ dom coords) as Hud by (apply Hdom, get_is_Some; eauto).
        split; [done|].
        pose proof (construir_linha _ _ _ _ _ _ Hdist Hu) as Hrow.
        destruct (decide (v ∈ Py.sorted (elements (dom coords)))) as [Hv|Hv].
        -- by apply elem_of_sorted, elem_of_elements in Hv.
        -- apply (linha_Ret _ _ _ _ _ _ _ Hrow v) in Hv. by rewrite Hv in Hd.
      * intros [Hu Hv]. destruct (Hent u v Hu Hv) as (d & _ & Hd). eauto.
  - split.
    + intros [dist Hdist] u v Hu Hv.
      destruct (proj2 (construir_Ret _ _ _ _ Hdist) u v Hu Hv) as (d & Hd & _). eauto.
    + apply construir_total.
  - intros ->. apply construir_sem_arredondar.
Qed.

(** ** The matrix is symmetric *)

Lemma SFabs_binary_round_aux m e l :
  SFabs (binary_round_aux prec emax true m e l)
  = SFabs (binary_round_aux prec emax false m e l).
Proof.
  unfold binary_round_aux.
  destruct (shr_fexp _ _ _ _ _) as [mrs' e'].
  destruct (shr_fexp _ _ _ _ _) as [mrs'' e''].
  destruct (shr_m mrs''); [done| |done].
  by destruct (_ <=? _).
Qed.

Lemma SFabs_binary_normalize m e :
  SFabs (binary_normalize prec emax (- m) e false)
  = SFabs (binary_normalize prec emax m e false).
Proof.
  destruct m as [|p|p]; simpl; [done| |];
    unfold binary_round; destruct (shl_align _ _ _); by rewrite SFabs_binary_round_aux.
Qed.

(** The two differences of two floats have one absolute value. *)
Lemma abs_sub a b : abs (a - b) = abs (b - a).
Proof.
  apply Prim2SF_inj. rewrite !abs_spec, !sub_spec. unfold SF64sub, SFsub.
  destruct (Prim2SF a) as [sa|sa| |sa ma ea], (Prim2SF b) as [sb|sb| |sb mb eb];
    try (by destruct sa, sb); try done.
  rewrite (Z.min_comm eb ea), <- SFabs_binary_normalize. do 2 f_equal.
  destruct sa, sb; simpl; lia.
Qed.

Lemma mul_abs x : (abs x * abs x = x * x)%float.
Proof.
  apply Prim2SF_inj. rewrite !mul_spec, !abs_spec. unfold SF64mul, SFmul.
  by destruct (Prim2SF x) as [[]|[]| |[] m e].
Qed.

Lemma hypot_sqrt_abs x y : hypot_sqrt x y = hypot_sqrt (abs x) (abs y).
Proof. unfold hypot_sqrt. by rewrite !mul_abs. Qed.

(** X14: the matrix is symmetric.  [math.hypot] depends on the absolute
    values of its arguments only; so, with or without rounding, [dist[u][v]]
    and [dist[v][u]] are one float. *)
Theorem matriz_simetrica hypot coords use_round dist u v :
  (∀ x y, hypot x y = hypot (abs x) (abs y)) →
  Tsp.construir_matriz_distancias hypot coords use_round = Ret dist →
  u ∈ dom coords → v ∈ dom coords →
  ∃ d, Tsp.dist_de dist u v = Ret d ∧ Tsp.dist_de dist v u = Ret d.
Proof.
  intros Hhyp [_ Hent]%construir_Ret Hu Hv.
  destruct (Hent u v Hu Hv) as (d & Hd & Huv), (Hent v u Hv Hu) as (d' & Hd' & Hvu).
  exists d. split; [done|]. rewrite Hvu. f_equal.
  assert (entrada hypot coords use_round u v = entrada hypot coords use_round v u)
    as Heq; [|congruence].
  unfold entrada. destruct (decide (u = v)) as [->|Hne]; [by rewrite decide_True|].
  rewrite (decide_False (P := v = u)) by done.
  apply elem_of_dom in Hu as [a ->], Hv as [b ->]. simpl.
  assert (Tsp.euclid_dist hypot a b = Tsp.euclid_dist hypot b a) as ->; [|done].
  unfold Tsp.euclid_dist. rewrite Hhyp, (Hhyp (b.1 - a.1)%float).
  by rewrite (abs_sub a.1), (abs_sub a.2).
Qed.

Lemma matriz_simetrica_witness :
  ∃ dist d,
    Tsp.construir_matriz_distancias hypot_sqrt
      (Tsp.ler_tsp float_literal tres_pontos) true = Ret dist
    ∧ Tsp.dist_de dist 2 3 = Ret d ∧ Tsp.dist_de dist 3 2 = Ret d.
Proof.
  destruct (Tsp.construir_matriz_distancias hypot_sqrt
              (Tsp.ler_tsp float_literal tres_pontos) true) as [dist| |] eqn:Hdist;
    [|exfalso; revert Hdist; vm_compute; discriminate..].
  destruct (matriz_simetrica hypot_sqrt _ true dist 2 3 hypot_sqrt_abs Hdist)
    as (d & H1 & H2); [vm_compute; reflexivity..|].
  exists dist, d. split; [reflexivity|]. split; [exact H1 | exact H2].
Defined.

(** ** The order of the floats *)

Lemma ltb_chave x y :
  (x <? y)%float = true ↔ ∃ a b, chave x = Some a ∧ chave y = Some b ∧ chave_antes a b.
Proof.
  rewrite ltb_spec. unfold chave, SFltb, SFcompare, chave_antes.
  destruct (Prim2SF x) as [sx|sx| |sx mx ex], (Prim2SF y) as [sy|sy| |sy my ey];
    try destruct sx; try destruct sy; simpl;
    try rewrite Pos.compare_cont_spec; simpl;
    try destruct (Z.compare_spec ex ey); try destruct (Pos.compare_spec mx my); simpl;
    (split; [first [done | intros _; do 2 eexists; split; [reflexivity|split; [reflexivity|simpl; lia]]]
            | first [done | intros (a & b & Ha & Hb & Hab); simplify_eq/=; exfalso; lia]]).
Qed.

Lemma ltb_trans x y z :
  (x <? y)%float = true → (y <? z)%float = true → (x <? z)%float = true.
Proof.
  rewrite !ltb_chave. intros (a & b & Ha & Hb & Hab) (b' & c & Hb' & Hc & Hbc).
  simplify_eq. exists a, c. split_and!; [done..|]. unfold chave_antes in *. lia.
Qed.

Lemma ltb_irrefl x : (x <? x)%float = false.
Proof.
  apply not_true_is_false. rewrite ltb_chave. intros (a & b & Ha & Hb & Hab).
  simplify_eq. unfold chave_antes in *. lia.
Qed.

(** Below a float that is no NaN and not below [y]: below [y]. *)
Lemma ltb_nao_abaixo x y z :
  (x <? y)%float = true → (z <? y)%float = false → is_Some (chave z) →
  (x <? z)%float = true.
Proof.
  intros (a & b & Ha & Hb & Hab)%ltb_chave Hzy [c Hc]. apply ltb_chave.
  exists a, c. split_and!; [done..|].
  destruct (decide (chave_antes c b)) as [Hcb|Hcb].
  - rewrite (proj2 (ltb_chave z y)) in Hzy; [done|]. by exists c, b.
  - unfold chave_antes in *. destruct a as [[??]?], b as [[??]?], c as [[??]?]. simpl in *. lia.
Qed.

Lemma chave_abaixo x y : (x <? y)%float = true → is_Some (chave x).
Proof. intros (a & b & Ha & _)%ltb_chave. eauto. Qed.

(** ** The nearest-neighbour rule *)

Lemma snoc_split {A} (tour : list A) b t1 u v t2 :
  tour ++ [b] = t1 ++ u :: v :: t2 →
  (t2 = [] ∧ v = b ∧ tour = t1 ++ [u])
  ∨ (∃ t2', t2 = t2' ++ [b] ∧ tour = t1 ++ u :: v :: t2').
Proof.
  destruct t2 as [|x t2 _] using rev_ind.
  - change (t1 ++ [u; v]) with (t1 ++ [u] ++ [v]). rewrite app_assoc.
    intros [-> ->]%app_inj_tail. by left.
  - change (t1 ++ u :: v :: t2 ++ [x]) with (t1 ++ (u :: v :: t2) ++ [x]).
    rewrite app_assoc. intros [-> ->]%app_inj_tail. right. by exists t2.
Qed.

Section Guloso.

Context (dist : list (Z * gmap Z float)) (start : Z).
Context (Hnd : NoDup dist.*1) (Hfin : finita dist).

Lemma dist_com_chave u v d :
  u ∈ dist.*1 → v ∈ dist.*1 → Tsp.dist_de dist u v = Ret d → is_Some (chave d).
Proof.
  intros Hu Hv Hd. destruct (Hfin u v Hu Hv) as (d' & Hd' & Hlt).
  rewrite Hd in Hd'. injection Hd' as <-. by eapply chave_abaixo.
Qed.

(** What the scan returns is an unvisited vertex at the least distance, the
    first one in the order of the keys. *)
Lemma mais_proximo_min visited current b d :
  current ∈ dist.*1 →
  Tsp.mais_proximo dist dist.*1 visited current = Ret (Some b, d) →
  ∃ n1 n2, dist.*1 = n1 ++ b :: n2 ∧ (b ∉ visited)
    ∧ Tsp.dist_de dist current b = Ret d
    ∧ ∀ w dw, w ∈ dist.*1 → w ∉ visited → Tsp.dist_de dist current w = Ret dw →
        (dw <? d)%float = false ∧ (w ∈ n1 → (d <? dw)%float = true).
Proof.
  intros Hc. unfold Tsp.mais_proximo.
  set (I := λ (feitos : list Z) (s : option Z * float),
    (s = (None, infinity) ∧ ∀ v, v ∈ feitos → v ∈ visited)
    ∨ (∃ b n1 n2, s.1 = Some b ∧ feitos = n1 ++ b :: n2 ∧ (b ∉ visited)
         ∧ Tsp.dist_de dist current b = Ret s.2
         ∧ (∀ w dw, w ∈ n1 → w ∉ visited → Tsp.dist_de dist current w = Ret dw →
              (s.2 <? dw)%float = true)
         ∧ (∀ w dw, w ∈ n2 → w ∉ visited → Tsp.dist_de dist current w = Ret dw →
              (dw <? s.2)%float = false))).
  destruct (for_each_inv I (Tsp.comparar dist visited current) dist.*1 [] (None, infinity))
    as ([best bd] & -> & HI).
  - left. split; [done|]. by intros v ?%elem_of_nil.
  - intros feitos v resto [best bd] Heq HI. simpl in Heq.
    assert (v ∈ dist.*1) as Hv by (rewrite Heq; apply elem_of_app; right; left).
    unfold Tsp.comparar. destruct (decide (v ∈ visited)) as [Hvis|Hvis].
    + eexists. split; [done|].
      destruct HI as [[Hs Hall]|(b0 & n1 & n2 & Hb & -> & Hnv & Hd & Hbef & Haft)].
      * left. split; [done|]. intros w [?| ->%list_elem_of_singleton]%elem_of_app; auto.
      * right. exists b0, n1, (n2 ++ [v]). split_and!; [done | | done..|].
        { by rewrite <- app_assoc. }
        intros w dw [?| ->%list_elem_of_singleton]%elem_of_app; [eauto | done].
    + destruct (Hfin current v Hc Hv) as (dv & Hdv & Hlt). rewrite Hdv. simpl.
      eexists. split; [done|]. right.
      destruct (dv <? bd)%float eqn:Hcmp.
      * exists v, feitos, []. split_and!; [done..| |by intros w dw ?%elem_of_nil].
        intros w dw Hw Hwv Hdw. simpl.
        destruct HI as [[_ Hall]|(b0 & n1 & n2 & Hb & -> & Hnv & Hd & Hbef & Haft)];
          [by destruct Hwv; apply Hall|].
        simpl in *. apply elem_of_app in Hw as [Hw|[->|Hw]%elem_of_cons].
        -- eapply ltb_trans; [done|]. by eapply Hbef.
        -- congruence.
        -- eapply ltb_nao_abaixo; [done | by eapply Haft |].
           apply (dist_com_chave current w); [done | | done].
           rewrite Heq. rewrite !elem_of_app, elem_of_cons. auto.
      * destruct HI as [[[= -> ->] _]|(b0 & n1 & n2 & Hb & -> & Hnv & Hd & Hbef & Haft)];
          [congruence|].
        exists b0, n1, (n2 ++ [v]). split_and!; [done | | done..|].
        { by rewrite <- app_assoc. }
        intros w dw [?| ->%list_elem_of_singleton]%elem_of_app; [eauto|].
        intros _ Hdw. simpl in *. congruence.
  - intros [= -> ->]. simpl in HI.
    destruct HI as [[[=] _]|(b0 & n1 & n2 & [= <-] & Hn & Hnv & Hd & Hbef & Haft)].
    simpl in *. exists n1, n2. split_and!; [done..|].
    intros w dw Hw Hwv Hdw. rewrite Hn in Hw.
    apply elem_of_app in Hw as [Hw|[->|Hw]%elem_of_cons].
    + split; [|eauto]. apply not_true_is_false. intros Hlt.
      pose proof (ltb_trans _ _ _ Hlt (Hbef w dw Hw Hwv Hdw)) as Habs.
      by rewrite ltb_irrefl in Habs.
    + assert (dw = d) as -> by congruence. split; [apply ltb_irrefl|].
      intros Hin. pose proof Hnd as Hnd'. rewrite Hn in Hnd'.
      apply NoDup_app in Hnd' as (_ & Hdis & _). destruct (Hdis b Hin). left.
    + split; [eauto|]. intros Hin. pose proof Hnd as Hnd'. rewrite Hn in Hnd'.
      apply NoDup_app in Hnd' as (_ & Hdis & _). destruct (Hdis w Hin). by right.
Qed.

Lemma nn_inv_inicial : start ∈ dist.*1 → nn_inv dist start {[start]} [start] start 0.
Proof.
  intros Hs. split; try done.
  - apply NoDup_singleton.
  - by intros v ->%list_elem_of_singleton.
  - simpl. set_solver.
Qed.

(** The loop extends a greedy tour into a greedy tour. *)
Lemma visitar_guloso :
  ∀ fuel visited tour current total_cost cost tour',
    nn_inv dist start visited tour current total_cost →
    guloso dist dist.*1 tour →
    Tsp.visitar fuel dist dist.*1 start visited tour current total_cost
    = Ret (cost, tour') →
    ∃ T, tour' = T ++ [start] ∧ guloso dist dist.*1 T.
Proof.
  induction fuel as [|fuel IH]; intros visited tour current total cost tour' Hinv Hg;
    cbn [Tsp.visitar].
  - case_decide; [done|]. intros (d & Hd & [= <- <-])%bind_Ret. eauto.
  - case_decide as Hlt; [|intros (d & Hd & [= <- <-])%bind_Ret; eauto].
    intros ([best bd] & Hscan & Hrest)%bind_Ret. destruct best as [b|]; [|done].
    pose proof Hinv as [_ Hlast _ Hkeys Hvis _].
    assert (current ∈ dist.*1) as Hcur
      by (apply Hkeys; by apply last_Some_elem_of in Hlast).
    destruct (mais_proximo_min visited current b bd Hcur Hscan)
      as (n1 & n2 & Hn & Hbv & Hd & Hmin).
    assert (nn_inv dist start ({[b]} ∪ visited) (tour ++ [b]) b (total + bd)%float)
      as Hinv'.
    { apply (nn_inv_passo dist start Hnd Hfin visited tour current); [done | | | done].
      - rewrite Hn. set_solver.
      - by rewrite Hvis, elem_of_list_to_set in Hbv. }
    apply (IH _ _ _ _ cost tour' Hinv'); [|done].
    intros t1 u v t2 [(-> & -> & ->)|(t2' & -> & ->)]%snoc_split; [|by apply (Hg t1 u v t2')].
    rewrite last_snoc in Hlast. injection Hlast as ->.
    exists bd, n1, n2. split_and!; [done..|]. intros w dw Hw Hwt Hdw.
    apply Hmin; [done | | done]. by rewrite Hvis, elem_of_list_to_set.
Qed.

Lemma nearest_neighbor_tour_guloso cost tour :
  start ∈ dist.*1 → Tsp.nearest_neighbor_tour dist start = Ret (cost, tour) →
  guloso dist dist.*1 (removelast tour).
Proof.
  intros Hs Hnn. unfold Tsp.nearest_neighbor_tour in Hnn.
  apply (visitar_guloso _ _ _ _ _ cost tour (nn_inv_inicial Hs)) in Hnn as (T & -> & HT).
  - by rewrite removelast_last.
  - intros t1 u v t2 Heq. apply (f_equal length) in Heq.
    rewrite length_app in Heq. simpl in Heq. lia.
Qed.

End Guloso.

Lemma antes_na_ordem (nodes n1 n2 : list Z) v w :
  StronglySorted Z.le nodes → nodes = n1 ++ v :: n2 → w ∈ nodes → w < v → w ∈ n1.
Proof.
  intros Hs -> [Hw|[->|Hw]%elem_of_cons]%elem_of_app Hlt; [done | lia |].
  apply StronglySorted_app_1_r, StronglySorted_inv in Hs as [_ Hv].
  eapply Forall_forall in Hv; [|done]. lia.
Qed.

Lemma construir_finita hypot coords use_round dist :
  Tsp.construir_matriz_distancias hypot coords use_round = Ret dist →
  entradas_finitas dist = true →
  NoDup dist.*1 ∧ finita dist ∧ ∀ v, v ∈ dist.*1 ↔ v ∈ dom coords.
Proof.
  intros [Hkeys Hent]%construir_Ret Hfin.
  assert (∀ v, v ∈ dist.*1 ↔ v ∈ dom coords) as Hdom
    by (intros v; by rewrite Hkeys, elem_of_sorted, elem_of_elements).
  split_and!; [|  |done].
  - rewrite Hkeys. apply sorted_NoDup, NoDup_elements.
  - intros u v Hu%Hdom Hv%Hdom. destruct (Hent u v Hu Hv) as (d & _ & Hd).
    exists d. split; [done|]. by eapply entradas_finitas_spec.
Qed.

(** X15: the nearest-neighbour rule.  In the tour built on the matrix of a
    coordinate map, with all entries below infinity, every step from a vertex
    [u] to the next one [v] (the closing step apart) goes to a vertex not yet
    visited such that no vertex [w] not yet visited is nearer to [u], and
    every such [w] of lower id is farther. *)
Theorem passo_ao_mais_proximo hypot coords use_round dist s cost tour :
  Tsp.construir_matriz_distancias hypot coords use_round = Ret dist →
  s ∈ dom coords →
  entradas_finitas dist = true →
  Tsp.nearest_neighbor_tour dist s = Ret (cost, tour) →
  ∀ t1 u v t2, removelast tour = t1 ++ u :: v :: t2 →
    ∃ d, Tsp.dist_de dist u v = Ret d
      ∧ ∀ w, w ∈ dom coords → w ∉ t1 → w ≠ u →
          ∃ dw, Tsp.dist_de dist u w = Ret dw
            ∧ (dw <? d)%float = false ∧ (w < v → (d <? dw)%float = true).
Proof.
  intros Hdist Hs Hfin Hnn t1 u v t2 Htour.
  destruct (construir_finita _ _ _ _ Hdist Hfin) as (Hnd & Hfinita & Hdom).
  apply construir_Ret in Hdist as [Hkeys Hent].
  pose proof (nearest_neighbor_tour_guloso dist s Hnd Hfinita cost tour
                (proj2 (Hdom s) Hs) Hnn t1 u v t2 Htour) as (d & n1 & n2 & Hd & Hn & Hmin).
  exists d. split; [done|]. intros w Hw Hwt Hwu.
  assert (u ∈ dom coords) as Hu.
  { destruct (nearest_neighbor_tour_Ret dist s Hnd Hfinita (proj2 (Hdom s) Hs))
      as (cost' & tour' & Hnn' & _ & _ & Hperm & _).
    rewrite Hnn in Hnn'. injection Hnn' as <- <-.
    apply Hdom. rewrite <- Hperm, Htour. set_solver. }
  destruct (Hent u w Hu Hw) as (dw & _ & Hdw). exists dw. split; [done|].
  destruct (Hmin w dw) as [Hge Hfirst]; [by apply Hdom | set_solver | done |].
  split; [done|]. intros Hlt. apply Hfirst.
  apply (antes_na_ordem dist.*1 n1 n2 v w); [|done | by apply Hdom | done].
  rewrite Hkeys. apply sorted_Sorted.
Qed.

Lemma passo_ao_mais_proximo_witness :
  ∃ dist cost tour,
    Tsp.construir_matriz_distancias hypot_sqrt
      (Tsp.ler_tsp float_literal tres_pontos) false = Ret dist
    ∧ Tsp.nearest_neighbor_tour dist 1 = Ret (cost, tour)
    ∧ removelast tour = [1; 3; 2]
    ∧ ∃ d, Tsp.dist_de dist 1 3 = Ret d
        ∧ ∀ w, w ∈ dom (Tsp.ler_tsp float_literal tres_pontos) → w ∉ [] → w ≠ 1 →
            ∃ dw, Tsp.dist_de dist 1 w = Ret dw
              ∧ (dw <? d)%float = false ∧ (w < 3 → (d <? dw)%float = true).
Proof.
  destruct (construir_sem_arredondar hypot_sqrt (Tsp.ler_tsp float_literal tres_pontos))
    as [dist Hdist].
  assert (entradas_finitas dist = true) as Hfin.
  { revert Hdist. vm_compute. by intros [= <-]. }
  assert (Tsp.nearest_neighbor_tour dist 1 = Ret (20%float, [1; 3; 2; 1])) as Hnn.
  { pose proof Hdist as Hd. vm_compute in Hd. injection Hd as <-.
    vm_compute. reflexivity. }
  exists dist, 20%float, [1; 3; 2; 1]. split_and!; [done..|].
  apply (passo_ao_mais_proximo hypot_sqrt _ false dist 1 20%float [1; 3; 2; 1] Hdist
           ltac:(vm_compute; reflexivity) Hfin Hnn [] 1 3 [2] eq_refl).
Defined.

(** X16: a start vertex that is no key of the matrix makes the tour builder
    fail with [KeyError], whatever the matrix. *)
Theorem inicio_fora_da_matriz dist start :
  start ∉ dist.*1 → Tsp.nearest_neighbor_tour dist start = Raise KeyError.
Proof.
  intros Hs. pose proof (proj2 (get_None dist start) Hs) as Hget.
  assert (∀ v, Tsp.dist_de dist start v = Raise KeyError) as Hrow
    by (intros v; unfold Tsp.dist_de; by rewrite Hget).
  unfold Tsp.nearest_neighbor_tour.
  destruct (dist.*1) as [|k0 nodes] eqn:Hn; cbn [length Tsp.visitar].
  - rewrite decide_False by (rewrite size_singleton; lia). by rewrite Hrow.
  - case_decide; [|by rewrite Hrow].
    unfold Tsp.mais_proximo. cbn [Py.for_each Tsp.comparar].
    rewrite decide_False; [by rewrite Hrow|].
    intros ->%elem_of_singleton. apply Hs. left.
Qed.

Lemma inicio_fora_da_matriz_witness :
  (2 ∉ [(1, ({[1 := 0%float]} : gmap Z float))].*1)
  ∧ Tsp.nearest_neighbor_tour [(1, {[1 := 0%float]})] 2 = Raise KeyError.
Proof.
  assert (2 ∉ [(1, ({[1 := 0%float]} : gmap Z float))].*1) as H2
    by (by intros [=]%list_elem_of_singleton).
  split; [exact H2 | exact (inicio_fora_da_matriz _ 2 H2)].
Defined.

(** ** What a run of the routing script prints *)

(** Steps 4 and 5 from one start whose tour is built. *)
Lemma resolver_um dist s cost tour :
  Tsp.nearest_neighbor_tour dist s = Ret (cost, tour) →
  head tour = Some s → last tour = Some s →
  Tsp.resolver dist [s]
  = if (cost <? infinity)%float then Ret (Tsp.Impresso cost (removelast tour))
    else Raise TypeError.
Proof.
  intros Hnn Hh Hl. unfold Tsp.resolver, Tsp.melhor_tour.
  cbn [Py.for_each Tsp.tentar_inicio]. rewrite Hnn. cbn [mbind res_bind].
  destruct (cost <? infinity)%float; cbn [mbind res_bind Tsp.imprimir]; [|done].
  rewrite decide_True; [done|]. split; [by intros ->|congruence].
Qed.

Lemma head_removelast (tour : list Z) s :
  head tour = Some s → removelast tour ≠ [] → head (removelast tour) = Some s.
Proof. destruct tour as [|x [|y tour]]; simpl; try done. Qed.

(** X17: what a run from one start prints.  With [--start s], [s] a vertex of
    the instance, and a matrix built with all entries below infinity, the
    tour from [s] is built; if its cost is below infinity the run prints that
    cost and the tour without its closing vertex, which begins with [s] and
    has every vertex once; otherwise nothing was kept as the best tour and
    the run ends in a [TypeError]. *)
Theorem executar_imprime hypot fos args s dist :
  Tsp.try_all args = false → Tsp.start args = Some s →
  s ∈ dom (Tsp.ler_tsp fos (Tsp.file args)) →
  Tsp.construir_matriz_distancias hypot (Tsp.ler_tsp fos (Tsp.file args)) (Tsp.round args)
  = Ret dist →
  entradas_finitas dist = true →
  ∃ cost tour, Tsp.nearest_neighbor_tour dist s = Ret (cost, tour)
    ∧ Tsp.executar hypot fos args
      = (if (cost <? infinity)%float then Ret (Tsp.Impresso cost (removelast tour))
         else Raise TypeError)
    ∧ head (removelast tour) = Some s
    ∧ removelast tour ≡ₚ elements (dom (Tsp.ler_tsp fos (Tsp.file args))).
Proof.
  intros Ht Hs Hin Hdist Hfin.
  destruct (construir_finita _ _ _ _ Hdist Hfin) as (Hnd & Hfinita & Hdom).
  destruct (nearest_neighbor_tour_Ret dist s Hnd Hfinita (proj2 (Hdom s) Hin))
    as (cost & tour & Hnn & Hh & Hl & Hperm & _).
  exists cost, tour. split; [done|].
  assert (removelast tour ≡ₚ elements (dom (Tsp.ler_tsp fos (Tsp.file args)))) as Hp.
  { rewrite Hperm. apply construir_Ret in Hdist as [-> _]. apply sorted_Permutation. }
  split_and!; [|apply head_removelast; [done|] | done].
  - unfold Tsp.executar. rewrite decide_False by (intros Hvazio; by rewrite Hvazio in Hin).
    rewrite Hdist, Ht, Hs. cbn [mbind res_bind]. rewrite decide_True by done.
    by apply resolver_um.
  - intros Hnil. rewrite Hnil in Hp. apply Permutation_nil_l in Hp.
    apply (f_equal (λ l, s ∈ l)) in Hp. 
    assert (s ∈ elements (dom (Tsp.ler_tsp fos (Tsp.file args)))) as Habs
      by by apply elem_of_elements.
    rewrite <- Hp in Habs. by apply elem_of_nil in Habs.
Qed.

Lemma executar_imprime_witness :
  ∃ dist, Tsp.construir_matriz_distancias hypot_sqrt
            (Tsp.ler_tsp float_literal tres_pontos) false = Ret dist
    ∧ Tsp.nearest_neighbor_tour dist 1 = Ret (20%float, [1; 3; 2; 1])
    ∧ Tsp.executar hypot_sqrt float_literal
        {| Tsp.file := tres_pontos; Tsp.start := Some 1; Tsp.try_all := false;
           Tsp.round := false |}
      = Ret (Tsp.Impresso 20 [1; 3; 2]).
Proof.
  destruct (construir_sem_arredondar hypot_sqrt (Tsp.ler_tsp float_literal tres_pontos))
    as [dist Hdist].
  assert (entradas_finitas dist = true) as Hfin.
  { revert Hdist. vm_compute. by intros [= <-]. }
  assert (Tsp.nearest_neighbor_tour dist 1 = Ret (20%float, [1; 3; 2; 1])) as Hnn.
  { pose proof Hdist as Hd. vm_compute in Hd. injection Hd as <-.
    vm_compute. reflexivity. }
  exists dist. split_and!; [done..|].
  destruct (executar_imprime hypot_sqrt float_literal
    {| Tsp.file := tres_pontos; Tsp.start := Some 1; Tsp.try_all := false;
       Tsp.round := false |} 1 dist eq_refl eq_refl ltac:(vm_compute; reflexivity)
    Hdist Hfin) as (cost & tour & Hnn' & Hex & _).
  rewrite Hnn in Hnn'. injection Hnn' as <- <-. exact Hex.
Defined.

(** The two points of [ida_e_volta]: every entry of the matrix is below
    infinity, the cost of the tour is not, and the run ends in a
    [TypeError]. *)
Lemma executar_custo_infinito :
  ∃ dist,
    Tsp.construir_matriz_distancias hypot_no_eixo
      (Tsp.ler_tsp float_literal ida_e_volta) false = Ret dist
    ∧ entradas_finitas dist = true
    ∧ Tsp.nearest_neighbor_tour dist 1 = Ret (infinity, [1; 2; 1])
    ∧ Tsp.executar hypot_no_eixo float_literal
        {| Tsp.file := ida_e_volta; Tsp.start := Some 1; Tsp.try_all := false;
           Tsp.round := false |}
      = Raise TypeError.
Proof.
  eexists. split_and!; [vm_compute; reflexivity..].
Qed.




Section MelhorInicio.

Context (dist : list (Z * gmap Z float)).
Context (Hnd : NoDup dist.*1) (Hfin : finita dist).

(** The scan over the starts keeps the first tour of the least cost. *)
Lemma melhor_tour_min starts :
  (∀ s, s ∈ starts → s ∈ dist.*1) →
  ∃ c bt, Tsp.melhor_tour dist starts = Ret (c, bt)
    ∧ (∀ s, s ∈ starts →
         ∃ cs ts, Tsp.nearest_neighbor_tour dist s = Ret (cs, ts) ∧ (cs <? c)%float = false)
    ∧ ((bt = None ∧ c = infinity)
       ∨ ∃ d1 s d2 t, starts = d1 ++ s :: d2 ∧ bt = Some t
           ∧ Tsp.nearest_neighbor_tour dist s = Ret (c, t)
           ∧ (c <? infinity)%float = true
           ∧ ∀ s' c' t', s' ∈ d1 → Tsp.nearest_neighbor_tour dist s' = Ret (c', t') → c' ≠ c).
Proof.
  intros Hstarts. unfold Tsp.melhor_tour.
  set (I := λ (feitos : list Z) (m : float * option (list Z)),
    (∀ s, s ∈ feitos →
       ∃ cs ts, Tsp.nearest_neighbor_tour dist s = Ret (cs, ts) ∧ (cs <? m.1)%float = false)
    ∧ ((m.2 = None ∧ m.1 = infinity)
       ∨ ∃ d1 s d2 t, feitos = d1 ++ s :: d2 ∧ m.2 = Some t
           ∧ Tsp.nearest_neighbor_tour dist s = Ret (m.1, t)
           ∧ (m.1 <? infinity)%float = true
           ∧ ∀ s' c' t', s' ∈ d1 → Tsp.nearest_neighbor_tour dist s' = Ret (c', t') →
               c' ≠ m.1)).
  destruct (for_each_inv I (Tsp.tentar_inicio dist) starts [] (infinity, None))
    as ([c bt] & Hret & Hall & Hbest).
  - split; [by intros s ?%elem_of_nil | by left].
  - intros feitos s resto [bc bt] Heq [Hall Hbest]. simpl in Heq, Hall, Hbest.
    assert (s ∈ dist.*1) as Hs by (apply Hstarts; rewrite Heq; set_solver).
    destruct (nearest_neighbor_tour_Ret dist s Hnd Hfin Hs)
      as (cs & ts & Hnn & _). unfold Tsp.tentar_inicio. rewrite Hnn.
    cbn [mbind res_bind]. eexists. split; [done|].
    destruct (cs <? bc)%float eqn:Hcmp; split; simpl.
    + intros s' [Hs'| ->%list_elem_of_singleton]%elem_of_app.
      * destruct (Hall s' Hs') as (c' & t' & Hnn' & Hge). exists c', t'.
        split; [done|]. apply not_true_is_false. intros Hlt.
        by rewrite (ltb_trans _ _ _ Hlt Hcmp) in Hge.
      * exists cs, ts. split; [done | apply ltb_irrefl].
    + right. exists feitos, s, [], ts. split_and!; [done..| |].
      * destruct Hbest as [[_ ->]|(d1 & s0 & d2 & t & _ & _ & _ & Hlt & _)]; [done|].
        by eapply ltb_trans.
      * intros s' c' t' Hs' Hnn' ->. destruct (Hall s' Hs') as (c'' & t'' & Hnn'' & Hge).
        congruence.
    + intros s' [Hs'| ->%list_elem_of_singleton]%elem_of_app; [by apply Hall|].
      by exists cs, ts.
    + destruct Hbest as [?|(d1 & s0 & d2 & t & -> & Hbt & Hnn0 & Hlt & Hfirst)]; [by left|].
      right. exists d1, s0, (d2 ++ [s]), t. split_and!; [|done..].
      by rewrite <- app_assoc.
  - exists c, bt. done.
Qed.

End MelhorInicio.

Lemma tour_fechado dist s cost tour :
  NoDup dist.*1 → finita dist → s ∈ dist.*1 →
  Tsp.nearest_neighbor_tour dist s = Ret (cost, tour) →
  tour ≠ [] ∧ head tour = last tour.
Proof.
  intros Hnd Hfin Hs Hnn.
  destruct (nearest_neighbor_tour_Ret dist s Hnd Hfin Hs) as (c & t & Hnn' & Hh & Hl & _).
  rewrite Hnn in Hnn'. injection Hnn' as <- <-. split; [by intros ->|congruence].
Qed.

(** X19: [--try-all] keeps the best start.  With a matrix built with all
    entries below infinity, the tour from every vertex is built, and no start
    gives a cost below the one kept.  Either no cost is below infinity,
    nothing is kept and the run ends in a [TypeError]; or the run prints the
    cost and the tour (without its closing vertex) from a start [s], and no
    start of lower id has the same cost. *)
Theorem executar_melhor_inicio hypot fos args dist :
  Tsp.try_all args = true →
  Tsp.ler_tsp fos (Tsp.file args) ≠ ∅ →
  Tsp.construir_matriz_distancias hypot (Tsp.ler_tsp fos (Tsp.file args)) (Tsp.round args)
  = Ret dist →
  entradas_finitas dist = true →
  ∃ c, (∀ s, s ∈ dom (Tsp.ler_tsp fos (Tsp.file args)) →
          ∃ cs ts, Tsp.nearest_neighbor_tour dist s = Ret (cs, ts)
            ∧ (cs <? c)%float = false)
    ∧ ((c = infinity ∧ Tsp.executar hypot fos args = Raise TypeError)
       ∨ ∃ s t, s ∈ dom (Tsp.ler_tsp fos (Tsp.file args))
           ∧ Tsp.nearest_neighbor_tour dist s = Ret (c, t)
           ∧ (c <? infinity)%float = true
           ∧ Tsp.executar hypot fos args = Ret (Tsp.Impresso c (removelast t))
           ∧ ∀ s' c' t', s' ∈ dom (Tsp.ler_tsp fos (Tsp.file args)) → s' < s →
               Tsp.nearest_neighbor_tour dist s' = Ret (c', t') → c' ≠ c).
Proof.
  intros Ht Hne Hdist Hfin. set (coords := Tsp.ler_tsp fos (Tsp.file args)) in *.
  destruct (construir_finita _ _ _ _ Hdist Hfin) as (Hnd & Hfinita & Hdom).
  pose proof (proj1 (construir_Ret _ _ _ _ Hdist)) as Hkeys.
  destruct (melhor_tour_min dist Hnd Hfinita dist.*1 (λ s H, H))
    as (c & bt & Hbest & Hall & Hcase).
  assert (Tsp.executar hypot fos args = Tsp.imprimir c bt) as Hex.
  { unfold Tsp.executar. fold coords. rewrite (decide_False (P := coords = ∅)) by done.
    rewrite Hdist, Ht. cbn [mbind res_bind]. unfold Tsp.resolver.
    by rewrite <- Hkeys, Hbest. }
  exists c. split; [intros s Hs%Hdom; by apply Hall|].
  destruct Hcase as [[-> ->]|(d1 & s & d2 & t & Hsplit & -> & Hnn & Hlt & Hfirst)].
  - left. by rewrite Hex.
  - right. exists s, t. assert (s ∈ dist.*1) as Hs by (rewrite Hsplit; set_solver).
    split_and!; [by apply Hdom | done | done | |].
    + rewrite Hex. cbn [Tsp.imprimir]. rewrite decide_True; [done|].
      by eapply tour_fechado.
    + intros s' c' t' Hs'%Hdom Hlt'. apply Hfirst.
      apply (antes_na_ordem dist.*1 d1 d2 s s'); [|done..].
      rewrite Hkeys. apply sorted_Sorted.
Qed.

Lemma executar_melhor_inicio_witness :
  ∃ dist, Tsp.construir_matriz_distancias hypot_sqrt
            (Tsp.ler_tsp float_literal tres_pontos) false = Ret dist
    ∧ Tsp.executar hypot_sqrt float_literal
        {| Tsp.file := tres_pontos; Tsp.start := None; Tsp.try_all := true;
           Tsp.round := false |}
      = Ret (Tsp.Impresso 20 [1; 3; 2])
    ∧ ∀ s, s ∈ dom (Tsp.ler_tsp float_literal tres_pontos) →
        ∃ cs ts, Tsp.nearest_neighbor_tour dist s = Ret (cs, ts)
          ∧ (cs <? 20)%float = false.
Proof.
  destruct (construir_sem_arredondar hypot_sqrt (Tsp.ler_tsp float_literal tres_pontos))
    as [dist Hdist].
  assert (entradas_finitas dist = true) as Hfin.
  { revert Hdist. vm_compute. by intros [= <-]. }
  pose (args := {| Tsp.file := tres_pontos; Tsp.start := None; Tsp.try_all := true;
                   Tsp.round := false |}).
  assert (Tsp.executar hypot_sqrt float_literal args = Ret (Tsp.Impresso 20 [1; 3; 2]))
    as Hrun by (vm_compute; reflexivity).
  exists dist. split_and!; [done..|].
  destruct (executar_melhor_inicio hypot_sqrt float_literal args dist eq_refl
              ltac:(vm_compute; discriminate) Hdist Hfin) as (c & Hall & Hcase).
  assert (c = 20%float) as ->; [|exact Hall].
  destruct Hcase as [[_ Hex]|(s & t & _ & _ & _ & Hex & _)]; rewrite Hrun in Hex.
  - discriminate.
  - by injection Hex as ->.
Defined.

(** ** An instance of one vertex *)

(** X22: an instance of one vertex.  When the file gives coordinates for one
    vertex [k] only, the run prints the cost 0 and the tour [k], with
    [--try-all], with [--start k] and without [--start], rounding or not. *)
Theorem executar_um_vertice hypot fos args k :
  dom (Tsp.ler_tsp fos (Tsp.file args)) = {[k]} →
  Tsp.try_all args = true ∨ Tsp.start args = None ∨ Tsp.start args = Some k →
  Tsp.executar hypot fos args = Ret (Tsp.Impresso 0 [k]).
Proof.
  intros Hdom Hmodo. unfold Tsp.executar.
  set (coords := Tsp.ler_tsp fos (Tsp.file args)) in *.
  rewrite decide_False by (intros Hvazio; rewrite Hvazio, dom_empty_L in Hdom; set_solver).
  assert (Py.sorted (elements (dom coords)) = [k]) as Hkeys.
  { rewrite Hdom, elements_singleton. reflexivity. }
  assert (Tsp.construir_matriz_distancias hypot coords (Tsp.round args)
          = Ret [(k, {[k := 0%float]})]) as ->.
  { unfold Tsp.construir_matriz_distancias. rewrite Hkeys.
    cbn [Py.comprehension Py.for_each]. unfold Tsp.preencher.
    rewrite decide_True by done. done. }
  cbn [mbind res_bind]. rewrite Hkeys.
  assert (Tsp.resolver [(k, {[k := 0%float]})] [k] = Ret (Tsp.Impresso 0 [k])) as Hres.
  { unfold Tsp.resolver, Tsp.melhor_tour. cbn [Py.for_each Tsp.tentar_inicio].
    unfold Tsp.nearest_neighbor_tour. cbn [fmap list_fmap fst length Tsp.visitar].
    rewrite size_singleton, decide_False by lia.
    unfold Tsp.dist_de. cbn [Py.get]. rewrite decide_True by done.
    cbn [of_option mbind res_bind]. rewrite lookup_singleton_eq.
    cbn [of_option mbind res_bind].
    change (0 + 0)%float with 0%float. change (0 <? infinity)%float with true.
    cbn [Tsp.imprimir app]. rewrite decide_True by done. done. }
  destruct (Tsp.try_all args); [done|].
  destruct Hmodo as [?|[-> | ->]]; [done| |]; cbn [hd];
    by rewrite decide_True by (rewrite Hdom; set_solver).
Qed.

Lemma executar_um_vertice_witness :
  dom (Tsp.ler_tsp float_literal um_ponto) = {[7]}
  ∧ Tsp.executar hypot_sqrt float_literal
      {| Tsp.file := um_ponto; Tsp.start := None; Tsp.try_all := false;
         Tsp.round := true |}
    = Ret (Tsp.Impresso 0 [7]).
Proof.
  assert (dom (Tsp.ler_tsp float_literal um_ponto) = {[7]}) as Hdom
    by (vm_compute; reflexivity).
  split; [exact Hdom|].
  apply (executar_um_vertice hypot_sqrt float_literal
           {| Tsp.file := um_ponto; Tsp.start := None; Tsp.try_all := false;
              Tsp.round := true |} 7 Hdom).
  right. by left.
Defined.
